(** * Aho-Corasick pattern matcher: a shallow embedding of PatternMatcher.cpp

    The trie of the C++ program is a graph of heap cells linked by owning
    pointers (children) and non-owning pointers (failure_link, output_link).
    Here the heap is a list of cells and a pointer is the position of a cell
    in it; the root is cell 0 and nullptr is [None].  Every dereference is
    written out: a null or dangling pointer, or an array index outside
    the children array, gives [Undefined]; a loop of the source is a
    function with fuel which gives [Diverged] when the fuel runs out.
    size_t values wrap around at 2^64 where the source computes with them;
    the int counters (depth, node_count_, max_depth_) are unbounded, as the
    program would need 2^31 cells to overflow them; what the program prints
    when verbose_ is set is not part of the embedding.

    Of the console interface (ui.cpp) the file holds the loader of the
    patterns, with the files of the machine as a function from paths to
    contents, and the summary of a result, as the pieces it writes to
    std::cout; its menu, which reads std::cin, is left out. *)

From Stdlib Require Import ZArith Ascii String List Lia Bool.
From Stdlib Require Import Sorting.Sorted Sorting.Permutation.
From stdpp Require Import base tactics option list gmap.

Open Scope Z_scope.

(** ** Outcomes *)

Inductive error : Type :=
| InvalidInput   (* std::invalid_argument thrown by initialize *)
| OutOfRange     (* std::out_of_range thrown by std::string::substr *)
| Undefined      (* null or dangling pointer, index outside an array *)
| Diverged.      (* a loop that did not finish within its fuel *)

Definition result (A : Type) : Type := (error + A)%type.

Definition rbind {A B : Type} (x : result A) (f : A -> result B) : result B :=
  match x with
  | inl e => inl e
  | inr a => f a
  end.

Notation "'let*' p ':=' c1 'in' c2" := (rbind c1 (fun p => c2))
  (at level 10, p pattern, c1 at level 100, c2 at level 200).

(** ** size_t arithmetic (64 bits, wrapping) *)

Definition SIZE_MOD : Z := 2 ^ 64.
Definition size_add (a b : Z) : Z := (a + b) mod SIZE_MOD.
Definition size_sub (a b : Z) : Z := (a - b) mod SIZE_MOD.

(** ** Alphabet *)

Definition ALPHABET_SIZE : Z := 28.

Definition code_of (c : ascii) : Z := Z.of_nat (nat_of_ascii c).
Definition char_of (n : Z) : ascii := ascii_of_nat (Z.to_nat n).

Definition is_upper (n : Z) : bool := (65 <=? n) && (n <=? 90).
Definition is_lower (n : Z) : bool := (97 <=? n) && (n <=? 122).

(* std::isalpha and std::tolower in the "C" locale (the program never
   calls setlocale). *)
Definition isalpha (n : Z) : bool := is_upper n || is_lower n.
Definition tolower (n : Z) : Z := if is_upper n then n + 32 else n.

Definition SPACE : Z := 32.
Definition HYPHEN : Z := 45.
Definition NEWLINE : Z := 10.
Definition TAB : Z := 9.

Definition char_to_index (c : ascii) : Z :=
  let n := code_of c in
  if n =? SPACE then 26
  else if n =? HYPHEN then 27
  else if is_lower n then n - 97
  else if is_upper n then tolower n - 97
  else -1.

(** ** Data model *)

Record TrieNode : Type := mkNode {
  children : list (option nat);     (* std::array of ALPHABET_SIZE owning pointers *)
  is_end_of_word : bool;
  failure_link : option nat;
  output_link : option nat;
  pattern_indices : list nat;
  depth : Z
}.

Definition new_TrieNode : TrieNode :=
  mkNode (replicate (Z.to_nat ALPHABET_SIZE) None) false None None [] 0.

Definition set_children (nd : TrieNode) (cs : list (option nat)) : TrieNode :=
  mkNode cs (is_end_of_word nd) (failure_link nd) (output_link nd)
         (pattern_indices nd) (depth nd).
Definition set_depth (nd : TrieNode) (d : Z) : TrieNode :=
  mkNode (children nd) (is_end_of_word nd) (failure_link nd) (output_link nd)
         (pattern_indices nd) d.
Definition set_failure_link (nd : TrieNode) (p : option nat) : TrieNode :=
  mkNode (children nd) (is_end_of_word nd) p (output_link nd)
         (pattern_indices nd) (depth nd).
Definition set_output_link (nd : TrieNode) (p : option nat) : TrieNode :=
  mkNode (children nd) (is_end_of_word nd) (failure_link nd) p
         (pattern_indices nd) (depth nd).
Definition mark_end (nd : TrieNode) (i : nat) : TrieNode :=
  mkNode (children nd) true (failure_link nd) (output_link nd)
         (pattern_indices nd ++ [i]) (depth nd).

Abbreviation heap := (list TrieNode).
Definition root : nat := 0%nat.

Record MatchResult : Type := mkMatch {
  line : Z;
  column : Z;
  pattern : list ascii;
  context : list ascii;
  pattern_id : nat
}.

Record PatternMatcher : Type := mkMatcher {
  cells : heap;                      (* the cells reachable from root_ *)
  patterns_ : list (list ascii);
  verbose_ : bool;
  case_sensitive_ : bool;
  node_count_ : Z;
  max_depth_ : Z
}.

(* PatternMatcher::PatternMatcher *)
Definition new_PatternMatcher (verbose case_sensitive : bool) : PatternMatcher :=
  mkMatcher [set_depth new_TrieNode 0] [] verbose case_sensitive 0 0.

Definition set_cells (m : PatternMatcher) (h : heap) : PatternMatcher :=
  mkMatcher h (patterns_ m) (verbose_ m) (case_sensitive_ m)
            (node_count_ m) (max_depth_ m).

(** ** Pointer and array access *)

Definition deref (h : heap) (p : nat) : result TrieNode :=
  match h !! p with
  | Some nd => inr nd
  | None => inl Undefined
  end.

(* nd.children[idx] *)
Definition child (nd : TrieNode) (idx : Z) : result (option nat) :=
  if (0 <=? idx) && (idx <? ALPHABET_SIZE) then
    match children nd !! Z.to_nat idx with
    | Some c => inr c
    | None => inl Undefined
    end
  else inl Undefined.

Definition update (h : heap) (p : nat) (f : TrieNode -> TrieNode) : heap :=
  match h !! p with
  | Some nd => <[p := f nd]> h
  | None => h
  end.

(** ** Text normalizer *)

(* PatternMatcher::clean_text *)
Fixpoint clean_text (case_sensitive : bool) (text : list ascii) : list ascii :=
  match text with
  | [] => []
  | c :: rest =>
      let n := code_of c in
      if isalpha n then
        (if case_sensitive then c else char_of (tolower n))
          :: clean_text case_sensitive rest
      else if (n =? SPACE) || (n =? HYPHEN) || (n =? NEWLINE) then
        c :: clean_text case_sensitive rest
      else if n =? TAB then
        char_of SPACE :: clean_text case_sensitive rest
      else clean_text case_sensitive rest
  end.

(* PatternMatcher::split_lines: std::getline until it extracts nothing at
   the end of the stream.  [cur] is the line being read, reversed. *)
Fixpoint split_lines_from (cur : list ascii) (text : list ascii)
  : list (list ascii) :=
  match text with
  | [] => match cur with
          | [] => []
          | _ => [rev cur]
          end
  | c :: rest =>
      if code_of c =? NEWLINE then rev cur :: split_lines_from [] rest
      else split_lines_from (c :: cur) rest
  end.

Definition split_lines (text : list ascii) : list (list ascii) :=
  split_lines_from [] text.

(** ** Trie builder *)

(* PatternMatcher::clear_trie *)
Definition clear_trie (m : PatternMatcher) : PatternMatcher :=
  mkMatcher [new_TrieNode] (patterns_ m) (verbose_ m) (case_sensitive_ m) 1 0.

(* One turn of the loop over the symbols of a pattern in build_trie:
   [node] is the cell the walk stands on. *)
Definition trie_step (m : PatternMatcher) (node : nat) (c : ascii)
  : result (PatternMatcher * nat) :=
  let idx := char_to_index c in
  let* nd := deref (cells m) node in
  let* ch := child nd idx in
  match ch with
  | Some k => inr (m, k)
  | None =>
      let k := length (cells m) in
      let fresh := set_depth new_TrieNode (depth nd + 1) in
      let nd' := set_children nd (<[Z.to_nat idx := Some k]> (children nd)) in
      inr (mkMatcher (<[node := nd']> (cells m) ++ [fresh])
                     (patterns_ m) (verbose_ m) (case_sensitive_ m)
                     (node_count_ m + 1)
                     (Z.max (max_depth_ m) (depth fresh)),
           k)
  end.

Fixpoint trie_walk (m : PatternMatcher) (node : nat) (pat : list ascii)
  : result (PatternMatcher * nat) :=
  match pat with
  | [] => inr (m, node)
  | c :: rest =>
      let* (m', node') := trie_step m node c in
      trie_walk m' node' rest
  end.

(* The body of the loop over the pattern ids in build_trie. *)
Definition trie_insert (m : PatternMatcher) (i : nat) (raw : list ascii)
  : result PatternMatcher :=
  match clean_text (case_sensitive_ m) raw with
  | [] => inr m
  | pat =>
      let* (m', node) := trie_walk m root pat in
      inr (set_cells m' (update (cells m') node (fun nd => mark_end nd i)))
  end.

(* The loop of build_trie from pattern id [i] on; [rest] is patterns_[i..]. *)
Fixpoint build_trie_from (m : PatternMatcher) (i : nat) (rest : list (list ascii))
  : result PatternMatcher :=
  match rest with
  | [] => inr m
  | raw :: rest' =>
      let* m' := trie_insert m i raw in
      build_trie_from m' (S i) rest'
  end.

(* PatternMatcher::build_trie *)
Definition build_trie (m : PatternMatcher) : result PatternMatcher :=
  build_trie_from m 0%nat (patterns_ m).

(** ** Failure and output links *)

(* while (p != root && !p->children[i]) p = p->failure_link;
   the loop shared by build_failure_links and search. *)
Fixpoint follow_failure (fuel : nat) (h : heap) (p : option nat) (i : Z)
  : result nat :=
  match fuel with
  | O => inl Diverged
  | S fuel' =>
      match p with
      | None => inl Undefined
      | Some a =>
          if Nat.eqb a root then inr a
          else
            let* nd := deref h a in
            let* ch := child nd i in
            match ch with
            | Some _ => inr a
            | None => follow_failure fuel' h (failure_link nd) i
            end
      end
  end.

(* The body of the loop over the codes in build_failure_links, for the
   node [current] taken from the queue and the code [i]. *)
Definition link_child (h : heap) (queue : list nat) (current : nat) (i : Z)
  : result (heap * list nat) :=
  let* cur := deref h current in
  let* ch := child cur i in
  match ch with
  | None => inr (h, queue)
  | Some c =>
      let queue' := queue ++ [c] in
      let* failure := follow_failure (length h) h (failure_link cur) i in
      let* fnode := deref h failure in
      let* fch := child fnode i in
      let target := match fch with Some g => g | None => root end in
      let* _ := deref h c in
      let h1 := update h c (fun nd => set_failure_link nd (Some target)) in
      let* tnode := deref h1 target in
      let out := match pattern_indices tnode with
                 | [] => output_link tnode
                 | _ => Some target
                 end in
      inr (update h1 c (fun nd => set_output_link nd out), queue')
  end.

Definition codes : list Z := map Z.of_nat (seq 0 (Z.to_nat ALPHABET_SIZE)).
Arguments codes : simpl never.

Fixpoint link_children (h : heap) (queue : list nat) (current : nat)
  (idxs : list Z) : result (heap * list nat) :=
  match idxs with
  | [] => inr (h, queue)
  | i :: idxs' =>
      let* (h', queue') := link_child h queue current i in
      link_children h' queue' current idxs'
  end.

(* The breadth-first loop: while (!node_queue.empty()) ... *)
Fixpoint link_loop (fuel : nat) (h : heap) (queue : list nat) : result heap :=
  match fuel with
  | O => inl Diverged
  | S fuel' =>
      match queue with
      | [] => inr h
      | current :: rest =>
          let* (h', queue') := link_children h rest current codes in
          link_loop fuel' h' queue'
      end
  end.

(* The first loop of build_failure_links, over the children of the root. *)
Fixpoint link_root_children (h : heap) (queue : list nat) (idxs : list Z)
  : result (heap * list nat) :=
  match idxs with
  | [] => inr (h, queue)
  | i :: idxs' =>
      let* r := deref h root in
      let* ch := child r i in
      match ch with
      | None => link_root_children h queue idxs'
      | Some c =>
          let* _ := deref h c in
          link_root_children
            (update h c (fun nd => set_failure_link nd (Some root)))
            (queue ++ [c]) idxs'
      end
  end.

(* PatternMatcher::build_failure_links *)
Definition build_failure_links (m : PatternMatcher) : result PatternMatcher :=
  let* _ := deref (cells m) root in
  let h0 := update (cells m) root (fun nd => set_failure_link nd (Some root)) in
  let* (h1, queue) := link_root_children h0 [] codes in
  let* h2 := link_loop (S (length h1)) h1 queue in
  inr (set_cells m h2).

(* PatternMatcher::initialize.  The exception is thrown before anything is
   assigned, so the matcher it leaves behind is the one it found; the second
   component is the matcher after the call. *)
Definition initialize (m : PatternMatcher) (patterns : list (list ascii))
  : result unit * PatternMatcher :=
  match patterns with
  | [] => (inl InvalidInput, m)
  | _ =>
      let m1 := mkMatcher (cells m) patterns (verbose_ m) (case_sensitive_ m)
                          (node_count_ m) (max_depth_ m) in
      let m2 := clear_trie m1 in
      match build_trie m2 with
      | inl e => (inl e, m2)
      | inr m3 =>
          match build_failure_links m3 with
          | inl e => (inl e, m3)
          | inr m4 => (inr tt, m4)
          end
      end
  end.

(** ** Scanner and match collector *)

(* std::string::substr(pos, count) *)
Definition substr (s : list ascii) (pos count : Z) : result (list ascii) :=
  let size := Z.of_nat (length s) in
  if pos >? size then inl OutOfRange
  else inr (take (Z.to_nat (Z.min count (size - pos))) (drop (Z.to_nat pos) s)).

(* context.erase(std::unique(..., both are spaces), context.end()):
   [prev] is the last symbol kept. *)
Fixpoint unique_from (prev : ascii) (s : list ascii) : list ascii :=
  match s with
  | [] => []
  | b :: rest =>
      if (code_of prev =? SPACE) && (code_of b =? SPACE) then unique_from prev rest
      else b :: unique_from b rest
  end.

Definition unique_spaces (s : list ascii) : list ascii :=
  match s with
  | [] => []
  | a :: rest => a :: unique_from a rest
  end.

Definition context_start (pos len size : Z) : Z :=
  if size_add pos 1 >? len then Z.min (size_sub pos len) size else 0.

Definition context_end (pos context_size size : Z) : Z :=
  Z.min (size_add pos context_size) size.

(* The body of the loop over temp->pattern_indices in collect_matches. *)
Definition emit_match (m : PatternMatcher) (matches : list MatchResult)
  (line column : Z) (line_text : list ascii) (pos context_size : Z)
  (pattern_idx : nat) : result (list MatchResult) :=
  match patterns_ m !! pattern_idx with
  | None => inl Undefined
  | Some pat =>
      let len := Z.of_nat (length pat) in
      let size := Z.of_nat (length line_text) in
      let start := context_start pos len size in
      let end_ := context_end pos context_size size in
      let* ctx := substr line_text start (size_sub end_ start) in
      inr (matches ++ [mkMatch line (size_add (size_sub column len) 1) pat
                               (unique_spaces ctx) pattern_idx])
  end.

Fixpoint emit_matches (m : PatternMatcher) (matches : list MatchResult)
  (line column : Z) (line_text : list ascii) (pos context_size : Z)
  (ids : list nat) : result (list MatchResult) :=
  match ids with
  | [] => inr matches
  | i :: ids' =>
      let* matches' := emit_match m matches line column line_text pos context_size i in
      emit_matches m matches' line column line_text pos context_size ids'
  end.

(* PatternMatcher::collect_matches: the walk along the output links. *)
Fixpoint collect_matches (fuel : nat) (m : PatternMatcher) (temp : option nat)
  (matches : list MatchResult) (line column : Z) (line_text : list ascii)
  (pos context_size : Z) : result (list MatchResult) :=
  match temp with
  | None => inr matches
  | Some t =>
      match fuel with
      | O => inl Diverged
      | S fuel' =>
          let* nd := deref (cells m) t in
          let* matches' := emit_matches m matches line column line_text pos
                                        context_size (pattern_indices nd) in
          collect_matches fuel' m (output_link nd) matches' line column
                          line_text pos context_size
      end
  end.

(* One turn of the loop over the columns of a line in search. *)
Definition scan_symbol (m : PatternMatcher) (context_size : Z) (line_num : nat)
  (line_text : list ascii) (col : nat) (c : ascii)
  (current : nat) (matches : list MatchResult)
  : result (nat * list MatchResult) :=
  let idx := char_to_index c in
  if idx =? -1 then inr (current, matches)
  else
    let* node := follow_failure (length (cells m)) (cells m) (Some current) idx in
    let* nd := deref (cells m) node in
    let* ch := child nd idx in
    let node' := match ch with Some k => k | None => node end in
    let* nd' := deref (cells m) node' in
    match pattern_indices nd' with
    | [] => inr (node', matches)
    | _ =>
        let* matches' :=
          collect_matches (length (cells m)) m (Some node') matches
            (size_add (Z.of_nat line_num) 1) (size_add (Z.of_nat col) 1)
            line_text (Z.of_nat col) context_size in
        inr (node', matches')
    end.

(* The loop over the columns from [col] on; [rest] is line[col..]. *)
Fixpoint scan_line (m : PatternMatcher) (context_size : Z) (line_num : nat)
  (line_text : list ascii) (col : nat) (rest : list ascii)
  (current : nat) (matches : list MatchResult) : result (list MatchResult) :=
  match rest with
  | [] => inr matches
  | c :: rest' =>
      let* (current', matches') :=
        scan_symbol m context_size line_num line_text col c current matches in
      scan_line m context_size line_num line_text (S col) rest' current' matches'
  end.

(* The loop over the lines from [line_num] on. *)
Fixpoint scan_lines (m : PatternMatcher) (context_size : Z) (line_num : nat)
  (lines : list (list ascii)) (matches : list MatchResult)
  : result (list MatchResult) :=
  match lines with
  | [] => inr matches
  | l :: lines' =>
      let* matches' := scan_line m context_size line_num l 0%nat l root matches in
      scan_lines m context_size (S line_num) lines' matches'
  end.

(* MatchResult::operator< : std::tie(line, column, pattern_id) compared
   lexicographically. *)
Definition match_lt (a b : MatchResult) : bool :=
  if line a <? line b then true
  else if line b <? line a then false
  else if column a <? column b then true
  else if column b <? column a then false
  else (pattern_id a <? pattern_id b)%nat.

(* std::sort(matches.begin(), matches.end()), as an insertion sort. *)
Fixpoint sort_insert (x : MatchResult) (l : list MatchResult) : list MatchResult :=
  match l with
  | [] => [x]
  | y :: l' => if match_lt y x then y :: sort_insert x l' else x :: l
  end.

Fixpoint sort_matches (l : list MatchResult) : list MatchResult :=
  match l with
  | [] => []
  | x :: l' => sort_insert x (sort_matches l')
  end.

(* The matches of search before they are sorted. *)
Definition scan (m : PatternMatcher) (text : list ascii) (context_size : Z)
  : result (list MatchResult) :=
  let cleaned_text := clean_text (case_sensitive_ m) text in
  let lines := split_lines cleaned_text in
  scan_lines m context_size 0%nat lines [].

(* PatternMatcher::search *)
Definition search (m : PatternMatcher) (text : list ascii) (context_size : Z)
  : result (list MatchResult) :=
  let* matches := scan m text context_size in
  inr (sort_matches matches).

(** ** Building a matcher from string literals *)

Definition str (s : string) : list ascii := list_ascii_of_string s.

Definition matcher_of (verbose case_sensitive : bool) (ps : list string)
  : result unit * PatternMatcher :=
  initialize (new_PatternMatcher verbose case_sensitive) (map str ps).

(** ** Reading the heap *)

(* The cell reached from cell [a] by the code [i], if any. *)
Definition kid (h : heap) (a i : nat) : option nat :=
  match h !! a with
  | Some nd => match children nd !! i with
               | Some (Some b) => Some b
               | _ => None
               end
  | None => None
  end.

Definition dep (h : heap) (a : nat) : Z :=
  match h !! a with Some nd => depth nd | None => 0 end.

Definition flink (h : heap) (a : nat) : option nat :=
  match h !! a with Some nd => failure_link nd | None => None end.

Definition olink (h : heap) (a : nat) : option nat :=
  match h !! a with Some nd => output_link nd | None => None end.

Definition pats (h : heap) (a : nat) : list nat :=
  match h !! a with Some nd => pattern_indices nd | None => [] end.

(** ** Invariants *)

(* The children pointers form a tree rooted at cell 0 in which a child is
   allocated after its parent and lies one level below it. *)
Record trie_wf (h : heap) : Prop := {
  wf_root : (0 < length h)%nat /\ dep h root = 0;
  wf_arity : Forall (fun nd => length (children nd) = Z.to_nat ALPHABET_SIZE) h;
  wf_kid : forall a i b, kid h a i = Some b ->
             (a < b < length h)%nat /\ dep h b = dep h a + 1;
  wf_inj : forall a a' i i' b, kid h a i = Some b -> kid h a' i' = Some b ->
             a = a' /\ i = i';
  wf_parent : forall b, (0 < b < length h)%nat -> exists a i, kid h a i = Some b
}.

(* No link has been set yet: the state build_trie leaves. *)
Definition unlinked (h : heap) : Prop :=
  Forall (fun nd => failure_link nd = None /\ output_link nd = None) h.

(* Every pattern id stored in the trie is below [n]. *)
Definition ids_below (n : nat) (h : heap) : Prop :=
  Forall (fun nd => Forall (fun i => (i < n)%nat) (pattern_indices nd)) h.

(* Patterns that the pattern sources of the program deliver: one pattern
   per line, so no pattern holds a line break. *)
Definition no_newline (p : list ascii) : Prop :=
  Forall (fun c => code_of c <> NEWLINE) p.

Definition well_formed (ps : list (list ascii)) : Prop := Forall no_newline ps.

(* The symbols build_trie can route: those with a code. *)
Definition idx_ok (c : ascii) : Prop := 0 <= char_to_index c < ALPHABET_SIZE.

Definition cleanable (case_sensitive : bool) (ps : list (list ascii)) : Prop :=
  Forall (fun raw => Forall idx_ok (clean_text case_sensitive raw)) ps.

(* What build_trie maintains while it has inserted the patterns below [n]. *)
Definition trie_ok (n : nat) (m : PatternMatcher) : Prop :=
  trie_wf (cells m) /\ unlinked (cells m) /\ ids_below n (cells m).

(* The fields a trie operation leaves alone. *)
Definition same_config (m m' : PatternMatcher) : Prop :=
  patterns_ m' = patterns_ m /\ verbose_ m' = verbose_ m /\
  case_sensitive_ m' = case_sensitive_ m.

(** ** The words of the trie *)

(* The cell reached from the cell [a] along the codes [w]. *)
Fixpoint walk_from (h : heap) (a : nat) (w : list nat) : option nat :=
  match w with
  | [] => Some a
  | i :: w' => match kid h a i with
               | Some b => walk_from h b w'
               | None => None
               end
  end.

(* The cell [a] stands for the word [w]: the codes from the root to it. *)
Definition spells (h : heap) (w : list nat) (a : nat) : Prop :=
  walk_from h root w = Some a.

(* The word of the cell [f] is a suffix of the word of the cell [b]. *)
Definition sfx (h : heap) (f b : nat) : Prop :=
  forall wb, spells h wb b -> exists wf, spells h wf f /\ wf `suffix_of` wb.

(* The codes along which a string is routed. *)
Definition code_nat (c : ascii) : nat := Z.to_nat (char_to_index c).
Definition word_of (s : list ascii) : list nat := map code_nat s.

(* Every pattern id stored at a cell belongs to a pattern whose normalized
   form is routed from the root to that cell. *)
Definition pats_inv (case_sensitive : bool) (ps : list (list ascii)) (h : heap)
  : Prop :=
  forall a i, i ∈ pats h a ->
    exists raw, ps !! i = Some raw /\ clean_text case_sensitive raw <> [] /\
                spells h (word_of (clean_text case_sensitive raw)) a.

(* Every edge of [h] is an edge of [h']. *)
Definition edges_kept (h h' : heap) : Prop :=
  forall a i b, kid h a i = Some b -> kid h' a i = Some b.

(* The scan stands on a cell whose word is a suffix of the codes of [s],
   the part of the line read so far. *)
Definition at_suffix (h : heap) (cur : nat) (s : list ascii) : Prop :=
  exists w, spells h w cur /\ w `suffix_of` word_of s.

(* The symbols a text normalized without case sensitivity is made of. *)
Definition lowerish (c : ascii) : Prop :=
  is_lower (code_of c) = true \/ code_of c = SPACE \/ code_of c = HYPHEN.

(* Every pattern id stored in the trie is below [n], read through [pats]. *)
Definition ids_ok (n : nat) (h : heap) : Prop :=
  forall a i, i ∈ pats h a -> (i < n)%nat.

(* The state build_failure_links leaves: the invariant of the automaton. *)
Record links_ok (h : heap) : Prop := {
  lk_wf : trie_wf h;
  lk_root : flink h root = Some root;
  lk_fl : forall b, (0 < b < length h)%nat ->
            exists f, flink h b = Some f /\ (f < length h)%nat /\ dep h f < dep h b;
  lk_ol : forall b o, olink h b = Some o ->
            (o < length h)%nat /\ pats h o <> [] /\ dep h o < dep h b;
  lk_fl_sfx : forall b f, flink h b = Some f -> sfx h f b;
  lk_ol_sfx : forall b o, olink h b = Some o -> sfx h o b
}.

(* The state of the breadth-first loop of build_failure_links while the
   node [cur] is being processed: [done] are the nodes processed before it,
   [k] is the number of codes of [cur] already handled, [Q] is the queue. *)
Record mid_inv (h : heap) (done : list nat) (cur k : nat) (Q : list nat) : Prop := {
  mi_wf : trie_wf h;
  mi_root : flink h root = Some root;
  mi_nodup : NoDup (done ++ cur :: Q);
  mi_valid : forall b, b ∈ done ++ cur :: Q -> (b < length h)%nat;
  mi_root_in : root ∈ done ++ [cur];
  mi_F : forall b, (b < length h)%nat ->
           (is_Some (flink h b) <-> b ∈ done ++ cur :: Q);
  mi_fl : forall b f, b <> root -> flink h b = Some f ->
            (f < length h)%nat /\ dep h f < dep h b;
  mi_ol : forall b o, olink h b = Some o ->
            (o < length h)%nat /\ pats h o <> [] /\ dep h o < dep h b;
  mi_done : forall b i c, b ∈ done -> kid h b i = Some c -> c ∈ done ++ cur :: Q;
  mi_cur : forall i c, (i < k)%nat -> kid h cur i = Some c -> c ∈ Q;
  mi_par : forall c, c ∈ done ++ cur :: Q -> c <> root ->
             exists p i, kid h p i = Some c /\ (p ∈ done \/ (p = cur /\ (i < k)%nat));
  mi_lvl : forall q, q ∈ Q -> dep h cur <= dep h q <= dep h cur + 1;
  mi_sorted : forall i j x y, Q !! i = Some x -> Q !! j = Some y -> (i <= j)%nat ->
                dep h x <= dep h y;
  mi_fl_sfx : forall b f, flink h b = Some f -> sfx h f b;
  mi_ol_sfx : forall b o, olink h b = Some o -> sfx h o b
}.

(* [h'] is [h] with the links of the cell [c] set to [t] and [out]. *)
Record relinked (h h' : heap) (c t : nat) (out : option nat) : Prop := {
  rl_length : length h' = length h;
  rl_wf : trie_wf h';
  rl_kid : forall a i, kid h' a i = kid h a i;
  rl_dep : forall a, dep h' a = dep h a;
  rl_pats : forall a, pats h' a = pats h a;
  rl_flink : forall b, flink h' b = if decide (b = c) then Some t else flink h b;
  rl_olink : forall b, olink h' b = if decide (b = c) then out else olink h b
}.

(* The cells that the loop of collect_matches stands on, in order:
   for (temp = node; temp != nullptr; temp = temp->output_link). *)
Fixpoint output_walk (fuel : nat) (h : heap) (temp : option nat)
  : result (list nat) :=
  match temp with
  | None => inr []
  | Some t =>
      match fuel with
      | O => inl Diverged
      | S fuel' =>
          let* nd := deref h t in
          let* rest := output_walk fuel' h (output_link nd) in
          inr (t :: rest)
      end
  end.

(* [r] is the record collect_matches builds for the pattern [id] when the
   scan of line [line_num] (counted from 0) stands on index [pos] (counted
   from 0) of [line_text]. *)
Definition record_at (m : PatternMatcher) (context_size : Z) (line_num : nat)
  (line_text : list ascii) (pos id : nat) (r : MatchResult) : Prop :=
  exists pat ctx,
    patterns_ m !! id = Some pat /\
    substr line_text
      (context_start (Z.of_nat pos) (Z.of_nat (length pat))
                     (Z.of_nat (length line_text)))
      (size_sub (context_end (Z.of_nat pos) context_size
                             (Z.of_nat (length line_text)))
                (context_start (Z.of_nat pos) (Z.of_nat (length pat))
                               (Z.of_nat (length line_text)))) = inr ctx /\
    r = mkMatch (size_add (Z.of_nat line_num) 1)
                (size_add (size_sub (size_add (Z.of_nat pos) 1)
                                    (Z.of_nat (length pat))) 1)
                pat (unique_spaces ctx) id.

(* The lines search scans. *)
Definition lines_of (m : PatternMatcher) (text : list ascii) : list (list ascii) :=
  split_lines (clean_text (case_sensitive_ m) text).

(* A computation that does not end in the error [e]. *)
Definition avoids {A} (e : error) (x : result A) : Prop := x <> inl e.

(* Functions that only append to the vector of matches they are given. *)
Definition radd (acc : list MatchResult) (x : result (list MatchResult))
  : result (list MatchResult) :=
  let* new := x in inr (acc ++ new).

Definition appends (F : list MatchResult -> result (list MatchResult)) : Prop :=
  forall acc, F acc = radd acc (F []).

Definition radd2 (acc : list MatchResult) (x : result (nat * list MatchResult))
  : result (nat * list MatchResult) :=
  let* r := x in inr (fst r, acc ++ snd r).

Definition appends2 (F : list MatchResult -> result (nat * list MatchResult)) : Prop :=
  forall acc, F acc = radd2 acc (F []).

(* The order of the keys (line, column, pattern_id). *)
Definition key_le (a b : MatchResult) : Prop :=
  line a < line b \/
  (line a = line b /\
   (column a < column b \/
    (column a = column b /\ (pattern_id a <= pattern_id b)%nat))).

Definition same_key (a b : MatchResult) : Prop :=
  line a = line b /\ column a = column b /\ pattern_id a = pattern_id b.

(* What std::sort promises, whatever algorithm it runs: the result holds
   the same records and no record is less than one before it. *)
Definition sorted_result (collected out : list MatchResult) : Prop :=
  Permutation collected out /\
  Sorted (fun a b => match_lt b a = false) out.

(* search with std::sort left unspecified. *)
Definition search_returns (m : PatternMatcher) (text : list ascii)
  (context_size : Z) (out : list MatchResult) : Prop :=
  exists collected, scan m text context_size = inr collected /\
                    sorted_result collected out.

(** ** Matchers used as examples *)

Definition ushers_matcher : PatternMatcher :=
  snd (matcher_of false false ["he"; "she"; "hers"]%string).

Definition rec (l c : Z) (p ctx : string) (id : nat) : MatchResult :=
  mkMatch l c (str p) (str ctx) id.

Definition ushers_matches : list MatchResult :=
  [rec 1 2 "she" "ushers" 1; rec 1 3 "he" "shers" 0; rec 1 3 "hers" "shers" 2].

Definition newline : ascii := char_of NEWLINE.

Definition cat_matcher : PatternMatcher :=
  snd (matcher_of false false ["cat"]%string).

Definition b_matcher : PatternMatcher :=
  snd (matcher_of false false ["b"]%string).

Definition a_matcher : PatternMatcher :=
  snd (matcher_of false false ["a"]%string).

Definition shers_matcher : PatternMatcher :=
  snd (matcher_of false false ["he"; "shers"]%string).

Definition He_insensitive : PatternMatcher :=
  snd (matcher_of false false ["He"]%string).

Definition He_sensitive : PatternMatcher :=
  snd (matcher_of false true ["He"]%string).

Definition h33e_matcher : PatternMatcher :=
  snd (matcher_of false false ["h33e"]%string).

(** ** The context of a match as the specification words it *)

(* The symbols of [s] at the indices from [start] up to, not including,
   [end_]. *)
Definition slice (s : list ascii) (start end_ : Z) : list ascii :=
  take (Z.to_nat (end_ - start)) (drop (Z.to_nat start) s).

(* start = col + 1 > pattern_length ? min(col - pattern_length, line_length) : 0 *)
Definition spec_context_start (col pattern_length line_length : Z) : Z :=
  if col + 1 >? pattern_length then Z.min (col - pattern_length) line_length
  else 0.

(* end = min(col + context_window, line_length) *)
Definition spec_context_end (col context_window line_length : Z) : Z :=
  Z.min (col + context_window) line_length.

Definition spec_context (line_text : list ascii) (col pattern_length context_window : Z)
  : list ascii :=
  let line_length := Z.of_nat (length line_text) in
  unique_spaces
    (slice line_text (spec_context_start col pattern_length line_length)
                     (spec_context_end col context_window line_length)).

(** * The definitions of the further properties *)

(** ** The longest suffixes *)

(* The failure link of a cell leads to the cell of the longest proper
   suffix of its word that the trie holds: every cell whose word is a
   proper suffix of the word of [b] spells a suffix of the word of the
   failure link of [b]. *)
Definition fl_longest (h : heap) : Prop :=
  forall b f u, flink h b = Some f -> sfx h u b -> u <> b -> sfx h u f.

(* The output link of a linked cell leads to the nearest cell with pattern
   ids among the proper suffixes of its word. *)
Definition ol_longest (h : heap) : Prop :=
  forall b u, is_Some (flink h b) -> sfx h u b -> u <> b -> pats h u <> [] ->
    exists o, olink h b = Some o /\ sfx h u o.

(* The scan stands on the cell of the longest suffix of the codes of [s]
   that the trie holds. *)
Definition at_longest (h : heap) (cur : nat) (s : list ascii) : Prop :=
  forall u w, spells h w u -> w `suffix_of` word_of s -> sfx h u cur.

(** ** The trie and the patterns *)

(* Every pattern below [n] whose normalized form is not empty has its id in
   the cell that the codes of that form lead to. *)
Definition stored_below (case_sensitive : bool) (ps : list (list ascii)) (n : nat)
  (h : heap) : Prop :=
  forall i raw, (i < n)%nat -> ps !! i = Some raw ->
    clean_text case_sensitive raw <> [] ->
    exists a, spells h (word_of (clean_text case_sensitive raw)) a /\ i ∈ pats h a.

(* Every cell but the root stands for a prefix of the normalized form of a
   pattern below [n]. *)
Definition no_junk (case_sensitive : bool) (ps : list (list ascii)) (n : nat)
  (h : heap) : Prop :=
  forall a w, spells h w a -> a <> root ->
    exists i raw, (i < n)%nat /\ ps !! i = Some raw /\
      w `prefix_of` word_of (clean_text case_sensitive raw).

(* The counters of the matcher count the cells and the levels of the trie. *)
Definition counted (m : PatternMatcher) : Prop :=
  node_count_ m = Z.of_nat (length (cells m)) /\
  (forall a, (a < length (cells m))%nat -> dep (cells m) a <= max_depth_ m) /\
  (exists a, (a < length (cells m))%nat /\ dep (cells m) a = max_depth_ m).

(* is_end_of_word is set on the cells that hold a pattern id, and only there. *)
Definition ends_marked (h : heap) : Prop :=
  Forall (fun nd => is_end_of_word nd = true <-> pattern_indices nd <> []) h.

(* The lengths of the normalized forms, added up. *)
Definition total_length (case_sensitive : bool) (ps : list (list ascii)) : Z :=
  foldr (fun raw n => Z.of_nat (length (clean_text case_sensitive raw)) + n) 0 ps.

(* [h'] is [h] but for the failure and output links of its cells. *)
Definition links_only (h h' : heap) : Prop :=
  length h' = length h /\
  forall a nd, h !! a = Some nd ->
    exists nd', h' !! a = Some nd' /\ children nd' = children nd /\
      is_end_of_word nd' = is_end_of_word nd /\
      pattern_indices nd' = pattern_indices nd /\ depth nd' = depth nd.

(* The automaton that initialize leaves. *)
Record built (m : PatternMatcher) : Prop := {
  bt_links : links_ok (cells m);
  bt_ids : ids_ok (length (patterns_ m)) (cells m);
  bt_pats : pats_inv (case_sensitive_ m) (patterns_ m) (cells m);
  bt_stored : stored_below (case_sensitive_ m) (patterns_ m)
                (length (patterns_ m)) (cells m);
  bt_junk : no_junk (case_sensitive_ m) (patterns_ m) (length (patterns_ m)) (cells m);
  bt_fl : fl_longest (cells m);
  bt_ol : ol_longest (cells m);
  bt_counted : counted m;
  bt_marked : ends_marked (cells m);
  bt_count : node_count_ m <= 1 + total_length (case_sensitive_ m) (patterns_ m)
}.

(* No cell holds a pattern id twice. *)
Definition ids_once (h : heap) : Prop :=
  Forall (fun nd => NoDup (pattern_indices nd)) h.

(** ** The transitions of the scan *)

(* The part of a turn of the scan that moves current_node: the loop over
   the failure links and the step to the child. *)
Definition next_state (m : PatternMatcher) (current : nat) (c : ascii) : result nat :=
  let idx := char_to_index c in
  if idx =? -1 then inr current
  else
    let* node := follow_failure (length (cells m)) (cells m) (Some current) idx in
    let* nd := deref (cells m) node in
    let* ch := child nd idx in
    inr (match ch with Some k => k | None => node end).

(* current_node after the symbols [s], from the state [current]. *)
Fixpoint run_states (m : PatternMatcher) (s : list ascii) (current : nat)
  : result nat :=
  match s with
  | [] => inr current
  | c :: s' => let* current' := next_state m current c in run_states m s' current'
  end.

(* Among the prefixes of the routed patterns that end where the codes [W]
   end, the longest is a whole pattern. *)
Definition ends_pattern (case_sensitive : bool) (ps : list (list ascii))
  (W : list nat) : Prop :=
  exists j rawj, ps !! j = Some rawj /\ clean_text case_sensitive rawj <> [] /\
    word_of (clean_text case_sensitive rawj) `suffix_of` W /\
    forall q rawq w, ps !! q = Some rawq ->
      w `prefix_of` word_of (clean_text case_sensitive rawq) ->
      w `suffix_of` W ->
      (length w <= length (clean_text case_sensitive rawj))%nat.

(** ** Records at the same place *)

(* Two records that differ in their context at most. *)
Definition same_place (a b : MatchResult) : Prop :=
  line a = line b /\ column a = column b /\ pattern a = pattern b /\
  pattern_id a = pattern_id b.

(* Two computations that fail alike or return related values. *)
Definition rrel {A B} (P : A -> B -> Prop) (x : result A) (y : result B) : Prop :=
  match x, y with
  | inr a, inr b => P a b
  | inl e, inl e' => e = e'
  | _, _ => False
  end.

(* No two spaces stand side by side in [s]. *)
Definition squeezed (s : list ascii) : Prop :=
  forall i a b, s !! i = Some a -> s !! S i = Some b ->
    ~ (code_of a = SPACE /\ code_of b = SPACE).

(** ** The pattern file of the console interface (ui.cpp) *)

(* A std::runtime_error with its message. *)
Inductive runtime_error : Type :=
| RuntimeError (what : list ascii).

(* The files of the machine as the program sees them: the bytes of the file
   at a path, or nothing when the stream does not open. *)
Definition files : Type := list ascii -> option (list ascii).

(* while (std::getline(file, line)) if (!line.empty()) patterns.push_back(line); *)
Fixpoint keep_patterns (lines : list (list ascii)) : list (list ascii) :=
  match lines with
  | [] => []
  | [] :: rest => keep_patterns rest
  | line :: rest => line :: keep_patterns rest
  end.

(* ui::load_patterns_from_file *)
Definition load_patterns_from_file (fs : files) (file_path : list ascii)
  : runtime_error + list (list ascii) :=
  match fs file_path with
  | None =>
      inl (RuntimeError (str "No se pudo abrir el archivo de patrones: " ++ file_path))
  | Some content =>
      match keep_patterns (split_lines content) with
      | [] => inl (RuntimeError
                (str "El archivo de patrones está vacío o no contiene patrones válidos"))
      | patterns => inr patterns
      end
  end.

(** ** The summary of the console interface (ui.cpp) *)

(* What is inserted into an output stream, piece by piece. *)
Inductive item : Type :=
| OutText (s : string)          (* a string literal *)
| OutString (s : list ascii)    (* a std::string *)
| OutNumber (n : Z)             (* a size_t *)
| OutSetw (n : Z)               (* std::setw(n) *)
| OutLeft                       (* std::left *)
| OutNewline.                   (* the line break of a string literal *)

(* std::unordered_map<PatternID, size_t> pattern_counts;
   for (const auto& r : results) pattern_counts[r.pattern_id]++; *)
Definition count_patterns (results : list MatchResult) : gmap nat Z :=
  foldl (fun counts r =>
           <[pattern_id r := size_add (default 0 (counts !! pattern_id r)) 1]> counts)
        ∅ results.

(* The body of the loop over pattern_counts in generate_summary;
   patterns[kv.first] is not checked against the size of the vector. *)
Definition summary_row (patterns : list (list ascii)) (kv : nat * Z)
  : result (list item) :=
  match patterns !! kv.1 with
  | None => inl Undefined
  | Some p =>
      inr [OutText " - "; OutSetw 30; OutLeft; OutString p; OutText ": ";
           OutNumber kv.2; OutText " coincidencias"; OutNewline]
  end.

Fixpoint summary_rows (patterns : list (list ascii)) (kvs : list (nat * Z))
  : result (list item) :=
  match kvs with
  | [] => inr []
  | kv :: kvs' =>
      let* row := summary_row patterns kv in
      let* rows := summary_rows patterns kvs' in
      inr (row ++ rows)
  end.

(* ui::generate_summary, as what it writes to std::cout.  The order in
   which an unordered_map hands out its entries is not specified: it is the
   argument [iteration]. *)
Definition generate_summary (iteration : gmap nat Z -> list (nat * Z))
  (results : list MatchResult) (patterns : list (list ascii))
  : result (list item) :=
  match results with
  | [] => inr [OutText "No se encontraron coincidencias para generar resumen.";
               OutNewline]
  | front :: _ =>
      let pattern_counts := count_patterns results in
      let* rows := summary_rows patterns (iteration pattern_counts) in
      let min_line := line front in
      let max_line := line (default front (last results)) in
      inr ([OutNewline; OutText "=== RESUMEN ESTADÍSTICO ==="; OutNewline;
            OutText "Total de coincidencias: ";
            OutNumber (Z.of_nat (length results)); OutNewline;
            OutText "Coincidencias por patrón:"; OutNewline]
           ++ rows ++
           [OutNewline; OutText "Distribución desde línea "; OutNumber min_line;
            OutText " hasta "; OutNumber max_line; OutNewline])
  end.

(* An order in which the entries of a map may be handed out. *)
Definition enumerates (iteration : gmap nat Z -> list (nat * Z)) : Prop :=
  forall counts, iteration counts ≡ₚ map_to_list counts.

(** * Properties *)

(** ** The result monad *)

Lemma rbind_inr {A B} (x : result A) (f : A -> result B) b :
  rbind x f = inr b <-> exists a, x = inr a /\ f a = inr b.
Proof.
  destruct x as [e|a]; simpl; split.
  - discriminate.
  - intros (a & Ha & _). discriminate.
  - eauto.
  - intros (a' & Ha & Hf). congruence.
Qed.

Lemma deref_inr h a nd : deref h a = inr nd <-> h !! a = Some nd.
Proof. unfold deref. destruct (h !! a); split; congruence. Qed.

Lemma deref_lt h a : (a < length h)%nat -> exists nd, deref h a = inr nd /\ h !! a = Some nd.
Proof.
  intros Hlt. destruct (lookup_lt_is_Some_2 h a Hlt) as [nd Hnd].
  exists nd. split; [by apply deref_inr | done].
Qed.

Lemma child_inr nd i ch :
  child nd i = inr ch <->
  0 <= i < ALPHABET_SIZE /\ children nd !! Z.to_nat i = Some ch.
Proof.
  unfold child.
  destruct (0 <=? i) eqn:H0; destruct (i <? ALPHABET_SIZE) eqn:H1; simpl;
    try (split; [discriminate | intros [? _]; lia]).
  destruct (children nd !! Z.to_nat i) as [c|]; split.
  - intros [= <-]. split; [lia | done].
  - intros [_ [= <-]]. done.
  - discriminate.
  - intros [_ ?]. discriminate.
Qed.

(** ** Reading a heap that was just extended or updated *)

Lemma children_fresh d :
  children (set_depth new_TrieNode d) = replicate (Z.to_nat ALPHABET_SIZE) None.
Proof. reflexivity. Qed.

Section alloc.
Variables (h : heap) (node : nat) (nd : TrieNode) (j : nat).
Hypothesis Hnode : h !! node = Some nd.
Hypothesis Hfree : children nd !! j = Some None.

Let k : nat := length h.
Let fresh : TrieNode := set_depth new_TrieNode (depth nd + 1).
Let nd' : TrieNode := set_children nd (<[j := Some k]> (children nd)).
Let h' : heap := <[node := nd']> h ++ [fresh].

Lemma alloc_length : length h' = S (length h).
Proof. subst h'. rewrite length_app, length_insert. simpl. lia. Qed.

Lemma alloc_node_lt : (node < length h)%nat.
Proof. by eapply lookup_lt_Some. Qed.

Lemma alloc_lookup_node : h' !! node = Some nd'.
Proof.
  subst h'. rewrite lookup_app_l by (rewrite length_insert; apply alloc_node_lt).
  apply list_lookup_insert_eq, alloc_node_lt.
Qed.

Lemma alloc_lookup_old a : a <> node -> (a < length h)%nat -> h' !! a = h !! a.
Proof.
  intros Hne Hlt. subst h'.
  rewrite lookup_app_l by (by rewrite length_insert).
  by apply list_lookup_insert_ne.
Qed.

Lemma alloc_lookup_fresh : h' !! k = Some fresh.
Proof.
  subst h' k. rewrite lookup_app_r by (by rewrite length_insert).
  rewrite length_insert, Nat.sub_diag. done.
Qed.

Lemma alloc_lookup_out a : (length h < a)%nat -> h' !! a = None.
Proof. intros Hlt. apply lookup_ge_None. rewrite alloc_length. lia. Qed.

Lemma alloc_kid a i :
  kid h' a i = if decide (a = node /\ i = j) then Some k else kid h a i.
Proof.
  unfold kid. destruct (decide (a = node)) as [->|Hne].
  - rewrite alloc_lookup_node, Hnode. subst nd'. simpl.
    destruct (decide (i = j)) as [->|Hij].
    + rewrite decide_True by done.
      rewrite list_lookup_insert_eq; [done | by eapply lookup_lt_Some].
    + rewrite decide_False by (intros [_ ?]; done).
      by rewrite list_lookup_insert_ne.
  - rewrite decide_False by (intros [? _]; done).
    destruct (lt_eq_lt_dec a (length h)) as [[Hlt|Heq]|Hgt].
    + by rewrite alloc_lookup_old.
    + subst a. fold k. rewrite alloc_lookup_fresh.
      rewrite (lookup_ge_None_2 h k) by (subst k; lia).
      subst fresh. rewrite children_fresh.
      destruct (replicate (Z.to_nat ALPHABET_SIZE) None !! i) as [[b|]|] eqn:Hi;
        try done.
      apply lookup_replicate in Hi as [? _]. done.
    + rewrite alloc_lookup_out by done.
      by rewrite (lookup_ge_None_2 h a) by lia.
Qed.

Lemma alloc_dep a :
  dep h' a = if decide (a = k) then depth nd + 1 else dep h a.
Proof.
  unfold dep. destruct (decide (a = k)) as [->|Hne].
  - by rewrite alloc_lookup_fresh.
  - destruct (decide (a = node)) as [->|Hne'].
    + by rewrite alloc_lookup_node, Hnode.
    + destruct (lt_eq_lt_dec a (length h)) as [[Hlt|Heq]|Hgt].
      * by rewrite alloc_lookup_old.
      * done.
      * rewrite alloc_lookup_out by done.
        by rewrite (lookup_ge_None_2 h a) by lia.
Qed.

Lemma kid_free : kid h node j = None.
Proof. unfold kid. by rewrite Hnode, Hfree. Qed.

Lemma alloc_wf : trie_wf h -> trie_wf h'.
Proof.
  intros [[Hlen Hroot] Har Hkid Hinj Hpar].
  pose proof alloc_node_lt as Hnl.
  assert (Hdn : dep h node = depth nd) by (unfold dep; by rewrite Hnode).
  split.
  - split; [rewrite alloc_length; lia|].
    rewrite alloc_dep. rewrite decide_False; [done | subst k; unfold root; lia].
  - subst h'. apply Forall_app. split.
    + apply Forall_insert; [done|]. subst nd'. simpl.
      rewrite length_insert. by eapply (Forall_lookup_1 _ _ _ _ Har).
    + apply Forall_singleton. subst fresh.
      by rewrite children_fresh, length_replicate.
  - intros a i b. rewrite alloc_kid, alloc_length, !alloc_dep.
    case_decide as Hc.
    + destruct Hc as [-> ->]. intros [= <-].
      rewrite decide_True by done. rewrite decide_False by (subst k; lia).
      split; [subst k; lia | lia].
    + intros Hk. destruct (Hkid _ _ _ Hk) as [Hlt Hd].
      rewrite !decide_False by (subst k; lia). split; [lia | done].
  - intros a a' i i' b. rewrite !alloc_kid.
    destruct (decide (a = node /\ i = j)) as [[-> ->]|H1];
      destruct (decide (a' = node /\ i' = j)) as [[-> ->]|H2]; intros E1 E2.
    + done.
    + injection E1 as <-. apply Hkid in E2. subst k. lia.
    + injection E2 as <-. apply Hkid in E1. subst k. lia.
    + eauto.
  - intros b. rewrite alloc_length. intros Hb.
    destruct (decide (b = k)) as [->|Hne].
    + exists node, j. rewrite alloc_kid. by rewrite decide_True.
    + destruct (Hpar b) as (a & i & Hk); [subst k; lia|].
      exists a, i. rewrite alloc_kid. rewrite decide_False; [done|].
      intros [-> ->]. rewrite kid_free in Hk. done.
Qed.

Lemma alloc_unlinked : unlinked h -> unlinked h'.
Proof.
  intros Hu. subst h'. apply Forall_app. split.
  - apply Forall_insert; [done|]. subst nd'. simpl.
    by eapply (Forall_lookup_1 _ _ _ _ Hu).
  - apply Forall_singleton. done.
Qed.

Lemma alloc_ids n : ids_below n h -> ids_below n h'.
Proof.
  intros Hu. subst h'. apply Forall_app. split.
  - apply Forall_insert; [done|]. subst nd'. simpl.
    by eapply (Forall_lookup_1 _ _ _ _ Hu).
  - apply Forall_singleton. simpl. constructor.
Qed.
Lemma alloc_pats a : pats h' a = pats h a.
Proof.
  unfold pats. destruct (decide (a = node)) as [->|Hne].
  - by rewrite alloc_lookup_node, Hnode.
  - destruct (lt_eq_lt_dec a (length h)) as [[Hlt|Heq]|Hgt].
    + by rewrite alloc_lookup_old.
    + subst a. fold k. rewrite alloc_lookup_fresh.
      by rewrite (lookup_ge_None_2 h k) by (subst k; lia).
    + rewrite alloc_lookup_out by done.
      by rewrite (lookup_ge_None_2 h a) by lia.
Qed.

Lemma alloc_edges : edges_kept h h'.
Proof.
  intros a i b Hk. rewrite alloc_kid. case_decide as Hc; [|done].
  destruct Hc as [-> ->]. by rewrite kid_free in Hk.
Qed.
End alloc.

Lemma update_length h p f : length (update h p f) = length h.
Proof. unfold update. destruct (h !! p); [apply length_insert | done]. Qed.

Lemma update_lookup h p f a :
  update h p f !! a = if decide (a = p) then f <$> h !! a else h !! a.
Proof.
  unfold update. destruct (h !! p) as [nd|] eqn:Hp.
  - case_decide as Ha.
    + subst a. rewrite Hp. simpl.
      apply list_lookup_insert_eq. by eapply lookup_lt_Some.
    + by apply list_lookup_insert_ne.
  - case_decide as Ha; [subst a; by rewrite Hp | done].
Qed.

Section update_links.
Variables (h : heap) (p : nat) (f : TrieNode -> TrieNode).
Hypothesis Hch : forall nd, children (f nd) = children nd.
Hypothesis Hdp : forall nd, depth (f nd) = depth nd.

Lemma update_kid a i : kid (update h p f) a i = kid h a i.
Proof.
  unfold kid. rewrite update_lookup. case_decide; [|done].
  destruct (h !! a); simpl; [by rewrite Hch | done].
Qed.

Lemma update_dep a : dep (update h p f) a = dep h a.
Proof.
  unfold dep. rewrite update_lookup. case_decide; [|done].
  destruct (h !! a); simpl; [by rewrite Hdp | done].
Qed.

Lemma update_arity :
  Forall (fun nd => length (children nd) = Z.to_nat ALPHABET_SIZE) h ->
  Forall (fun nd => length (children nd) = Z.to_nat ALPHABET_SIZE) (update h p f).
Proof.
  intros Har. unfold update. destruct (h !! p) as [nd|] eqn:Hp; [|done].
  apply Forall_insert; [done|]. rewrite Hch.
  by eapply (Forall_lookup_1 _ _ _ _ Har).
Qed.

Lemma update_wf : trie_wf h -> trie_wf (update h p f).
Proof.
  intros [Hroot Har Hkid Hinj Hpar]. split.
  - by rewrite update_length, update_dep.
  - by apply update_arity.
  - intros a i b. rewrite update_kid, update_length, !update_dep. apply Hkid.
  - intros a a' i i' b. rewrite !update_kid. apply Hinj.
  - intros b. rewrite update_length. intros Hb.
    destruct (Hpar b Hb) as (a & i & Hk). exists a, i. by rewrite update_kid.
Qed.
End update_links.

Lemma update_pats_other h p f a :
  (forall nd, pattern_indices (f nd) = pattern_indices nd) ->
  pats (update h p f) a = pats h a.
Proof.
  intros Hf. unfold pats. rewrite update_lookup. case_decide; [|done].
  destruct (h !! a); simpl; [by rewrite Hf | done].
Qed.

(** ** The trie builder keeps the tree well formed *)

Lemma trie_wf_lookup_arity h a nd :
  trie_wf h -> h !! a = Some nd -> length (children nd) = Z.to_nat ALPHABET_SIZE.
Proof. intros Hwf Ha. by eapply (Forall_lookup_1 _ _ _ _ (wf_arity h Hwf)). Qed.

Lemma child_total h a nd i :
  trie_wf h -> h !! a = Some nd -> 0 <= i < ALPHABET_SIZE ->
  exists ch, child nd i = inr ch /\ children nd !! Z.to_nat i = Some ch.
Proof.
  intros Hwf Ha Hi.
  destruct (lookup_lt_is_Some_2 (children nd) (Z.to_nat i)) as [ch Hch].
  { rewrite (trie_wf_lookup_arity h a nd Hwf Ha). unfold ALPHABET_SIZE in *. lia. }
  exists ch. split; [|done]. by apply child_inr.
Qed.

Lemma kid_of_child h a nd i b :
  h !! a = Some nd -> children nd !! i = Some (Some b) -> kid h a i = Some b.
Proof. intros Ha Hb. unfold kid. by rewrite Ha, Hb. Qed.

Lemma trie_step_idx m node c r : trie_step m node c = inr r -> idx_ok c.
Proof.
  unfold trie_step. intros H.
  apply rbind_inr in H as (nd & _ & H).
  apply rbind_inr in H as (ch & Hch & _).
  apply child_inr in Hch as [Hi _]. done.
Qed.

Lemma trie_step_ok n m node c :
  trie_ok n m -> (node < length (cells m))%nat -> idx_ok c ->
  exists m' node', trie_step m node c = inr (m', node') /\
    trie_ok n m' /\ (node' < length (cells m'))%nat /\ same_config m m'.
Proof.
  intros (Hwf & Hun & Hids) Hlt Hi. unfold trie_step.
  destruct (deref_lt _ _ Hlt) as (nd & -> & Hnd). simpl.
  destruct (child_total _ _ _ _ Hwf Hnd Hi) as (ch & -> & Hch). simpl.
  destruct ch as [k|].
  - exists m, k. split; [done|]. split; [done|]. split; [|done].
    pose proof (kid_of_child _ _ _ _ _ Hnd Hch) as Hk.
    apply (wf_kid _ Hwf) in Hk. lia.
  - eexists _, _. split; [done|]. simpl. split; [|split; [|done]].
    + split; [|split].
      * by apply alloc_wf.
      * by apply alloc_unlinked.
      * by apply alloc_ids.
    + rewrite (alloc_length (cells m)). lia.
Qed.

Lemma trie_walk_idx m node pat r :
  trie_walk m node pat = inr r -> Forall idx_ok pat.
Proof.
  revert m node. induction pat as [|c rest IH]; intros m node H; [constructor|].
  simpl in H. apply rbind_inr in H as ([m1 n1] & Hs & Hw).
  constructor; [by eapply trie_step_idx | by eapply IH].
Qed.

Lemma trie_walk_ok n m node pat :
  trie_ok n m -> (node < length (cells m))%nat -> Forall idx_ok pat ->
  exists m' node', trie_walk m node pat = inr (m', node') /\
    trie_ok n m' /\ (node' < length (cells m'))%nat /\ same_config m m'.
Proof.
  revert m node. induction pat as [|c rest IH]; intros m node Hok Hlt Hp.
  - exists m, node. done.
  - inversion Hp as [|? ? Hc Hrest]; subst.
    destruct (trie_step_ok n m node c Hok Hlt Hc)
      as (m1 & n1 & Hs & Hok1 & Hlt1 & Hc1).
    destruct (IH m1 n1 Hok1 Hlt1 Hrest) as (m2 & n2 & Hw & Hok2 & Hlt2 & Hc2).
    exists m2, n2. simpl. rewrite Hs. simpl. split; [done|].
    split; [done|]. split; [done|].
    destruct Hc1 as (? & ? & ?), Hc2 as (? & ? & ?). repeat split; congruence.
Qed.

Lemma update_Forall (P : TrieNode -> Prop) h p f :
  (forall nd, P nd -> P (f nd)) -> Forall P h -> Forall P (update h p f).
Proof.
  intros Hf HP. unfold update. destruct (h !! p) as [nd|] eqn:Hp; [|done].
  apply Forall_insert; [done|]. apply Hf.
  by eapply (Forall_lookup_1 _ _ _ _ HP).
Qed.

Lemma ids_below_mono n n' h : (n <= n')%nat -> ids_below n h -> ids_below n' h.
Proof.
  intros Hle H. unfold ids_below. eapply Forall_impl; [exact H|].
  intros nd Hnd. simpl in Hnd. eapply Forall_impl; [exact Hnd|].
  intros i Hi. simpl in Hi. lia.
Qed.

Lemma same_config_refl m : same_config m m.
Proof. done. Qed.

Lemma same_config_trans m1 m2 m3 :
  same_config m1 m2 -> same_config m2 m3 -> same_config m1 m3.
Proof. intros (? & ? & ?) (? & ? & ?). repeat split; congruence. Qed.

Lemma trie_insert_idx m i raw m' :
  trie_insert m i raw = inr m' -> Forall idx_ok (clean_text (case_sensitive_ m) raw).
Proof.
  unfold trie_insert. destruct (clean_text (case_sensitive_ m) raw) as [|c pat] eqn:Hc.
  - constructor.
  - intros H. apply rbind_inr in H as ([m1 n1] & Hw & _). by eapply trie_walk_idx.
Qed.

Lemma trie_insert_ok m i raw :
  trie_ok i m -> Forall idx_ok (clean_text (case_sensitive_ m) raw) ->
  exists m', trie_insert m i raw = inr m' /\ trie_ok (S i) m' /\ same_config m m'.
Proof.
  intros (Hwf & Hun & Hids) Hp. unfold trie_insert.
  destruct (clean_text (case_sensitive_ m) raw) as [|c pat] eqn:Hc.
  - exists m. split; [done|]. split; [|done].
    split; [done|]. split; [done|]. eapply ids_below_mono; [|done]. lia.
  - assert (Hroot : (root < length (cells m))%nat) by apply (wf_root _ Hwf).
    destruct (trie_walk_ok i m root (c :: pat)) as (m1 & n1 & -> & Hok1 & Hlt1 & Hc1);
      [done..|].
    destruct Hok1 as (Hwf1 & Hun1 & Hids1). simpl.
    eexists. split; [done|]. split; [|done].
    split; [|split]; simpl.
    + by apply update_wf.
    + apply update_Forall; [|done]. by intros nd [? ?].
    + apply update_Forall.
      * intros nd Hnd. simpl. apply Forall_app. split; [done|].
        apply Forall_singleton. lia.
      * eapply ids_below_mono; [|done]. lia.
Qed.

Lemma build_trie_from_ok m i rest :
  trie_ok i m -> cleanable (case_sensitive_ m) rest ->
  exists m', build_trie_from m i rest = inr m' /\
    trie_ok (i + length rest) m' /\ same_config m m'.
Proof.
  revert m i. induction rest as [|raw rest IH]; intros m i Hok Hcl.
  - exists m. split; [done|]. split; [|done]. by rewrite Nat.add_0_r.
  - inversion Hcl as [|? ? Hraw Hrest]; subst.
    destruct (trie_insert_ok m i raw Hok Hraw) as (m1 & Hi & Hok1 & Hc1).
    destruct (IH m1 (S i) Hok1) as (m2 & Hb & Hok2 & Hc2).
    { destruct Hc1 as (_ & _ & ->). done. }
    exists m2. simpl. rewrite Hi. simpl. split; [done|].
    split; [|by eapply same_config_trans].
    by replace (i + S (length rest))%nat with (S i + length rest)%nat by lia.
Qed.

Lemma build_trie_from_idx m i rest m' :
  trie_ok i m -> build_trie_from m i rest = inr m' ->
  cleanable (case_sensitive_ m) rest.
Proof.
  revert m i. induction rest as [|raw rest IH]; intros m i Hok H; [constructor|].
  simpl in H. apply rbind_inr in H as (m1 & Hi & Hb).
  pose proof (trie_insert_idx _ _ _ _ Hi) as Hraw.
  destruct (trie_insert_ok m i raw Hok Hraw) as (m1' & Hi' & Hok1 & Hc1).
  assert (m1' = m1) by congruence. subst m1'.
  constructor; [done|].
  destruct Hc1 as (_ & _ & <-). by eapply IH.
Qed.

Lemma kid_single nd a i :
  children nd = replicate (Z.to_nat ALPHABET_SIZE) None -> kid [nd] a i = None.
Proof.
  intros Hch. unfold kid. destruct a as [|a]; simpl; [|done].
  rewrite Hch. destruct (replicate _ _ !! i) as [[b|]|] eqn:Hi; try done.
  apply lookup_replicate in Hi as [? _]. done.
Qed.

(* The heap clear_trie leaves. *)
Lemma trie_ok_clear m : trie_ok 0 (clear_trie m).
Proof.
  unfold trie_ok, clear_trie. simpl. split; [|split].
  - split.
    + simpl. split; [lia | done].
    + apply Forall_singleton. done.
    + intros a i b. by rewrite kid_single.
    + intros a a' i i' b. by rewrite kid_single.
    + simpl. intros b. lia.
  - by apply Forall_singleton.
  - apply Forall_singleton. constructor.
Qed.

(** ** Words and suffixes *)

Lemma walk_from_app h w1 : forall a w2,
  walk_from h a (w1 ++ w2)
  = match walk_from h a w1 with Some b => walk_from h b w2 | None => None end.
Proof.
  induction w1 as [|i w1 IH]; intros a w2; simpl; [done|].
  destruct (kid h a i); [apply IH | done].
Qed.

Lemma walk_from_snoc h a w i c :
  walk_from h a (w ++ [i]) = Some c <->
  exists p, walk_from h a w = Some p /\ kid h p i = Some c.
Proof.
  rewrite walk_from_app. destruct (walk_from h a w) as [p|]; simpl.
  - destruct (kid h p i) as [b|] eqn:Hk; split.
    + intros [= <-]. eauto.
    + intros (p' & [= <-] & Hk'). congruence.
    + done.
    + intros (p' & [= <-] & Hk'). congruence.
  - split; [done|]. intros (p & Hp & _). done.
Qed.

Lemma walk_from_ext h h' :
  (forall a i, kid h' a i = kid h a i) ->
  forall w a, walk_from h' a w = walk_from h a w.
Proof.
  intros Hk. induction w as [|i w IH]; intros a; simpl; [done|].
  rewrite Hk. destruct (kid h a i); [apply IH | done].
Qed.

Lemma spells_snoc_inv h w c p i :
  trie_wf h -> spells h w c -> kid h p i = Some c ->
  exists wp, w = wp ++ [i] /\ spells h wp p.
Proof.
  intros Hwf Hw Hk. destruct (wf_kid _ Hwf _ _ _ Hk) as [Hpc _].
  destruct w as [|j w0 _] using rev_ind.
  - injection Hw as <-. unfold root in Hpc. lia.
  - apply walk_from_snoc in Hw as (p0 & Hp0 & Hk0).
    destruct (wf_inj _ Hwf _ _ _ _ _ Hk0 Hk) as [-> ->]. eauto.
Qed.

Lemma spells_exists h : trie_wf h ->
  forall a, (a < length h)%nat -> exists w, spells h w a.
Proof.
  intros Hwf a. induction (lt_wf a) as [a _ IH]. intros Hlt.
  destruct (decide (a = root)) as [->|Hne]; [by exists []|].
  destruct (wf_parent _ Hwf a) as (p & i & Hk); [unfold root in Hne; lia|].
  destruct (wf_kid _ Hwf _ _ _ Hk) as [Hpa _].
  destruct (IH p) as [w Hw]; [lia..|].
  exists (w ++ [i]). apply walk_from_snoc. eauto.
Qed.

Lemma sfx_refl h a : sfx h a a.
Proof. intros w Hw. exists w. done. Qed.

Lemma sfx_trans h a b c : sfx h a b -> sfx h b c -> sfx h a c.
Proof.
  intros Hab Hbc wc Hc. destruct (Hbc wc Hc) as (wb & Hb & Hs1).
  destruct (Hab wb Hb) as (wa & Ha & Hs2). exists wa. split; [done|].
  by etrans.
Qed.

Lemma sfx_root h b : sfx h root b.
Proof. intros w Hw. exists []. split; [done | apply suffix_nil]. Qed.

Lemma sfx_step h g p i t c :
  trie_wf h -> sfx h g p -> kid h g i = Some t -> kid h p i = Some c ->
  sfx h t c.
Proof.
  intros Hwf Hgp Ht Hc wc Hwc.
  destruct (spells_snoc_inv _ _ _ _ _ Hwf Hwc Hc) as (wp & -> & Hwp).
  destruct (Hgp wp Hwp) as (wg & Hwg & Hs).
  exists (wg ++ [i]). split; [|by apply suffix_app].
  apply walk_from_snoc. eauto.
Qed.

Lemma sfx_ext h h' f b :
  (forall a i, kid h' a i = kid h a i) -> sfx h f b -> sfx h' f b.
Proof.
  intros Hk Hs wb Hwb. unfold spells in *.
  rewrite (walk_from_ext h h' Hk) in Hwb.
  destruct (Hs wb Hwb) as (wf & Hwf & Hsf). exists wf.
  by rewrite (walk_from_ext h h' Hk).
Qed.

(** ** The trie builder routes every pattern to the cell that holds its id *)

Lemma edges_kept_refl h : edges_kept h h.
Proof. by intros a i b. Qed.

Lemma edges_kept_trans h1 h2 h3 :
  edges_kept h1 h2 -> edges_kept h2 h3 -> edges_kept h1 h3.
Proof. intros H12 H23 a i b Hk. by apply H23, H12. Qed.

Lemma walk_from_kept h h' : edges_kept h h' ->
  forall w a b, walk_from h a w = Some b -> walk_from h' a w = Some b.
Proof.
  intros Hk. induction w as [|i w IH]; intros a b; simpl; [done|].
  destruct (kid h a i) as [c|] eqn:Hc; [|done].
  rewrite (Hk _ _ _ Hc). apply IH.
Qed.

Lemma trie_step_edges n m node c m' node' :
  trie_ok n m -> trie_step m node c = inr (m', node') ->
  kid (cells m') node (code_nat c) = Some node' /\
  edges_kept (cells m) (cells m') /\
  (forall a, pats (cells m') a = pats (cells m) a).
Proof.
  intros (Hwf & _ & _). unfold trie_step. intros H.
  apply rbind_inr in H as (nd & Hnd & H). apply deref_inr in Hnd.
  apply rbind_inr in H as (ch & Hch & H). apply child_inr in Hch as [Hi Hch].
  destruct ch as [k|].
  - injection H as <- <-. split; [|split; [apply edges_kept_refl | done]].
    by apply (kid_of_child _ _ nd).
  - injection H as <- <-. simpl. split; [|split].
    + rewrite (alloc_kid (cells m) node nd (Z.to_nat (char_to_index c))) by done.
      by rewrite decide_True.
    + by apply alloc_edges.
    + intros a. by apply alloc_pats.
Qed.

Lemma trie_walk_edges n pat : forall m node m' node',
  trie_ok n m -> (node < length (cells m))%nat ->
  trie_walk m node pat = inr (m', node') ->
  walk_from (cells m') node (word_of pat) = Some node' /\
  edges_kept (cells m) (cells m') /\
  (forall a, pats (cells m') a = pats (cells m) a).
Proof.
  induction pat as [|c pat IH]; intros m node m' node' Hok Hlt H; simpl in H.
  - injection H as <- <-. split; [done|]. split; [apply edges_kept_refl | done].
  - apply rbind_inr in H as ([m1 n1] & Hs & Hw).
    destruct (trie_step_ok n m node c Hok Hlt (trie_step_idx _ _ _ _ Hs))
      as (m1' & n1' & Hs' & Hok1 & Hlt1 & _).
    assert (m1' = m1 /\ n1' = n1) as [-> ->] by (split; congruence).
    destruct (trie_step_edges _ _ _ _ _ _ Hok Hs) as (Hk1 & He1 & Hp1).
    destruct (IH _ _ _ _ Hok1 Hlt1 Hw) as (Hk2 & He2 & Hp2).
    split; [|split].
    + simpl. by rewrite (He2 _ _ _ Hk1).
    + by eapply edges_kept_trans.
    + intros a. by rewrite Hp2.
Qed.

Lemma pats_inv_kept cs ps h h' :
  edges_kept h h' -> (forall a, pats h' a = pats h a) ->
  pats_inv cs ps h -> pats_inv cs ps h'.
Proof.
  intros He Hp HI a i. rewrite Hp. intros Hi.
  destruct (HI a i Hi) as (raw & Hraw & Hne & Hsp).
  exists raw. split; [done|]. split; [done|]. by apply (walk_from_kept h h' He).
Qed.

Lemma update_pats_mark h p i a : (p < length h)%nat ->
  pats (update h p (fun nd => mark_end nd i)) a
  = if decide (a = p) then pats h a ++ [i] else pats h a.
Proof.
  intros Hp. unfold pats. rewrite update_lookup. case_decide; [|done].
  subst a. destruct (lookup_lt_is_Some_2 h p Hp) as [nd ->]. done.
Qed.

Lemma trie_insert_pats m i raw m' :
  trie_ok i m -> patterns_ m !! i = Some raw ->
  pats_inv (case_sensitive_ m) (patterns_ m) (cells m) ->
  trie_insert m i raw = inr m' ->
  pats_inv (case_sensitive_ m) (patterns_ m) (cells m').
Proof.
  intros Hok Hraw HI. unfold trie_insert.
  destruct (clean_text (case_sensitive_ m) raw) as [|c pat] eqn:Hc.
  { by intros [= <-]. }
  intros H. apply rbind_inr in H as ([m1 n1] & Hw & [= <-]).
  assert (Hroot : (root < length (cells m))%nat) by apply (wf_root _ (proj1 Hok)).
  destruct (trie_walk_ok i m root (c :: pat) Hok Hroot (trie_walk_idx _ _ _ _ Hw))
    as (m1' & n1' & Hw' & Hok1 & Hlt1 & _).
  assert (m1' = m1 /\ n1' = n1) as [-> ->] by (split; congruence).
  destruct (trie_walk_edges _ _ _ _ _ _ Hok Hroot Hw) as (Hsp & He & Hp).
  pose proof (pats_inv_kept _ _ _ _ He Hp HI) as HI1.
  intros a j. simpl. rewrite update_pats_mark by done. intros Hj.
  assert (Hcase : j ∈ pats (cells m1) a \/ (a = n1 /\ j = i)).
  { case_decide as Ha; [|by left]. apply elem_of_app in Hj as [Hj|Hj]; [by left|].
    apply list_elem_of_singleton in Hj. by right. }
  assert (Hext : forall w b, spells (cells m1) w b ->
    spells (update (cells m1) n1 (fun nd => mark_end nd i)) w b).
  { intros w b. unfold spells.
    rewrite (walk_from_ext (cells m1) (update (cells m1) n1 (fun nd => mark_end nd i)));
      [done|].
    intros a' i'. by apply update_kid. }
  destruct Hcase as [Hj'|[-> ->]].
  - destruct (HI1 a j Hj') as (raw' & ? & ? & ?). exists raw'. auto.
  - exists raw. split; [done|]. rewrite Hc. split; [done|]. by apply Hext.
Qed.

Lemma build_trie_from_pats rest : forall m i m',
  trie_ok i m ->
  (forall j raw, rest !! j = Some raw -> patterns_ m !! (i + j)%nat = Some raw) ->
  pats_inv (case_sensitive_ m) (patterns_ m) (cells m) ->
  build_trie_from m i rest = inr m' ->
  pats_inv (case_sensitive_ m) (patterns_ m) (cells m').
Proof.
  induction rest as [|raw rest IH]; intros m i m' Hok Hps HI H; simpl in H.
  - by injection H as <-.
  - apply rbind_inr in H as (m1 & Hi & Hb).
    destruct (trie_insert_ok m i raw Hok (trie_insert_idx _ _ _ _ Hi))
      as (m1' & Hi' & Hok1 & Hp1 & Hv1 & Hc1).
    assert (m1' = m1) by congruence. subst m1'.
    assert (Hraw : patterns_ m !! i = Some raw).
    { rewrite <- (Nat.add_0_r i). by apply Hps. }
    pose proof (trie_insert_pats _ _ _ _ Hok Hraw HI Hi) as HI1.
    rewrite <- Hp1, <- Hc1 in HI1 |- *.
    apply (IH m1 (S i)); [done | | done | done].
    intros j raw' Hj. rewrite Hp1.
    replace (S i + j)%nat with (i + S j)%nat by lia. by apply Hps.
Qed.

(** ** Depths in a well-formed trie *)

Lemma dep_out h a : (length h <= a)%nat -> dep h a = 0.
Proof. intros Hge. unfold dep. by rewrite lookup_ge_None_2. Qed.

Lemma dep_bounds h : trie_wf h ->
  forall a, (a < length h)%nat ->
    0 <= dep h a <= Z.of_nat a /\ (a <> root -> 0 < dep h a).
Proof.
  intros Hwf a. induction (lt_wf a) as [a _ IH]. intros Hlt.
  destruct (decide (a = root)) as [->|Hne].
  - destruct (wf_root _ Hwf) as [_ ->]. unfold root. split; [lia | done].
  - destruct (wf_parent _ Hwf a) as (p & i & Hk); [unfold root in Hne; lia|].
    destruct (wf_kid _ Hwf _ _ _ Hk) as [Hpa Hd].
    destruct (IH p) as [Hp _]; [lia..|]. split; [lia | lia].
Qed.

Lemma dep_nonneg h a : trie_wf h -> 0 <= dep h a.
Proof.
  intros Hwf. destruct (decide (a < length h)%nat) as [Hlt|Hge].
  - by apply dep_bounds.
  - rewrite dep_out by lia. done.
Qed.

Lemma dep_lt_length h a : trie_wf h -> (a < length h)%nat -> dep h a < Z.of_nat (length h).
Proof. intros Hwf Hlt. destruct (dep_bounds h Hwf a Hlt) as [? _]. lia. Qed.

Lemma kid_children h a nd i :
  h !! a = Some nd ->
  kid h a i = match children nd !! i with Some (Some b) => Some b | _ => None end.
Proof. intros Ha. unfold kid. by rewrite Ha. Qed.

Lemma kid_valid h a i b : trie_wf h -> kid h a i = Some b ->
  (a < length h)%nat /\ (b < length h)%nat /\ (i < Z.to_nat ALPHABET_SIZE)%nat.
Proof.
  intros Hwf Hk. destruct (wf_kid _ Hwf _ _ _ Hk) as [Hab _].
  split; [lia|]. split; [lia|].
  unfold kid in Hk. destruct (h !! a) as [nd|] eqn:Ha; [|done].
  rewrite <- (trie_wf_lookup_arity h a nd Hwf Ha).
  destruct (children nd !! i) eqn:Hi; [|done]. by eapply lookup_lt_Some.
Qed.

(** ** Following failure links *)

Lemma follow_failure_ok h i D :
  trie_wf h -> 0 <= i < ALPHABET_SIZE ->
  (forall b, (b < length h)%nat -> b <> root -> dep h b <= D ->
     exists f, flink h b = Some f /\ (f < length h)%nat /\ dep h f < dep h b /\
               sfx h f b) ->
  forall fuel a, (a < length h)%nat -> dep h a <= D -> dep h a < Z.of_nat fuel ->
    exists g, follow_failure fuel h (Some a) i = inr g /\
      (g < length h)%nat /\ dep h g <= dep h a /\ sfx h g a.
Proof.
  intros Hwf Hi HP. induction fuel as [|fuel IH]; intros a Hlt HD Hfuel.
  - pose proof (dep_nonneg h a Hwf). lia.
  - simpl. destruct (Nat.eqb a root) eqn:Hr.
    + exists a. split; [done|]. split; [done|]. split; [lia | apply sfx_refl].
    + apply Nat.eqb_neq in Hr.
      destruct (deref_lt _ _ Hlt) as (nd & -> & Hnd). simpl.
      destruct (child_total _ _ _ _ Hwf Hnd Hi) as (ch & -> & Hch). simpl.
      destruct ch as [b|].
      * exists a. split; [done|]. split; [done|]. split; [lia | apply sfx_refl].
      * destruct (HP a Hlt Hr HD) as (f & Hf & Hfl & Hfd & Hfs).
        assert (failure_link nd = Some f) as ->.
        { unfold flink in Hf. by rewrite Hnd in Hf. }
        destruct (IH f Hfl) as (g & Hg & Hgl & Hgd & Hgs); [lia..|].
        exists g. split; [done|]. split; [done|]. split; [lia|].
        by eapply sfx_trans.
Qed.

(** ** Setting the links of one cell *)

Lemma update_flink_set h c v b : (c < length h)%nat ->
  flink (update h c (fun nd => set_failure_link nd v)) b
  = if decide (b = c) then v else flink h b.
Proof.
  intros Hc. unfold flink. rewrite update_lookup. case_decide; [|done].
  subst b. destruct (lookup_lt_is_Some_2 h c Hc) as [nd ->]. done.
Qed.

Lemma update_flink_keep h c v b :
  flink (update h c (fun nd => set_output_link nd v)) b = flink h b.
Proof.
  unfold flink. rewrite update_lookup. case_decide; [|done].
  by destruct (h !! b).
Qed.

Lemma update_olink_set h c v b : (c < length h)%nat ->
  olink (update h c (fun nd => set_output_link nd v)) b
  = if decide (b = c) then v else olink h b.
Proof.
  intros Hc. unfold olink. rewrite update_lookup. case_decide; [|done].
  subst b. destruct (lookup_lt_is_Some_2 h c Hc) as [nd ->]. done.
Qed.

Lemma update_olink_keep h c v b :
  olink (update h c (fun nd => set_failure_link nd v)) b = olink h b.
Proof.
  unfold olink. rewrite update_lookup. case_decide; [|done].
  by destruct (h !! b).
Qed.

Lemma relinked_failure h c t : trie_wf h -> (c < length h)%nat ->
  relinked h (update h c (fun nd => set_failure_link nd (Some t))) c t (olink h c).
Proof.
  intros Hwf Hc. split.
  - apply update_length.
  - apply update_wf; done.
  - intros a i. by apply update_kid.
  - intros a. by apply update_dep.
  - intros a. by apply update_pats_other.
  - intros b. by apply update_flink_set.
  - intros b. rewrite update_olink_keep. case_decide; by subst.
Qed.

Lemma relinked_both h c t out : trie_wf h -> (c < length h)%nat ->
  relinked h (update (update h c (fun nd => set_failure_link nd (Some t))) c
                     (fun nd => set_output_link nd out)) c t out.
Proof.
  intros Hwf Hc. split.
  - by rewrite !update_length.
  - apply update_wf; [done..|]. apply update_wf; done.
  - intros a i. by rewrite !update_kid.
  - intros a. by rewrite !update_dep.
  - intros a. by rewrite !update_pats_other.
  - intros b. rewrite update_flink_keep. by apply update_flink_set.
  - intros b. rewrite update_olink_set by (by rewrite update_length).
    case_decide; [done|]. apply update_olink_keep.
Qed.

(** ** The breadth-first loop keeps its invariant *)

Lemma below_done h done cur k Q :
  mid_inv h done cur k Q ->
  forall b, (b < length h)%nat -> dep h b < dep h cur -> b ∈ done.
Proof.
  intros HI b. induction (lt_wf b) as [b _ IH]. intros Hlt Hd.
  destruct (decide (b = root)) as [->|Hne].
  - pose proof (mi_root_in _ _ _ _ _ HI) as Hr.
    apply elem_of_app in Hr as [Hr|Hr]; [done|].
    apply list_elem_of_singleton in Hr. rewrite <- Hr in Hd. lia.
  - destruct (wf_parent _ (mi_wf _ _ _ _ _ HI) b) as (p & i & Hk);
      [unfold root in Hne; lia|].
    destruct (wf_kid _ (mi_wf _ _ _ _ _ HI) _ _ _ Hk) as [Hpb Hdp].
    assert (Hp : p ∈ done) by (apply IH; lia).
    pose proof (mi_done _ _ _ _ _ HI _ _ _ Hp Hk) as Hb.
    apply elem_of_app in Hb as [Hb|Hb]; [done|].
    apply elem_of_cons in Hb as [->|Hb]; [lia|].
    pose proof (mi_lvl _ _ _ _ _ HI _ Hb). lia.
Qed.

Lemma mid_skip h done cur k Q :
  mid_inv h done cur k Q -> kid h cur k = None -> mid_inv h done cur (S k) Q.
Proof.
  intros [] Hk. split; try done.
  - intros i c Hi Hc. destruct (decide (i = k)) as [->|Hne]; [congruence|].
    apply (mi_cur0 i); [lia | done].
  - intros c Hc Hne. destruct (mi_par0 c Hc Hne) as (p & i & Hp & [Hd|[-> Hi]]).
    + exists p, i. auto.
    + exists cur, i. split; [done|]. right. split; [done | lia].
Qed.

Lemma mid_fresh h done cur k Q c :
  mid_inv h done cur k Q -> kid h cur k = Some c -> c ∉ done ++ cur :: Q.
Proof.
  intros HI Hk Hin.
  destruct (wf_kid _ (mi_wf _ _ _ _ _ HI) _ _ _ Hk) as [Hcc _].
  destruct (mi_par _ _ _ _ _ HI c Hin) as (p & i & Hp & Hcase);
    [unfold root; lia|].
  destruct (wf_inj _ (mi_wf _ _ _ _ _ HI) _ _ _ _ _ Hp Hk) as [-> ->].
  destruct Hcase as [Hd|[_ Hi]]; [|lia].
  pose proof (mi_nodup _ _ _ _ _ HI) as Hnd.
  apply NoDup_app in Hnd as (_ & Hdisj & _).
  apply (Hdisj cur Hd). apply elem_of_cons. by left.
Qed.

Lemma mid_enqueue h h' done cur k Q c t out :
  mid_inv h done cur k Q -> kid h cur k = Some c -> relinked h h' c t out ->
  (t < length h)%nat -> dep h t < dep h c ->
  (forall o, out = Some o ->
     (o < length h)%nat /\ pats h o <> [] /\ dep h o < dep h c) ->
  sfx h t c -> (forall o, out = Some o -> sfx h o c) ->
  mid_inv h' done cur (S k) (Q ++ [c]).
Proof.
  intros HI Hk [Hlen Hwf' Hkid Hdep Hpats Hfl Hol] Ht Htd Hout Hts Hos.
  pose proof (mid_fresh _ _ _ _ _ _ HI Hk) as Hfresh.
  destruct HI as [Hwf Hroot Hnd Hval Hrin HF Hfld Hold Hdone Hcur Hpar Hlvl Hsort
                  Hfs Hols].
  destruct (wf_kid _ Hwf _ _ _ Hk) as [Hcc Hcd].
  assert (Hcr : c <> root) by (unfold root; lia).
  assert (Hmem : forall b, b ∈ done ++ cur :: Q ++ [c] <->
                           b ∈ done ++ cur :: Q \/ b = c).
  { intros b. rewrite !elem_of_app, !elem_of_cons, elem_of_app,
      list_elem_of_singleton. tauto. }
  split.
  - done.
  - rewrite Hfl. by rewrite decide_False.
  - replace (done ++ cur :: Q ++ [c]) with ((done ++ cur :: Q) ++ [c])
      by (by rewrite <- app_assoc).
    apply NoDup_app. split; [done|]. split; [|apply NoDup_singleton].
    intros x Hx Hxc. apply list_elem_of_singleton in Hxc. by subst.
  - intros b Hb. rewrite Hlen. apply Hmem in Hb as [Hb| ->]; [auto | lia].
  - done.
  - intros b. rewrite Hlen, Hfl, Hmem. intros Hb. case_decide as Hbc.
    + split; [auto | by eauto].
    + rewrite HF by done. tauto.
  - intros b f Hb. rewrite Hlen, Hfl, !Hdep. case_decide as Hbc.
    + intros [= <-]. by subst b.
    + by apply Hfld.
  - intros b o. rewrite Hlen, Hol, Hpats, !Hdep. case_decide as Hbc.
    + subst b. apply Hout.
    + apply Hold.
  - intros b i c' Hb. rewrite Hkid, Hmem. intros Hc'. left. by eapply Hdone.
  - intros i c'. rewrite Hkid. intros Hi Hc'. apply elem_of_app.
    destruct (decide (i = k)) as [->|Hne].
    + right. apply list_elem_of_singleton. congruence.
    + left. apply (Hcur i); [lia | done].
  - intros c' Hc' Hne. apply Hmem in Hc' as [Hc'| ->].
    + destruct (Hpar c' Hc' Hne) as (p & i & Hp & [Hd|[-> Hi]]).
      * exists p, i. rewrite Hkid. auto.
      * exists cur, i. rewrite Hkid. split; [done|]. right. split; [done | lia].
    + exists cur, k. rewrite Hkid. split; [done|]. right. split; [done | lia].
  - intros q Hq. rewrite !Hdep. apply elem_of_app in Hq as [Hq|Hq]; [auto|].
    apply list_elem_of_singleton in Hq. subst q. lia.
  - intros i j x y Hi Hj Hij. rewrite !Hdep.
    destruct (decide (j < length Q)%nat) as [Hjl|Hjl].
    + rewrite lookup_app_l in Hi by lia. rewrite lookup_app_l in Hj by lia.
      by eapply Hsort.
    + rewrite lookup_app_r in Hj by lia.
      apply list_lookup_singleton_Some in Hj as [_ <-].
      assert (Hx : x ∈ Q ++ [c]) by (apply list_elem_of_lookup; eauto).
      apply elem_of_app in Hx as [Hx|Hx].
      * pose proof (Hlvl x Hx). lia.
      * apply list_elem_of_singleton in Hx. subst x. lia.
  - intros b f. rewrite Hfl. intros Hb. apply (sfx_ext h h' _ _ Hkid).
    case_decide as Hbc; [|by apply Hfs].
    injection Hb as <-. by subst b.
  - intros b o. rewrite Hol. intros Hb. apply (sfx_ext h h' _ _ Hkid).
    case_decide as Hbc; [|by apply Hols].
    subst b. by apply Hos.
Qed.

Lemma mid_cur_valid h done cur k Q :
  mid_inv h done cur k Q -> (cur < length h)%nat /\ cur ∈ done ++ cur :: Q.
Proof.
  intros HI.
  assert (Hin : cur ∈ done ++ cur :: Q).
  { apply elem_of_app. right. apply elem_of_cons. by left. }
  split; [|done]. by apply (mi_valid _ _ _ _ _ HI).
Qed.

Lemma mid_failure h done cur k Q b :
  mid_inv h done cur k Q -> b ∈ done ++ cur :: Q -> b <> root ->
  exists f, flink h b = Some f /\ (f < length h)%nat /\ dep h f < dep h b /\
            sfx h f b.
Proof.
  intros HI Hb Hbr.
  assert (Hs : is_Some (flink h b)).
  { apply (mi_F _ _ _ _ _ HI); [|done]. by apply (mi_valid _ _ _ _ _ HI). }
  destruct Hs as [f Hf]. exists f. split; [done|].
  destruct (mi_fl _ _ _ _ _ HI b f Hbr Hf) as [? ?].
  split; [done|]. split; [done|]. by apply (mi_fl_sfx _ _ _ _ _ HI).
Qed.

Lemma link_child_ok h done cur k Q :
  mid_inv h done cur k Q -> cur <> root -> (k < Z.to_nat ALPHABET_SIZE)%nat ->
  exists h' Q', link_child h Q cur (Z.of_nat k) = inr (h', Q') /\
    mid_inv h' done cur (S k) Q' /\
    length h' = length h /\ (forall a, pats h' a = pats h a) /\
    (forall a i, kid h' a i = kid h a i).
Proof.
  intros HI Hcr Hk.
  pose proof (mi_wf _ _ _ _ _ HI) as Hwf.
  destruct (mid_cur_valid _ _ _ _ _ HI) as [Hcl Hcin].
  assert (Hki : 0 <= Z.of_nat k < ALPHABET_SIZE) by (unfold ALPHABET_SIZE in *; lia).
  unfold link_child.
  destruct (deref_lt _ _ Hcl) as (nd & -> & Hnd). simpl.
  destruct (child_total _ _ _ _ Hwf Hnd Hki) as (ch & -> & Hch). simpl.
  rewrite Nat2Z.id in Hch. destruct ch as [c|].
  - pose proof (kid_of_child _ _ _ _ _ Hnd Hch) as Hkc.
    destruct (wf_kid _ Hwf _ _ _ Hkc) as [Hcc Hcd].
    destruct (mid_failure _ _ _ _ _ cur HI Hcin Hcr) as (f0 & Hf0 & Hf0l & Hf0d & Hf0s).
    assert (failure_link nd = Some f0) as ->.
    { unfold flink in Hf0. by rewrite Hnd in Hf0. }
    destruct (follow_failure_ok h (Z.of_nat k) (dep h cur - 1) Hwf Hki)
      with (fuel := length h) (a := f0) as (g & -> & Hgl & Hgd & Hgs).
    { intros b Hb Hbr HbD.
      apply (mid_failure _ _ _ _ _ b HI); [|done].
      apply elem_of_app. left. eapply below_done; [done | done | lia]. }
    { done. }
    { lia. }
    { by apply dep_lt_length. }
    simpl.
    destruct (deref_lt _ _ Hgl) as (fnode & -> & Hfnode). simpl.
    destruct (child_total _ _ _ _ Hwf Hfnode Hki) as (fch & -> & Hfch). simpl.
    rewrite Nat2Z.id in Hfch.
    set (t := match fch with Some g' => g' | None => root end).
    assert (Ht : (t < length h)%nat /\ dep h t < dep h c /\ sfx h t c).
    { subst t. destruct fch as [g'|].
      - pose proof (kid_of_child _ _ _ _ _ Hfnode Hfch) as Hkg.
        destruct (wf_kid _ Hwf _ _ _ Hkg) as [Hgg Hgd'].
        split; [lia|]. split; [lia|].
        apply (sfx_step h g cur k g' c Hwf); [|done|done].
        by eapply sfx_trans.
      - destruct (wf_root _ Hwf) as [Hl Hr]. rewrite Hr.
        pose proof (dep_nonneg h cur Hwf).
        split; [done|]. split; [lia | apply sfx_root]. }
    destruct Ht as (Htl & Htd & Hts).
    assert (Hcl' : (c < length h)%nat) by lia.
    destruct (deref_lt _ _ Hcl') as (cn & -> & _). simpl.
    set (h1 := update h c (fun nd0 => set_failure_link nd0 (Some t))).
    assert (Htl1 : (t < length h1)%nat) by (subst h1; by rewrite update_length).
    destruct (deref_lt _ _ Htl1) as (tnode & -> & Htn). simpl.
    assert (Hpt : pats h t = pattern_indices tnode).
    { rewrite <- (update_pats_other h c (fun nd0 => set_failure_link nd0 (Some t)))
        by done. fold h1. unfold pats. by rewrite Htn. }
    assert (Hot : olink h t = output_link tnode).
    { rewrite <- (update_olink_keep h c (Some t)). fold h1.
      unfold olink. by rewrite Htn. }
    eexists _, _. split; [reflexivity|].
    pose proof (relinked_both h c t
      (match pattern_indices tnode with [] => output_link tnode | _ => Some t end)
      Hwf Hcl') as Hrl.
    fold h1 in Hrl. split; [|split; [|split]].
    + eapply mid_enqueue; [exact HI | exact Hkc | exact Hrl | done | done | | done |].
      * intros o Ho. destruct (pattern_indices tnode) as [|x xs] eqn:Hpi.
        -- rewrite <- Hot in Ho.
           destruct (mi_ol _ _ _ _ _ HI _ _ Ho) as (? & ? & ?).
           split; [done|]. split; [done | lia].
        -- injection Ho as <-. split; [done|]. split; [by rewrite Hpt | done].
      * intros o Ho. destruct (pattern_indices tnode) as [|x xs] eqn:Hpi.
        -- rewrite <- Hot in Ho. eapply sfx_trans; [|exact Hts].
           by apply (mi_ol_sfx _ _ _ _ _ HI).
        -- by injection Ho as <-.
    + apply (rl_length _ _ _ _ _ Hrl).
    + apply (rl_pats _ _ _ _ _ Hrl).
    + apply (rl_kid _ _ _ _ _ Hrl).
  - exists h, Q. split; [done|]. split; [|done].
    apply mid_skip; [done|]. rewrite (kid_children _ _ _ _ Hnd). by rewrite Hch.
Qed.

Lemma link_children_ok (h : heap) done cur n :
  forall k h0 Q0, (k + n = Z.to_nat ALPHABET_SIZE)%nat ->
  mid_inv h0 done cur k Q0 -> cur <> root ->
  length h0 = length h -> (forall a, pats h0 a = pats h a) ->
  (forall a i, kid h0 a i = kid h a i) ->
  exists h' Q',
    link_children h0 Q0 cur (map Z.of_nat (seq k n)) = inr (h', Q') /\
    mid_inv h' done cur (Z.to_nat ALPHABET_SIZE) Q' /\
    length h' = length h /\ (forall a, pats h' a = pats h a) /\
    (forall a i, kid h' a i = kid h a i).
Proof.
  induction n as [|n IH]; intros k h0 Q0 Hkn HI Hcr Hlen Hpats Hkids.
  - exists h0, Q0. simpl. split; [done|]. split; [|done].
    replace (Z.to_nat ALPHABET_SIZE) with k by lia. done.
  - destruct (link_child_ok h0 done cur k Q0 HI Hcr)
      as (h1 & Q1 & Hs & HI1 & Hl1 & Hp1 & Hk1); [lia|].
    destruct (IH (S k) h1 Q1) as (h2 & Q2 & Hs2 & HI2 & Hl2 & Hp2 & Hk2);
      [lia | done | done | congruence | intros a; by rewrite Hp1
      | intros a i; by rewrite Hk1 |].
    exists h2, Q2. simpl. rewrite Hs. simpl. done.
Qed.

Lemma unlinked_links h b : unlinked h -> flink h b = None /\ olink h b = None.
Proof.
  intros Hu. unfold flink, olink. destruct (h !! b) as [nd|] eqn:Hb; [|done].
  by eapply (Forall_lookup_1 _ _ _ _ Hu).
Qed.

Lemma mid_init h :
  trie_wf h -> unlinked h ->
  mid_inv (update h root (fun nd => set_failure_link nd (Some root))) [] root 0 [].
Proof.
  intros Hwf Hun. destruct (wf_root _ Hwf) as [Hlen Hr].
  assert (Hfl : forall b,
    flink (update h root (fun nd => set_failure_link nd (Some root))) b
    = if decide (b = root) then Some root else None).
  { intros b. rewrite update_flink_set by done. case_decide; [done|].
    apply unlinked_links, Hun. }
  assert (Hol : forall b,
    olink (update h root (fun nd => set_failure_link nd (Some root))) b = None).
  { intros b. rewrite update_olink_keep. apply unlinked_links, Hun. }
  split; simpl.
  - by apply update_wf.
  - rewrite Hfl. by rewrite decide_True.
  - apply NoDup_singleton.
  - intros b Hb. apply list_elem_of_singleton in Hb. subst b.
    by rewrite update_length.
  - by apply list_elem_of_singleton.
  - intros b _. rewrite Hfl, list_elem_of_singleton. case_decide; split; done.
  - intros b f Hb. rewrite Hfl. by rewrite decide_False.
  - intros b o. by rewrite Hol.
  - intros b i c Hb. by apply elem_of_nil in Hb.
  - intros i c Hi. lia.
  - intros c Hc Hne. by apply list_elem_of_singleton in Hc.
  - intros q Hq. by apply elem_of_nil in Hq.
  - intros i j x y Hi. done.
  - intros b f. rewrite Hfl. case_decide as Hb; [|done].
    intros [= <-]. subst b. apply sfx_refl.
  - intros b o. by rewrite Hol.
Qed.

Lemma link_root_children_ok (h : heap) n :
  forall k h0 Q0, (k + n = Z.to_nat ALPHABET_SIZE)%nat ->
  mid_inv h0 [] root k Q0 ->
  length h0 = length h -> (forall a, pats h0 a = pats h a) ->
  (forall a i, kid h0 a i = kid h a i) ->
  exists h' Q',
    link_root_children h0 Q0 (map Z.of_nat (seq k n)) = inr (h', Q') /\
    mid_inv h' [] root (Z.to_nat ALPHABET_SIZE) Q' /\
    length h' = length h /\ (forall a, pats h' a = pats h a) /\
    (forall a i, kid h' a i = kid h a i).
Proof.
  induction n as [|n IH]; intros k h0 Q0 Hkn HI Hlen Hpats Hkids.
  - exists h0, Q0. simpl. split; [done|]. split; [|done].
    replace (Z.to_nat ALPHABET_SIZE) with k by lia. done.
  - pose proof (mi_wf _ _ _ _ _ HI) as Hwf.
    destruct (wf_root _ Hwf) as [Hrl Hrd].
    assert (Hki : 0 <= Z.of_nat k < ALPHABET_SIZE) by (unfold ALPHABET_SIZE in *; lia).
    simpl. destruct (deref_lt h0 root Hrl) as (nd & -> & Hnd). simpl.
    destruct (child_total _ _ _ _ Hwf Hnd Hki) as (ch & -> & Hch). simpl.
    rewrite Nat2Z.id in Hch. destruct ch as [c|].
    + pose proof (kid_of_child _ _ _ _ _ Hnd Hch) as Hkc.
      destruct (wf_kid _ Hwf _ _ _ Hkc) as [Hcc Hcd].
      assert (Hcl : (c < length h0)%nat) by lia.
      destruct (deref_lt _ _ Hcl) as (cn & -> & _). simpl.
      pose proof (relinked_failure h0 c root Hwf Hcl) as Hrl'.
      apply (IH (S k)); [lia | | | |].
      * eapply mid_enqueue;
          [exact HI | exact Hkc | exact Hrl' | done | lia | | apply sfx_root |].
        -- intros o Ho. apply (mi_ol _ _ _ _ _ HI _ _ Ho).
        -- intros o Ho. apply (mi_ol_sfx _ _ _ _ _ HI _ _ Ho).
      * rewrite (rl_length _ _ _ _ _ Hrl'). done.
      * intros a. rewrite (rl_pats _ _ _ _ _ Hrl'). done.
      * intros a i. rewrite (rl_kid _ _ _ _ _ Hrl'). done.
    + apply (IH (S k)); [lia | | done | done | done].
      apply mid_skip; [done|]. rewrite (kid_children _ _ _ _ Hnd). by rewrite Hch.
Qed.

Lemma mid_next h done cur q Q :
  mid_inv h done cur (Z.to_nat ALPHABET_SIZE) (q :: Q) ->
  mid_inv h (done ++ [cur]) q 0 Q /\ q <> root.
Proof.
  intros HI.
  assert (E : (done ++ [cur]) ++ q :: Q = done ++ cur :: q :: Q)
    by (by rewrite <- app_assoc).
  pose proof (mi_nodup _ _ _ _ _ HI) as Hnd.
  split.
  - pose proof (mi_wf _ _ _ _ _ HI) as Hwf. split.
    + done.
    + apply (mi_root _ _ _ _ _ HI).
    + by rewrite E.
    + rewrite E. apply (mi_valid _ _ _ _ _ HI).
    + apply elem_of_app. left. apply (mi_root_in _ _ _ _ _ HI).
    + rewrite E. apply (mi_F _ _ _ _ _ HI).
    + apply (mi_fl _ _ _ _ _ HI).
    + apply (mi_ol _ _ _ _ _ HI).
    + rewrite E. intros b i c Hb Hk. apply elem_of_app in Hb as [Hb|Hb].
      * by eapply (mi_done _ _ _ _ _ HI).
      * apply list_elem_of_singleton in Hb. subst b.
        apply elem_of_app. right. apply elem_of_cons. right.
        apply (mi_cur _ _ _ _ _ HI i); [|done].
        by destruct (kid_valid _ _ _ _ Hwf Hk) as (_ & _ & ?).
    + intros i c Hi. lia.
    + rewrite E. intros c Hc Hne.
      destruct (mi_par _ _ _ _ _ HI c Hc Hne) as (p & i & Hp & [Hd|[-> Hi]]).
      * exists p, i. split; [done|]. left. apply elem_of_app. by left.
      * exists cur, i. split; [done|]. left. apply elem_of_app. right.
        by apply list_elem_of_singleton.
    + intros q' Hq'.
      assert (Hq : q ∈ q :: Q) by (apply elem_of_cons; by left).
      assert (Hq'' : q' ∈ q :: Q) by (apply elem_of_cons; by right).
      pose proof (mi_lvl _ _ _ _ _ HI _ Hq).
      pose proof (mi_lvl _ _ _ _ _ HI _ Hq'').
      apply list_elem_of_lookup in Hq' as [j Hj].
      pose proof (mi_sorted _ _ _ _ _ HI 0%nat (S j) q q' eq_refl Hj).
      lia.
    + intros i j x y Hi Hj Hij.
      apply (mi_sorted _ _ _ _ _ HI (S i) (S j)); [done | done | lia].
    + apply (mi_fl_sfx _ _ _ _ _ HI).
    + apply (mi_ol_sfx _ _ _ _ _ HI).
  - intros ->.
    pose proof (mi_root_in _ _ _ _ _ HI) as Hr.
    apply NoDup_app in Hnd as (_ & Hdisj & Hnd').
    apply elem_of_app in Hr as [Hr|Hr].
    + apply (Hdisj _ Hr). apply elem_of_cons. right. apply elem_of_cons. by left.
    + apply list_elem_of_singleton in Hr. subst cur.
      apply NoDup_cons in Hnd' as [Hn _]. apply Hn. apply elem_of_cons. by left.
Qed.

Lemma mid_all h done cur :
  mid_inv h done cur (Z.to_nat ALPHABET_SIZE) [] ->
  forall b, (b < length h)%nat -> b ∈ done ++ [cur].
Proof.
  intros HI b. induction (lt_wf b) as [b _ IH]. intros Hlt.
  pose proof (mi_wf _ _ _ _ _ HI) as Hwf.
  destruct (decide (b = root)) as [->|Hne]; [apply (mi_root_in _ _ _ _ _ HI)|].
  destruct (wf_parent _ Hwf b) as (p & i & Hk); [unfold root in Hne; lia|].
  destruct (wf_kid _ Hwf _ _ _ Hk) as [Hpb _].
  assert (Hp : p ∈ done ++ [cur]) by (apply IH; lia).
  apply elem_of_app in Hp as [Hp|Hp].
  - by eapply (mi_done _ _ _ _ _ HI).
  - apply list_elem_of_singleton in Hp. subst p.
    assert (Hb : b ∈ []).
    { apply (mi_cur _ _ _ _ _ HI i); [|done].
      by destruct (kid_valid _ _ _ _ Hwf Hk) as (_ & _ & ?). }
    by apply elem_of_nil in Hb.
Qed.

Lemma mid_finish h done cur :
  mid_inv h done cur (Z.to_nat ALPHABET_SIZE) [] -> links_ok h.
Proof.
  intros HI. split.
  - apply (mi_wf _ _ _ _ _ HI).
  - apply (mi_root _ _ _ _ _ HI).
  - intros b Hb. destruct (mid_failure _ _ _ _ _ b HI) as (f & ? & ? & ? & _).
    + apply (mid_all _ _ _ HI). lia.
    + unfold root. lia.
    + eauto.
  - apply (mi_ol _ _ _ _ _ HI).
  - apply (mi_fl_sfx _ _ _ _ _ HI).
  - apply (mi_ol_sfx _ _ _ _ _ HI).
Qed.

Lemma nodup_bound (l : list nat) n :
  NoDup l -> (forall x, x ∈ l -> (x < n)%nat) -> (length l <= n)%nat.
Proof.
  intros Hnd Hlt.
  rewrite <- (length_seq n 0). apply submseteq_length, NoDup_submseteq; [done|].
  intros x Hx. apply elem_of_seq. specialize (Hlt x Hx). lia.
Qed.

Lemma link_loop_cons fuel h q Q :
  link_loop (S fuel) h (q :: Q)
  = rbind (link_children h Q q codes) (fun r => link_loop fuel (fst r) (snd r)).
Proof.
  cbn [link_loop]. destruct (link_children h Q q codes) as [e|[h' Q']]; reflexivity.
Qed.

Lemma link_loop_ok :
  forall fuel h done cur Q,
    mid_inv h done cur (Z.to_nat ALPHABET_SIZE) Q ->
    (length h <= fuel + length done)%nat ->
    exists h', link_loop fuel h Q = inr h' /\ links_ok h' /\
      length h' = length h /\ (forall a, pats h' a = pats h a) /\
      (forall a i, kid h' a i = kid h a i).
Proof.
  induction fuel as [|fuel IH]; intros h done cur Q HI Hfuel.
  - pose proof (nodup_bound _ _ (mi_nodup _ _ _ _ _ HI) (mi_valid _ _ _ _ _ HI)) as Hb.
    rewrite length_app in Hb. simpl in *. lia.
  - destruct Q as [|q Q].
    + exists h. split; [done|]. split; [|done]. by eapply mid_finish.
    + rewrite link_loop_cons.
      destruct (mid_next _ _ _ _ _ HI) as [HI0 Hq].
      destruct (link_children_ok h (done ++ [cur]) q (Z.to_nat ALPHABET_SIZE) 0%nat h Q)
        as (h1 & Q1 & Hs & HI1 & Hl1 & Hp1 & Hk1); [done..|].
      change (map Z.of_nat (seq 0 (Z.to_nat ALPHABET_SIZE))) with codes in Hs.
      rewrite Hs. simpl.
      destruct (IH h1 (done ++ [cur]) q Q1 HI1) as (h2 & Hl & Hok & Hl2 & Hp2 & Hk2).
      { rewrite length_app. simpl. lia. }
      exists h2. split; [done|]. split; [done|]. split; [congruence|].
      split; [intros a; by rewrite Hp2 | intros a i; by rewrite Hk2].
Qed.

Lemma ids_below_ids_ok n h : ids_below n h -> ids_ok n h.
Proof.
  intros Hb a i. unfold pats. destruct (h !! a) as [nd|] eqn:Ha.
  - intros Hi. pose proof (Forall_lookup_1 _ _ _ _ Hb Ha) as Hnd. simpl in Hnd.
    by eapply (proj1 (Forall_forall _ _) Hnd).
  - intros Hi. by apply elem_of_nil in Hi.
Qed.

Lemma build_failure_links_ok n m :
  trie_ok n m ->
  exists m', build_failure_links m = inr m' /\
    links_ok (cells m') /\ ids_ok n (cells m') /\ same_config m m' /\
    node_count_ m' = node_count_ m /\ max_depth_ m' = max_depth_ m /\
    (forall a, pats (cells m') a = pats (cells m) a) /\
    (forall a i, kid (cells m') a i = kid (cells m) a i).
Proof.
  intros (Hwf & Hun & Hids). unfold build_failure_links.
  destruct (wf_root _ Hwf) as [Hlen _].
  destruct (deref_lt (cells m) root Hlen) as (r & -> & _). cbn [rbind].
  set (h0 := update (cells m) root (fun nd => set_failure_link nd (Some root))).
  destruct (link_root_children_ok h0 (Z.to_nat ALPHABET_SIZE) 0%nat h0 [])
    as (h1 & Q1 & Hs & HI1 & Hl1 & Hp1 & Hk1);
    [done | by apply mid_init | done | done | done |].
  change (map Z.of_nat (seq 0 (Z.to_nat ALPHABET_SIZE))) with codes in Hs.
  rewrite Hs. cbn [rbind].
  destruct (link_loop_ok (S (length h1)) h1 [] root Q1 HI1)
    as (h2 & -> & Hok & Hl2 & Hp2 & Hk2).
  { cbn [length]. lia. }
  assert (Hp : forall a, pats h2 a = pats (cells m) a).
  { intros a. rewrite Hp2, Hp1. subst h0. by rewrite update_pats_other. }
  assert (Hk : forall a i, kid h2 a i = kid (cells m) a i).
  { intros a i. rewrite Hk2, Hk1. subst h0. by rewrite update_kid. }
  cbn [rbind]. eexists. split; [done|]. cbn [cells set_cells].
  split; [done|]. split.
  { intros a i. rewrite Hp. by apply ids_below_ids_ok. }
  done.
Qed.

Lemma initialize_ok m ps :
  ps <> [] -> cleanable (case_sensitive_ m) ps ->
  exists m', initialize m ps = (inr tt, m') /\
    links_ok (cells m') /\ ids_ok (length ps) (cells m') /\
    patterns_ m' = ps /\ verbose_ m' = verbose_ m /\
    case_sensitive_ m' = case_sensitive_ m.
Proof.
  intros Hne Hcl. unfold initialize. destruct ps as [|p ps]; [done|].
  set (m1 := mkMatcher _ _ _ _ _ _).
  destruct (build_trie_from_ok (clear_trie m1) 0 (p :: ps)) as (m3 & Hb & Hok3 & Hc3).
  { apply trie_ok_clear. }
  { done. }
  unfold build_trie. change (patterns_ (clear_trie m1)) with (p :: ps).
  rewrite Hb.
  destruct (build_failure_links_ok _ m3 Hok3) as (m4 & -> & Hok4 & Hids4 & Hc4 & _).
  exists m4. split; [done|]. split; [done|]. split; [done|].
  destruct Hc3 as (Hp3 & Hv3 & Hs3), Hc4 as (Hp4 & Hv4 & Hs4).
  rewrite Hp4, Hp3, Hv4, Hv3, Hs4, Hs3. done.
Qed.

Lemma initialize_inv m ps m' :
  initialize m ps = (inr tt, m') -> ps <> [] /\ cleanable (case_sensitive_ m) ps.
Proof.
  unfold initialize. destruct ps as [|p ps]; [discriminate|].
  set (m1 := mkMatcher _ _ _ _ _ _). intros H. split; [done|].
  unfold build_trie in H. change (patterns_ (clear_trie m1)) with (p :: ps) in H.
  destruct (build_trie_from (clear_trie m1) 0 (p :: ps)) as [e|m3] eqn:Hb;
    [discriminate|].
  apply (build_trie_from_idx (clear_trie m1) 0 (p :: ps) m3); [|done].
  apply trie_ok_clear.
Qed.

(** ** Symbols and their codes *)

Ltac zbool :=
  repeat match goal with
  | H : (_ && _) = true |- _ => apply andb_true_iff in H as [? ?]
  | H : (_ || _) = true |- _ => apply orb_true_iff in H as [?|?]
  | H : (_ && _) = false |- _ => apply andb_false_iff in H as [?|?]
  | H : (_ || _) = false |- _ => apply orb_false_iff in H as [? ?]
  | H : (_ <=? _) = true |- _ => apply Z.leb_le in H
  | H : (_ <=? _) = false |- _ => apply Z.leb_gt in H
  | H : (_ <? _) = true |- _ => apply Z.ltb_lt in H
  | H : (_ <? _) = false |- _ => apply Z.ltb_ge in H
  | H : (_ =? _) = true |- _ => apply Z.eqb_eq in H
  | H : (_ =? _) = false |- _ => apply Z.eqb_neq in H
  | H : (_ >? _) = true |- _ => rewrite Z.gtb_ltb in H
  | H : (_ >? _) = false |- _ => rewrite Z.gtb_ltb in H
  end.

Lemma code_of_bound c : 0 <= code_of c < 256.
Proof. unfold code_of. pose proof (nat_ascii_bounded c). lia. Qed.

Lemma code_char n : 0 <= n < 256 -> code_of (char_of n) = n.
Proof.
  intros Hn. unfold code_of, char_of. rewrite nat_ascii_embedding by lia. lia.
Qed.

Lemma char_code c : char_of (code_of c) = c.
Proof. unfold code_of, char_of. rewrite Nat2Z.id. apply ascii_nat_embedding. Qed.

Lemma char_to_index_cases c :
  let n := code_of c in
  (n = SPACE /\ char_to_index c = 26) \/
  (n = HYPHEN /\ char_to_index c = 27) \/
  (is_lower n = true /\ char_to_index c = n - 97) \/
  (is_upper n = true /\ char_to_index c = n + 32 - 97) \/
  (n <> SPACE /\ n <> HYPHEN /\ isalpha n = false /\ char_to_index c = -1).
Proof.
  intros n. unfold char_to_index. fold n.
  unfold isalpha, tolower, is_lower, is_upper, SPACE, HYPHEN.
  destruct (n =? 32) eqn:E1; [zbool; auto|].
  destruct (n =? 45) eqn:E2; [zbool; auto|].
  destruct ((97 <=? n) && (n <=? 122)) eqn:E3; [auto|].
  destruct ((65 <=? n) && (n <=? 90)) eqn:E4; [auto 6|].
  zbool; auto 10.
Qed.

Lemma idx_ok_iff c : idx_ok c <-> char_to_index c <> -1.
Proof.
  unfold idx_ok, ALPHABET_SIZE.
  destruct (char_to_index_cases c) as [[? ->]|[[? ->]|[[H ->]|[[H ->]|(_ & _ & _ & ->)]]]];
    unfold is_lower, is_upper in *; zbool; lia.
Qed.

Lemma idx_ok_clean case_sensitive raw :
  no_newline raw -> Forall idx_ok (clean_text case_sensitive raw).
Proof.
  induction 1 as [|c raw Hc _ IH]; simpl; [constructor|].
  destruct (isalpha (code_of c)) eqn:Ha.
  - constructor; [|done]. apply idx_ok_iff.
    pose proof (code_of_bound c) as Hb.
    destruct case_sensitive.
    + destruct (char_to_index_cases c) as [[? ->]|[[? ->]|[[H ->]|[[H ->]|(_ & _ & Hn & _)]]]];
        unfold is_lower, is_upper in *; zbool; try lia. congruence.
    + assert (Hl : is_lower (tolower (code_of c)) = true).
      { unfold tolower, isalpha, is_lower, is_upper in *.
        destruct ((65 <=? code_of c) && (code_of c <=? 90)) eqn:E; zbool;
          apply andb_true_iff; split; apply Z.leb_le; lia. }
      assert (Hb' : 0 <= tolower (code_of c) < 256).
      { unfold is_lower in Hl. zbool. lia. }
      destruct (char_to_index_cases (char_of (tolower (code_of c))))
        as [[? ->]|[[? ->]|[[H ->]|[[H ->]|(_ & _ & Hn & _)]]]];
        rewrite ?code_char in * by done; unfold is_lower, is_upper in *; zbool; try lia.
      unfold isalpha, is_lower, is_upper in Hn. zbool; lia.
  - destruct ((code_of c =? SPACE) || (code_of c =? HYPHEN) || (code_of c =? NEWLINE)) eqn:Hs.
    + constructor; [|done]. apply idx_ok_iff.
      destruct (char_to_index_cases c) as [[? ->]|[[? ->]|[[H ->]|[[H ->]|(? & ? & _ & _)]]]];
        try lia; unfold isalpha in Ha; zbool; congruence.
    + destruct (code_of c =? TAB); [|done].
      constructor; [|done]. by vm_compute.
Qed.

Lemma well_formed_cleanable case_sensitive ps :
  well_formed ps -> cleanable case_sensitive ps.
Proof.
  intros Hwf. eapply Forall_impl; [exact Hwf|]. intros raw. apply idx_ok_clean.
Qed.

(** ** search returns on every automaton that initialize built *)

Lemma size_sub_range a b : 0 <= size_sub a b < SIZE_MOD.
Proof. unfold size_sub. apply Z.mod_pos_bound. by vm_compute. Qed.

Lemma size_add_range a b : 0 <= size_add a b < SIZE_MOD.
Proof. unfold size_add. apply Z.mod_pos_bound. by vm_compute. Qed.

Lemma context_start_range pos len size :
  0 <= size -> 0 <= context_start pos len size <= size.
Proof.
  intros Hs. unfold context_start.
  destruct (size_add pos 1 >? len); [|lia].
  pose proof (size_sub_range pos len). lia.
Qed.

Lemma context_end_range pos context_size size :
  0 <= size -> 0 <= context_end pos context_size size <= size.
Proof.
  intros Hs. unfold context_end.
  pose proof (size_add_range pos context_size). lia.
Qed.

Lemma substr_ok s pos count :
  0 <= pos <= Z.of_nat (length s) -> exists r, substr s pos count = inr r.
Proof.
  intros Hp. unfold substr.
  destruct (pos >? Z.of_nat (length s)) eqn:E; [zbool; lia | eauto].
Qed.

Lemma emit_match_ok m acc ln col lt pos ctx id :
  (id < length (patterns_ m))%nat ->
  exists out, emit_match m acc ln col lt pos ctx id = inr out.
Proof.
  intros Hid. unfold emit_match.
  destruct (lookup_lt_is_Some_2 _ _ Hid) as [pat ->].
  destruct (substr_ok lt
    (context_start pos (Z.of_nat (length pat)) (Z.of_nat (length lt)))
    (size_sub (context_end pos ctx (Z.of_nat (length lt)))
              (context_start pos (Z.of_nat (length pat)) (Z.of_nat (length lt)))))
    as [r ->]; [apply context_start_range; lia|].
  simpl. eauto.
Qed.

Lemma emit_matches_ok m ln col lt pos ctx ids :
  Forall (fun id => (id < length (patterns_ m))%nat) ids ->
  forall acc, exists out, emit_matches m acc ln col lt pos ctx ids = inr out.
Proof.
  induction 1 as [|id ids Hid _ IH]; intros acc; simpl; [eauto|].
  destruct (emit_match_ok m acc ln col lt pos ctx id Hid) as [out ->]. simpl.
  apply IH.
Qed.

Lemma ids_ok_pats n h a nd :
  ids_ok n h -> h !! a = Some nd -> Forall (fun id => (id < n)%nat) (pattern_indices nd).
Proof.
  intros Hids Ha. apply Forall_forall. intros id Hid. apply (Hids a).
  unfold pats. by rewrite Ha.
Qed.

Lemma collect_matches_ok m ln col lt pos ctx :
  links_ok (cells m) -> ids_ok (length (patterns_ m)) (cells m) ->
  forall fuel t acc, (t < length (cells m))%nat -> dep (cells m) t < Z.of_nat fuel ->
    exists out, collect_matches fuel m (Some t) acc ln col lt pos ctx = inr out.
Proof.
  intros Hok Hids. induction fuel as [|fuel IH]; intros t acc Ht Hfuel.
  - pose proof (dep_nonneg (cells m) t (lk_wf _ Hok)). lia.
  - simpl. destruct (deref_lt _ _ Ht) as (nd & -> & Hnd). simpl.
    destruct (emit_matches_ok m ln col lt pos ctx (pattern_indices nd)
                (ids_ok_pats _ _ _ _ Hids Hnd) acc) as [acc' ->]. simpl.
    destruct (output_link nd) as [o|] eqn:Ho.
    + assert (Hol : olink (cells m) t = Some o) by (unfold olink; by rewrite Hnd).
      destruct (lk_ol _ Hok _ _ Hol) as (Hov & _ & Hod).
      apply IH; [done | lia].
    + destruct fuel; simpl; eauto.
Qed.

Lemma follow_failure_links h i fuel a :
  links_ok h -> 0 <= i < ALPHABET_SIZE -> (a < length h)%nat ->
  dep h a < Z.of_nat fuel ->
  exists g, follow_failure fuel h (Some a) i = inr g /\ (g < length h)%nat /\
            sfx h g a.
Proof.
  intros Hok Hi Ha Hfuel.
  destruct (follow_failure_ok h i (dep h a) (lk_wf _ Hok) Hi) with (fuel := fuel) (a := a)
    as (g & Hg & Hgl & _ & Hgs); [|done|lia|done|eauto].
  intros b Hb Hbr _.
  destruct (lk_fl _ Hok b) as (f & Hf & ? & ?); [unfold root in Hbr; lia|].
  exists f. split; [done|]. split; [done|]. split; [done|].
  by apply (lk_fl_sfx _ Hok).
Qed.

Lemma scan_symbol_ok m ctx line_num lt col c cur acc :
  links_ok (cells m) -> ids_ok (length (patterns_ m)) (cells m) ->
  (cur < length (cells m))%nat ->
  exists cur' acc', scan_symbol m ctx line_num lt col c cur acc = inr (cur', acc') /\
    (cur' < length (cells m))%nat.
Proof.
  intros Hok Hids Hcur. unfold scan_symbol.
  pose proof (lk_wf _ Hok) as Hwf.
  destruct (char_to_index c =? -1) eqn:Hidx; [eauto|].
  assert (Hi : 0 <= char_to_index c < ALPHABET_SIZE).
  { apply idx_ok_iff. by apply Z.eqb_neq. }
  destruct (follow_failure_links (cells m) (char_to_index c) (length (cells m)) cur)
    as (g & -> & Hg & _); [done | done | done | by apply dep_lt_length |].
  simpl. destruct (deref_lt _ _ Hg) as (nd & -> & Hnd). simpl.
  destruct (child_total _ _ _ _ Hwf Hnd Hi) as (ch & -> & Hch). simpl.
  set (node' := match ch with Some k => k | None => g end).
  assert (Hn' : (node' < length (cells m))%nat).
  { subst node'. destruct ch as [k|]; [|done].
    pose proof (kid_of_child _ _ _ _ _ Hnd Hch) as Hk.
    by destruct (kid_valid _ _ _ _ Hwf Hk) as (_ & ? & _). }
  destruct (deref_lt _ _ Hn') as (nd' & -> & Hnd'). simpl.
  destruct (pattern_indices nd') as [|x xs] eqn:Hp; [eauto|].
  destruct (collect_matches_ok m (size_add (Z.of_nat line_num) 1)
              (size_add (Z.of_nat col) 1) lt (Z.of_nat col) ctx Hok Hids
              (length (cells m)) node' acc Hn') as [out ->];
    [by apply dep_lt_length|].
  simpl. eauto.
Qed.

Lemma scan_line_ok m ctx line_num lt :
  links_ok (cells m) -> ids_ok (length (patterns_ m)) (cells m) ->
  forall rest col cur acc, (cur < length (cells m))%nat ->
    exists out, scan_line m ctx line_num lt col rest cur acc = inr out.
Proof.
  intros Hok Hids. induction rest as [|c rest IH]; intros col cur acc Hcur; simpl.
  - eauto.
  - destruct (scan_symbol_ok m ctx line_num lt col c cur acc Hok Hids Hcur)
      as (cur' & acc' & -> & Hcur'). simpl. by apply IH.
Qed.

Lemma scan_lines_ok m ctx :
  links_ok (cells m) -> ids_ok (length (patterns_ m)) (cells m) ->
  forall lines line_num acc,
    exists out, scan_lines m ctx line_num lines acc = inr out.
Proof.
  intros Hok Hids. induction lines as [|l lines IH]; intros line_num acc; simpl.
  - eauto.
  - destruct (scan_line_ok m ctx line_num l Hok Hids l 0%nat root acc) as [acc' ->].
    { apply (wf_root _ (lk_wf _ Hok)). }
    simpl. apply IH.
Qed.

Lemma search_ok m text ctx :
  links_ok (cells m) -> ids_ok (length (patterns_ m)) (cells m) ->
  exists out, search m text ctx = inr out.
Proof.
  intros Hok Hids. unfold search, scan.
  destruct (scan_lines_ok m ctx Hok Hids
              (split_lines (clean_text (case_sensitive_ m) text)) 0%nat []) as [out ->].
  simpl. eauto.
Qed.

(** ** The exceptions of the program

    Apart from initialize on an empty list, no function of the matcher
    throws: the only errors of the embedding are the undefined behaviours
    and the exhausted fuels. *)

Section avoids.
Variable e : error.
Hypothesis He_undef : e <> Undefined.
Hypothesis He_div : e <> Diverged.

Lemma avoids_bind {A B} (x : result A) (f : A -> result B) :
  avoids e x -> (forall a, avoids e (f a)) -> avoids e (rbind x f).
Proof.
  unfold avoids. destruct x as [e'|a]; simpl; [|intros _ H; apply H].
  intros H _ [= ->]. by apply H.
Qed.

Lemma avoids_inr {A} (a : A) : avoids e (inr a).
Proof. discriminate. Qed.

Lemma avoids_undef {A} : avoids e (inl Undefined : result A).
Proof. intros [= E]. by apply He_undef. Qed.

Lemma avoids_div {A} : avoids e (inl Diverged : result A).
Proof. intros [= E]. by apply He_div. Qed.

Lemma avoids_deref h a : avoids e (deref h a).
Proof. unfold deref. destruct (h !! a); [apply avoids_inr | apply avoids_undef]. Qed.

Lemma avoids_child nd i : avoids e (child nd i).
Proof.
  unfold child. destruct ((0 <=? i) && (i <? ALPHABET_SIZE)); [|apply avoids_undef].
  destruct (children nd !! Z.to_nat i); [apply avoids_inr | apply avoids_undef].
Qed.

Ltac avoid_step :=
  match goal with
  | |- avoids _ (rbind _ _) => apply avoids_bind; [|intros ?]
  | |- avoids _ (deref _ _) => apply avoids_deref
  | |- avoids _ (child _ _) => apply avoids_child
  | |- avoids _ (inr _) => apply avoids_inr
  | |- avoids _ (inl Undefined) => apply avoids_undef
  | |- avoids _ (inl Diverged) => apply avoids_div
  | |- avoids _ (match ?x with _ => _ end) => destruct x
  end.

Lemma avoids_trie_step m node c : avoids e (trie_step m node c).
Proof. unfold trie_step. repeat avoid_step. Qed.

Lemma avoids_trie_walk pat : forall m node, avoids e (trie_walk m node pat).
Proof.
  induction pat as [|c pat IH]; intros m node; simpl; [apply avoids_inr|].
  apply avoids_bind; [apply avoids_trie_step|]. intros [m' node']. apply IH.
Qed.

Lemma avoids_trie_insert m i raw : avoids e (trie_insert m i raw).
Proof.
  unfold trie_insert. destruct (clean_text _ raw); [apply avoids_inr|].
  apply avoids_bind; [apply avoids_trie_walk|]. intros [m' node']. apply avoids_inr.
Qed.

Lemma avoids_build_trie_from rest : forall m i, avoids e (build_trie_from m i rest).
Proof.
  induction rest as [|raw rest IH]; intros m i; simpl; [apply avoids_inr|].
  apply avoids_bind; [apply avoids_trie_insert | intros m'; apply IH].
Qed.

Lemma avoids_follow_failure fuel : forall h p i, avoids e (follow_failure fuel h p i).
Proof.
  induction fuel as [|fuel IH]; intros h p i; simpl; [apply avoids_div|].
  destruct p as [a|]; [|apply avoids_undef].
  destruct (Nat.eqb a root); [apply avoids_inr|].
  repeat avoid_step. apply IH.
Qed.

Lemma avoids_link_child h queue current i : avoids e (link_child h queue current i).
Proof.
  unfold link_child. repeat avoid_step; try apply avoids_follow_failure.
Qed.

Lemma avoids_link_children idxs : forall h queue current,
  avoids e (link_children h queue current idxs).
Proof.
  induction idxs as [|i idxs IH]; intros h queue current; simpl; [apply avoids_inr|].
  apply avoids_bind; [apply avoids_link_child|]. intros [h' q']. apply IH.
Qed.

Lemma avoids_link_loop fuel : forall h queue, avoids e (link_loop fuel h queue).
Proof.
  induction fuel as [|fuel IH]; intros h queue; [apply avoids_div|].
  destruct queue as [|q queue]; [apply avoids_inr|].
  rewrite link_loop_cons. apply avoids_bind; [apply avoids_link_children|].
  intros [h' q']. apply IH.
Qed.

Lemma avoids_link_root_children idxs : forall h queue,
  avoids e (link_root_children h queue idxs).
Proof.
  induction idxs as [|i idxs IH]; intros h queue; simpl; [apply avoids_inr|].
  repeat avoid_step; apply IH.
Qed.

Lemma avoids_build_failure_links m : avoids e (build_failure_links m).
Proof.
  unfold build_failure_links. apply avoids_bind; [apply avoids_deref|]. intros _.
  apply avoids_bind; [apply avoids_link_root_children|]. intros [h1 queue].
  apply avoids_bind; [apply avoids_link_loop|]. intros h2. apply avoids_inr.
Qed.

Lemma avoids_emit_match m acc ln col lt pos ctx id :
  avoids e (emit_match m acc ln col lt pos ctx id).
Proof.
  unfold emit_match. destruct (patterns_ m !! id) as [pat|]; [|apply avoids_undef].
  destruct (substr_ok lt
    (context_start pos (Z.of_nat (length pat)) (Z.of_nat (length lt)))
    (size_sub (context_end pos ctx (Z.of_nat (length lt)))
              (context_start pos (Z.of_nat (length pat)) (Z.of_nat (length lt)))))
    as [r ->]; [apply context_start_range; lia|].
  apply avoids_inr.
Qed.

Lemma avoids_emit_matches m ln col lt pos ctx ids : forall acc,
  avoids e (emit_matches m acc ln col lt pos ctx ids).
Proof.
  induction ids as [|id ids IH]; intros acc; simpl; [apply avoids_inr|].
  apply avoids_bind; [apply avoids_emit_match | intros acc'; apply IH].
Qed.

Lemma avoids_collect_matches m ln col lt pos ctx fuel : forall temp acc,
  avoids e (collect_matches fuel m temp acc ln col lt pos ctx).
Proof.
  induction fuel as [|fuel IH]; intros [t|] acc; simpl;
    try apply avoids_inr; try apply avoids_div.
  apply avoids_bind; [apply avoids_deref|]. intros nd.
  apply avoids_bind; [apply avoids_emit_matches | intros acc'; apply IH].
Qed.

Lemma avoids_scan_symbol m ctx line_num lt col c cur acc :
  avoids e (scan_symbol m ctx line_num lt col c cur acc).
Proof.
  unfold scan_symbol. destruct (char_to_index c =? -1); [apply avoids_inr|].
  repeat avoid_step;
    try apply avoids_follow_failure; try apply avoids_collect_matches.
Qed.

Lemma avoids_scan_line m ctx line_num lt rest : forall col cur acc,
  avoids e (scan_line m ctx line_num lt col rest cur acc).
Proof.
  induction rest as [|c rest IH]; intros col cur acc; simpl; [apply avoids_inr|].
  apply avoids_bind; [apply avoids_scan_symbol|]. intros [cur' acc']. apply IH.
Qed.

Lemma avoids_scan_lines m ctx lines : forall line_num acc,
  avoids e (scan_lines m ctx line_num lines acc).
Proof.
  induction lines as [|l lines IH]; intros line_num acc; simpl; [apply avoids_inr|].
  apply avoids_bind; [apply avoids_scan_line | intros acc'; apply IH].
Qed.

Lemma avoids_search m text ctx : avoids e (search m text ctx).
Proof.
  unfold search, scan. apply avoids_bind; [apply avoids_scan_lines|].
  intros matches. apply avoids_inr.
Qed.
End avoids.

Lemma initialize_throws m ps : fst (initialize m ps) = inl InvalidInput <-> ps = [].
Proof.
  split; [|by intros ->].
  destruct ps as [|p ps]; [done|]. unfold initialize.
  set (m2 := clear_trie _).
  pose proof (avoids_build_trie_from InvalidInput ltac:(done) (patterns_ m2) m2 0%nat) as Hq.
  unfold build_trie. destruct (build_trie_from m2 0 (patterns_ m2)) as [e|m3].
  - simpl. intros [= ->]. by destruct Hq.
  - pose proof (avoids_build_failure_links InvalidInput ltac:(done) ltac:(done) m3) as Hq'.
    destruct (build_failure_links m3) as [e|m4]; simpl; [|discriminate].
    intros [= ->]. by destruct Hq'.
Qed.

(** ** search on a matcher that was never initialized *)

Lemma scan_symbol_fresh v cs ctx line_num lt col c acc :
  scan_symbol (new_PatternMatcher v cs) ctx line_num lt col c root acc
  = inr (root, acc).
Proof.
  unfold scan_symbol. destruct (char_to_index c =? -1) eqn:Hidx; [done|].
  assert (Hi : 0 <= char_to_index c < ALPHABET_SIZE).
  { apply idx_ok_iff. by apply Z.eqb_neq. }
  cbn [new_PatternMatcher cells length follow_failure Nat.eqb root rbind].
  assert (Hch : child (set_depth new_TrieNode 0) (char_to_index c) = inr None).
  { apply child_inr. split; [done|]. apply lookup_replicate.
    split; [done|]. unfold ALPHABET_SIZE in *. lia. }
  assert (Hd : deref [set_depth new_TrieNode 0] root = inr (set_depth new_TrieNode 0))
    by reflexivity.
  rewrite Hd. cbn [rbind]. rewrite Hch. cbn [rbind]. rewrite Hd. done.
Qed.

Lemma scan_line_fresh v cs ctx line_num lt rest : forall col acc,
  scan_line (new_PatternMatcher v cs) ctx line_num lt col rest root acc = inr acc.
Proof.
  induction rest as [|c rest IH]; intros col acc; [done|].
  cbn [scan_line]. rewrite scan_symbol_fresh. cbn [rbind]. apply IH.
Qed.

Lemma scan_lines_fresh v cs ctx lines : forall line_num acc,
  scan_lines (new_PatternMatcher v cs) ctx line_num lines acc = inr acc.
Proof.
  induction lines as [|l lines IH]; intros line_num acc; [done|].
  cbn [scan_lines]. rewrite scan_line_fresh. cbn [rbind]. apply IH.
Qed.

Lemma search_fresh v cs text ctx :
  search (new_PatternMatcher v cs) text ctx = inr [].
Proof. unfold search, scan. by rewrite scan_lines_fresh. Qed.

(** ** The scan only appends to the matches *)

Lemma appends_ret : appends inr.
Proof. intros acc. simpl. by rewrite app_nil_r. Qed.

Lemma appends_fail e : appends (fun _ => inl e).
Proof. done. Qed.

Lemma appends_bind F G : appends F -> appends G -> appends (fun acc => rbind (F acc) G).
Proof.
  intros HF HG acc. rewrite (HF acc). destruct (F []) as [e|n1]; simpl; [done|].
  rewrite (HG (acc ++ n1)), (HG n1). destruct (G []) as [e|n2]; simpl; [done|].
  by rewrite app_assoc.
Qed.

Lemma appends_emit_match m ln col lt pos ctx id :
  appends (fun acc => emit_match m acc ln col lt pos ctx id).
Proof.
  intros acc. unfold emit_match. destruct (patterns_ m !! id) as [pat|]; [|done].
  destruct (substr _ _ _) as [e|c]; simpl; done.
Qed.

Lemma appends_emit_matches m ln col lt pos ctx ids :
  appends (fun acc => emit_matches m acc ln col lt pos ctx ids).
Proof.
  induction ids as [|id ids IH]; simpl; [apply appends_ret|].
  apply (appends_bind _ _ (appends_emit_match m ln col lt pos ctx id) IH).
Qed.

Lemma appends_collect_matches m ln col lt pos ctx fuel : forall temp,
  appends (fun acc => collect_matches fuel m temp acc ln col lt pos ctx).
Proof.
  induction fuel as [|fuel IH]; intros [t|]; simpl;
    try apply appends_ret; try apply appends_fail.
  destruct (deref (cells m) t) as [e|nd]; simpl; [apply appends_fail|].
  apply (appends_bind _ _ (appends_emit_matches m ln col lt pos ctx _) (IH _)).
Qed.

Lemma appends2_scan_symbol m ctx line_num lt col c cur :
  appends2 (fun acc => scan_symbol m ctx line_num lt col c cur acc).
Proof.
  intros acc. unfold scan_symbol.
  destruct (char_to_index c =? -1); [simpl; by rewrite app_nil_r|].
  destruct (follow_failure _ _ _ _) as [e|g]; simpl; [done|].
  destruct (deref (cells m) g) as [e|nd]; simpl; [done|].
  destruct (child nd _) as [e|ch]; simpl; [done|].
  destruct (deref (cells m) _) as [e|nd']; simpl; [done|].
  destruct (pattern_indices nd'); [simpl; by rewrite app_nil_r|].
  rewrite (appends_collect_matches m _ _ lt _ ctx _ _ acc).
  destruct (collect_matches _ _ _ [] _ _ _ _ _) as [e|new]; simpl; done.
Qed.

Lemma appends_scan_line m ctx line_num lt rest : forall col cur,
  appends (fun acc => scan_line m ctx line_num lt col rest cur acc).
Proof.
  induction rest as [|c rest IH]; intros col cur acc; simpl; [by rewrite app_nil_r|].
  rewrite (appends2_scan_symbol m ctx line_num lt col c cur acc).
  destruct (scan_symbol m ctx line_num lt col c cur []) as [e|[cur' n1]]; simpl; [done|].
  rewrite (IH (S col) cur' (acc ++ n1)), (IH (S col) cur' n1).
  destruct (scan_line _ _ _ _ _ _ _ []) as [e|n2]; simpl; [done|].
  by rewrite app_assoc.
Qed.

Lemma appends_scan_lines m ctx lines : forall line_num,
  appends (fun acc => scan_lines m ctx line_num lines acc).
Proof.
  induction lines as [|l lines IH]; intros line_num; simpl; [apply appends_ret|].
  apply (appends_bind _ _ (appends_scan_line m ctx line_num l l 0%nat root)
                      (IH (S line_num))).
Qed.

(* The matches of a text are those of its lines, each scanned on its own
   from the root. *)
Lemma scan_lines_elem m ctx lines : forall k0 out,
  scan_lines m ctx k0 lines [] = inr out ->
  forall r, r ∈ out <->
    exists j ln new, lines !! j = Some ln /\
      scan_line m ctx (k0 + j) ln 0%nat ln root [] = inr new /\ r ∈ new.
Proof.
  induction lines as [|l lines IH]; intros k0 out H r.
  - injection H as <-. split.
    + intros Hr. by apply elem_of_nil in Hr.
    + intros (j & ln & new & Hj & _). done.
  - simpl in H. apply rbind_inr in H as (n1 & H1 & H2).
    rewrite (appends_scan_lines m ctx lines (S k0) n1) in H2.
    apply rbind_inr in H2 as (n2 & H2 & [= <-]).
    rewrite elem_of_app, (IH _ _ H2 r). split.
    + intros [Hr|(j & ln & new & Hj & Hs & Hr)].
      * exists 0%nat, l, n1. by rewrite Nat.add_0_r.
      * exists (S j), ln, new. split; [done|].
        by replace (k0 + S j)%nat with (S k0 + j)%nat by lia.
    + intros (j & ln & new & Hj & Hs & Hr). destruct j as [|j].
      * left. simpl in Hj. injection Hj as <-. rewrite Nat.add_0_r in Hs. congruence.
      * right. exists j, ln, new. split; [done|].
        by replace (S k0 + j)%nat with (k0 + S j)%nat by lia.
Qed.

(** ** The records of a scan *)

Lemma emit_match_record m acc line_num lt col ctx id out :
  emit_match m acc (size_add (Z.of_nat line_num) 1) (size_add (Z.of_nat col) 1)
             lt (Z.of_nat col) ctx id = inr out ->
  exists r, out = acc ++ [r] /\ record_at m ctx line_num lt col id r /\
            pattern_id r = id.
Proof.
  unfold emit_match. destruct (patterns_ m !! id) as [pat|] eqn:Hp; [|done].
  intros H. apply rbind_inr in H as (c & Hc & [= <-]).
  eexists. split; [done|]. split; [|done]. by exists pat, c.
Qed.

Lemma emit_matches_records m line_num lt col ctx ids : forall acc out,
  emit_matches m acc (size_add (Z.of_nat line_num) 1) (size_add (Z.of_nat col) 1)
               lt (Z.of_nat col) ctx ids = inr out ->
  forall r, r ∈ out -> r ∈ acc \/ record_at m ctx line_num lt col (pattern_id r) r.
Proof.
  induction ids as [|id ids IH]; intros acc out H r Hr; simpl in H.
  - injection H as <-. by left.
  - apply rbind_inr in H as (acc' & H1 & H2).
    apply emit_match_record in H1 as (r1 & -> & Hr1 & Hid).
    destruct (IH _ _ H2 r Hr) as [Hin|Hrec]; [|by right].
    apply elem_of_app in Hin as [Hin|Hin]; [by left|].
    apply list_elem_of_singleton in Hin. subst r1. right. by rewrite Hid.
Qed.

Lemma collect_matches_records m line_num lt col ctx fuel : forall temp acc out,
  collect_matches fuel m temp acc (size_add (Z.of_nat line_num) 1)
                  (size_add (Z.of_nat col) 1) lt (Z.of_nat col) ctx = inr out ->
  forall r, r ∈ out -> r ∈ acc \/ record_at m ctx line_num lt col (pattern_id r) r.
Proof.
  induction fuel as [|fuel IH]; intros [t|] acc out H r Hr; simpl in H;
    try discriminate; try (injection H as <-; by left).
  apply rbind_inr in H as (nd & _ & H).
  apply rbind_inr in H as (acc' & H1 & H2).
  destruct (IH _ _ _ H2 r Hr) as [Hin|Hrec]; [|by right].
  by eapply emit_matches_records.
Qed.

Lemma scan_symbol_records m ctx line_num lt col c cur acc cur' out :
  scan_symbol m ctx line_num lt col c cur acc = inr (cur', out) ->
  forall r, r ∈ out -> r ∈ acc \/ record_at m ctx line_num lt col (pattern_id r) r.
Proof.
  unfold scan_symbol. destruct (char_to_index c =? -1).
  { intros [= _ <-] r Hr. by left. }
  intros H. apply rbind_inr in H as (g & _ & H).
  apply rbind_inr in H as (nd & _ & H).
  apply rbind_inr in H as (ch & _ & H).
  apply rbind_inr in H as (nd' & _ & H).
  destruct (pattern_indices nd').
  { injection H as _ <-. intros r Hr. by left. }
  apply rbind_inr in H as (acc' & H & [= _ <-]).
  by eapply collect_matches_records.
Qed.

Lemma scan_line_records m ctx line_num lt rest : forall col cur acc out,
  scan_line m ctx line_num lt col rest cur acc = inr out ->
  (col + length rest = length lt)%nat ->
  forall r, r ∈ out ->
    r ∈ acc \/ exists pos, (pos < length lt)%nat /\
                 record_at m ctx line_num lt pos (pattern_id r) r.
Proof.
  induction rest as [|c rest IH]; intros col cur acc out H Hlen r Hr; simpl in H.
  - injection H as <-. by left.
  - apply rbind_inr in H as ([cur' acc'] & H1 & H2). simpl in Hlen.
    destruct (IH _ _ _ _ H2 ltac:(lia) r Hr) as [Hin|Hrec]; [|by right].
    destruct (scan_symbol_records _ _ _ _ _ _ _ _ _ _ H1 r Hin) as [Hacc|Hrec];
      [by left|].
    right. exists col. split; [lia | done].
Qed.

Lemma scan_records m text ctx out :
  scan m text ctx = inr out ->
  forall r, r ∈ out ->
    exists k ln pos, lines_of m text !! k = Some ln /\ (pos < length ln)%nat /\
      record_at m ctx k ln pos (pattern_id r) r.
Proof.
  unfold scan. intros H r Hr.
  apply (scan_lines_elem _ _ _ _ _ H) in Hr as (k & ln & new & Hk & Hs & Hr).
  destruct (scan_line_records _ _ _ _ _ _ _ _ _ Hs ltac:(simpl; lia) r Hr)
    as [Hin|(pos & Hpos & Hrec)]; [by apply elem_of_nil in Hin|].
  exists k, ln, pos. done.
Qed.

(** ** Sizes of the lines *)

Lemma clean_text_length cs text : (length (clean_text cs text) <= length text)%nat.
Proof.
  induction text as [|c text IH]; simpl; [done|].
  repeat match goal with |- context [if ?b then _ else _] => destruct b end;
    simpl; lia.
Qed.

Lemma split_lines_from_bounds text : forall cur,
  (length (split_lines_from cur text) <= length cur + length text)%nat /\
  Forall (fun ln => (length ln <= length cur + length text)%nat)
         (split_lines_from cur text).
Proof.
  induction text as [|c text IH]; intros cur; simpl.
  - destruct cur as [|x cur]; simpl; [split; [lia | constructor]|].
    split; [lia|]. apply Forall_singleton.
    rewrite length_app, length_rev. simpl. lia.
  - destruct (code_of c =? NEWLINE).
    + destruct (IH []) as [Hn Hl]. simpl in *. split; [lia|].
      constructor; [rewrite length_rev; lia|].
      eapply Forall_impl; [exact Hl|]. simpl. intros; lia.
    + destruct (IH (c :: cur)) as [Hn Hl]. simpl in *. split; [lia|].
      eapply Forall_impl; [exact Hl|]. simpl. intros; lia.
Qed.

Lemma lines_of_bounds m text k ln :
  lines_of m text !! k = Some ln ->
  (k < length text)%nat /\ (length ln <= length text)%nat.
Proof.
  unfold lines_of, split_lines. intros Hk.
  destruct (split_lines_from_bounds (clean_text (case_sensitive_ m) text) [])
    as [Hn Hl].
  pose proof (clean_text_length (case_sensitive_ m) text) as Hc.
  pose proof (lookup_lt_Some _ _ _ Hk) as Hlt.
  pose proof (Forall_lookup_1 _ _ _ _ Hl Hk) as Hln.
  simpl in *. lia.
Qed.

(** ** The order of the records and std::sort *)

Lemma match_lt_false a b : match_lt b a = false <-> key_le a b.
Proof.
  unfold match_lt, key_le.
  destruct (Z.ltb_spec (line b) (line a)); [split; [done | lia]|].
  destruct (Z.ltb_spec (line a) (line b)); [split; [auto | done]|].
  destruct (Z.ltb_spec (column b) (column a)); [split; [done | lia]|].
  destruct (Z.ltb_spec (column a) (column b)); [split; [intros _; right; lia | done]|].
  destruct (Nat.ltb_spec (pattern_id b) (pattern_id a)); split; try done; lia.
Qed.

Lemma match_lt_asym a b : match_lt a b = true -> match_lt b a = false.
Proof.
  unfold match_lt.
  destruct (Z.ltb_spec (line a) (line b)), (Z.ltb_spec (line b) (line a));
    try lia; try done.
  destruct (Z.ltb_spec (column a) (column b)), (Z.ltb_spec (column b) (column a));
    try lia; try done.
  destruct (Nat.ltb_spec (pattern_id a) (pattern_id b)),
           (Nat.ltb_spec (pattern_id b) (pattern_id a)); try lia; done.
Qed.

Lemma key_le_trans a b c : key_le a b -> key_le b c -> key_le a c.
Proof. unfold key_le. lia. Qed.

Lemma key_le_antisym a b : key_le a b -> key_le b a -> same_key a b.
Proof. unfold key_le, same_key. lia. Qed.

Lemma sort_insert_perm x l : Permutation (x :: l) (sort_insert x l).
Proof.
  induction l as [|y l IH]; simpl; [done|].
  destruct (match_lt y x); [|done].
  rewrite <- IH. apply perm_swap.
Qed.

Lemma sort_matches_perm l : Permutation l (sort_matches l).
Proof.
  induction l as [|x l IH]; simpl; [done|].
  rewrite <- sort_insert_perm. by constructor.
Qed.

Lemma sort_insert_hdrel a x l :
  HdRel (fun a b => match_lt b a = false) a l -> match_lt x a = false ->
  HdRel (fun a b => match_lt b a = false) a (sort_insert x l).
Proof.
  intros Hl Hx. destruct l as [|y l]; simpl; [by constructor|].
  inversion Hl; subst. destruct (match_lt y x); by constructor.
Qed.

Lemma sort_insert_sorted x l :
  Sorted (fun a b => match_lt b a = false) l ->
  Sorted (fun a b => match_lt b a = false) (sort_insert x l).
Proof.
  induction 1 as [|y l Hs IH Hh]; simpl; [by repeat constructor|].
  destruct (match_lt y x) eqn:Hyx.
  - constructor; [done|]. apply sort_insert_hdrel; [done|]. by apply match_lt_asym.
  - constructor; [by constructor|]. by constructor.
Qed.

Lemma sort_matches_sorted l :
  Sorted (fun a b => match_lt b a = false) (sort_matches l).
Proof.
  induction l as [|x l IH]; simpl; [constructor|]. by apply sort_insert_sorted.
Qed.

Lemma sort_matches_result l : sorted_result l (sort_matches l).
Proof. split; [apply sort_matches_perm | apply sort_matches_sorted]. Qed.

Lemma search_returns_search m text ctx out :
  search m text ctx = inr out -> search_returns m text ctx out.
Proof.
  unfold search. intros H. apply rbind_inr in H as (collected & Hs & [= <-]).
  exists collected. split; [done|]. apply sort_matches_result.
Qed.

Lemma sorted_lookup (R : MatchResult -> MatchResult -> Prop) l :
  Sorted R l -> forall i a b, l !! i = Some a -> l !! S i = Some b -> R a b.
Proof.
  induction 1 as [|x l Hs IH Hh]; intros i a b Ha Hb; [done|].
  destruct i as [|i]; simpl in *.
  - injection Ha as <-. destruct l as [|y l]; [done|].
    injection Hb as <-. by inversion Hh.
  - by eapply IH.
Qed.

Lemma sorted_perm_unique l1 : forall l l2,
  (forall a b, a ∈ l -> b ∈ l -> same_key a b -> a = b) ->
  Permutation l l1 -> Permutation l l2 ->
  Sorted (fun a b => match_lt b a = false) l1 ->
  Sorted (fun a b => match_lt b a = false) l2 -> l1 = l2.
Proof.
  assert (Htr : Transitive (fun a b : MatchResult => match_lt b a = false)).
  { intros a b c Hab Hbc. apply match_lt_false in Hab, Hbc. apply match_lt_false.
    by eapply key_le_trans. }
  induction l1 as [|a l1 IH]; intros l l2 Hinj H1 H2 S1 S2.
  - apply Permutation_sym, Permutation_nil in H1. subst l.
    by apply Permutation_nil in H2.
  - destruct l2 as [|b l2].
    { apply Permutation_sym, Permutation_nil in H2. subst l.
      by apply Permutation_nil in H1. }
    assert (H12 : Permutation (a :: l1) (b :: l2)) by (by rewrite <- H1).
    apply Sorted_StronglySorted in S1, S2; [|done..].
    apply StronglySorted_inv in S1 as [S1 F1].
    apply StronglySorted_inv in S2 as [S2 F2].
    assert (Hab : a = b).
    { assert (Ha : a ∈ b :: l2) by (rewrite <- H12; apply elem_of_cons; by left).
      assert (Hb : b ∈ a :: l1) by (rewrite H12; apply elem_of_cons; by left).
      apply elem_of_cons in Ha as [Ha|Ha]; [done|].
      apply elem_of_cons in Hb as [Hb|Hb]; [done|].
      apply Hinj.
      - rewrite H1. apply elem_of_cons. by left.
      - rewrite H2. apply elem_of_cons. by left.
      - apply key_le_antisym; apply match_lt_false.
        + by apply (proj1 (Forall_forall _ _) F1).
        + by apply (proj1 (Forall_forall _ _) F2). }
    subst b. f_equal. apply Permutation_cons_inv in H12.
    apply (IH l1); [|done|done|by apply StronglySorted_Sorted..].
    intros x y Hx Hy. apply Hinj; rewrite H1; apply elem_of_cons; by right.
Qed.

Lemma size_add_small a b : 0 <= a + b < SIZE_MOD -> size_add a b = a + b.
Proof. intros H. unfold size_add. by apply Z.mod_small. Qed.

Lemma column_mod pos len :
  size_add (size_sub (size_add pos 1) len) 1 = (pos + 1 - len + 1) mod SIZE_MOD.
Proof.
  unfold size_add, size_sub. rewrite Zplus_mod_idemp_l.
  replace ((pos + 1) mod SIZE_MOD - len + 1)
    with ((pos + 1) mod SIZE_MOD + (1 - len)) by lia.
  rewrite Zplus_mod_idemp_l. f_equal. lia.
Qed.

Lemma column_inj pos1 pos2 len :
  0 <= pos1 < SIZE_MOD -> 0 <= pos2 < SIZE_MOD ->
  size_add (size_sub (size_add pos1 1) len) 1
  = size_add (size_sub (size_add pos2 1) len) 1 ->
  pos1 = pos2.
Proof.
  intros H1 H2. rewrite !column_mod. intros E.
  assert (E' : ((pos1 + 1 - len + 1) mod SIZE_MOD + (len - 2)) mod SIZE_MOD
             = ((pos2 + 1 - len + 1) mod SIZE_MOD + (len - 2)) mod SIZE_MOD)
    by (by rewrite E).
  rewrite !Zplus_mod_idemp_l in E'.
  replace (pos1 + 1 - len + 1 + (len - 2)) with pos1 in E' by lia.
  replace (pos2 + 1 - len + 1 + (len - 2)) with pos2 in E' by lia.
  by rewrite !Z.mod_small in E' by done.
Qed.

Lemma record_line m ctx k ln pos id r :
  record_at m ctx k ln pos id r -> line r = size_add (Z.of_nat k) 1 /\ pattern_id r = id.
Proof. intros (pat & c & _ & _ & ->). done. Qed.

Lemma scan_key_inj m text ctx out :
  Z.of_nat (length text) < SIZE_MOD -> scan m text ctx = inr out ->
  forall a b, a ∈ out -> b ∈ out -> same_key a b -> a = b.
Proof.
  intros Hlen Hs a b Ha Hb (Hl & Hc & Hi).
  destruct (scan_records _ _ _ _ Hs a Ha) as (k1 & ln1 & p1 & Hk1 & Hp1 & Hr1).
  destruct (scan_records _ _ _ _ Hs b Hb) as (k2 & ln2 & p2 & Hk2 & Hp2 & Hr2).
  destruct (lines_of_bounds _ _ _ _ Hk1) as [Hkb1 Hlb1].
  destruct (lines_of_bounds _ _ _ _ Hk2) as [Hkb2 Hlb2].
  destruct Hr1 as (pat1 & c1 & Hpat1 & Hc1 & Ea).
  destruct Hr2 as (pat2 & c2 & Hpat2 & Hc2 & Eb).
  rewrite Ea, Eb in Hl, Hc, Hi. simpl in Hl, Hc, Hi.
  rewrite <- Hi in Hpat2. rewrite <- Hi in Eb. clear Hi.
  assert (pat2 = pat1) by congruence. subst pat2.
  rewrite !size_add_small in Hl by lia.
  assert (k2 = k1) by lia. subst k2.
  assert (ln2 = ln1) by congruence. subst ln2.
  apply column_inj in Hc; [|lia..].
  assert (p2 = p1) by lia. subst p2.
  assert (c2 = c1) by congruence. subst c2.
  by rewrite Ea, Eb.
Qed.

(** ** Walking the output links *)

Lemma output_walk_ok h :
  links_ok h ->
  forall fuel a, (a < length h)%nat -> dep h a < Z.of_nat fuel ->
    exists walk, output_walk fuel h (Some a) = inr walk /\
      walk !! 0%nat = Some a /\
      forall i x y, walk !! i = Some x -> walk !! S i = Some y -> dep h y < dep h x.
Proof.
  intros Hok. induction fuel as [|fuel IH]; intros a Ha Hfuel.
  - pose proof (dep_nonneg h a (lk_wf _ Hok)). lia.
  - simpl. destruct (deref_lt _ _ Ha) as (nd & -> & Hnd). simpl.
    destruct (output_link nd) as [o|] eqn:Ho.
    + assert (Hol : olink h a = Some o) by (unfold olink; by rewrite Hnd).
      destruct (lk_ol _ Hok _ _ Hol) as (Hov & _ & Hod).
      destruct (IH o Hov) as (walk & -> & Hhd & Hdec); [lia|].
      simpl. exists (a :: walk). split; [done|]. split; [done|].
      intros [|i] x y Hx Hy; simpl in *.
      * injection Hx as <-. rewrite Hhd in Hy. by injection Hy as <-.
      * by eapply Hdec.
    + exists [a]. destruct fuel; simpl; (split; [done|]); (split; [done|]);
        intros [|i] x y Hx Hy; done.
Qed.

(** ** The matches of a line depend on that line only *)

Lemma search_elem m text ctx out :
  search m text ctx = inr out ->
  forall r, r ∈ out <->
    exists k ln new, lines_of m text !! k = Some ln /\
      scan_line m ctx k ln 0%nat ln root [] = inr new /\ r ∈ new.
Proof.
  unfold search. intros H r. apply rbind_inr in H as (collected & Hs & [= <-]).
  rewrite <- (sort_matches_perm collected).
  apply (scan_lines_elem _ _ _ 0%nat _ Hs).
Qed.

Lemma scan_line_line m ctx k ln new r :
  scan_line m ctx k ln 0%nat ln root [] = inr new -> r ∈ new ->
  line r = size_add (Z.of_nat k) 1.
Proof.
  intros Hs Hr.
  destruct (scan_line_records _ _ _ _ _ _ _ _ _ Hs ltac:(simpl; lia) r Hr)
    as [Hin|(pos & _ & Hrec)]; [by apply elem_of_nil in Hin|].
  by destruct (record_line _ _ _ _ _ _ _ Hrec).
Qed.

Lemma line_transfer m t1 t2 ctx out1 out2 k ln r :
  Z.of_nat (length t1) < SIZE_MOD ->
  search m t1 ctx = inr out1 -> search m t2 ctx = inr out2 ->
  lines_of m t1 !! k = Some ln -> lines_of m t2 !! k = Some ln ->
  line r = Z.of_nat k + 1 -> r ∈ out1 -> r ∈ out2.
Proof.
  intros Hlen H1 H2 Hk1 Hk2 Hl Hr.
  apply (search_elem _ _ _ _ H1) in Hr as (j & ln' & new & Hj & Hs & Hr).
  pose proof (scan_line_line _ _ _ _ _ _ Hs Hr) as Hl'.
  destruct (lines_of_bounds _ _ _ _ Hj) as [Hjb _].
  destruct (lines_of_bounds _ _ _ _ Hk1) as [Hkb _].
  rewrite size_add_small in Hl' by lia.
  assert (j = k) by lia. subst j.
  assert (ln' = ln) by congruence. subst ln'.
  apply (search_elem _ _ _ _ H2). exists k, ln, new. done.
Qed.

(** ** The context of a match *)

Lemma context_start_spec pos len size :
  0 <= pos -> pos + 1 < SIZE_MOD -> 0 <= len ->
  context_start pos len size = spec_context_start pos len size.
Proof.
  intros Hp Hp1 Hl. unfold context_start, spec_context_start.
  rewrite size_add_small by lia.
  destruct (pos + 1 >? len) eqn:E; [|done].
  zbool. apply Z.ltb_lt in E. unfold size_sub. rewrite Z.mod_small by lia. done.
Qed.

Lemma context_end_spec pos ctx size :
  0 <= pos + ctx < SIZE_MOD ->
  context_end pos ctx size = spec_context_end pos ctx size.
Proof.
  intros H. unfold context_end, spec_context_end. by rewrite size_add_small.
Qed.

Lemma spec_context_order pos len ctx size :
  0 <= pos < size -> 0 <= len -> 0 <= ctx ->
  0 <= spec_context_start pos len size <= spec_context_end pos ctx size /\
  spec_context_end pos ctx size <= size.
Proof.
  intros Hp Hl Hc. unfold spec_context_start, spec_context_end.
  destruct (pos + 1 >? len) eqn:E; zbool; [apply Z.ltb_lt in E|]; lia.
Qed.

Lemma substr_slice s start end_ :
  0 <= start <= end_ -> end_ <= Z.of_nat (length s) ->
  Z.of_nat (length s) < SIZE_MOD ->
  substr s start (size_sub end_ start) = inr (slice s start end_).
Proof.
  intros H1 H2 H3. unfold substr, slice.
  destruct (start >? Z.of_nat (length s)) eqn:E; [zbool; lia|].
  unfold size_sub. rewrite Z.mod_small by lia.
  by rewrite Z.min_l by lia.
Qed.

(** ** The reported matches are occurrences *)

Lemma spells_inj h : trie_wf h ->
  forall w w' a, spells h w a -> spells h w' a -> w = w'.
Proof.
  intros Hwf w. induction w as [|i w IH] using rev_ind; intros w' a Hw Hw'.
  - injection Hw as <-. destruct w' as [|j w' _] using rev_ind; [done|].
    apply walk_from_snoc in Hw' as (p & _ & Hk).
    destruct (wf_kid _ Hwf _ _ _ Hk) as [Hlt _]. unfold root in Hlt. lia.
  - apply walk_from_snoc in Hw as (p & Hp & Hk).
    destruct (spells_snoc_inv _ _ _ _ _ Hwf Hw' Hk) as (wp & -> & Hwp).
    f_equal. by eapply IH.
Qed.

Lemma initialize_pats m ps m' :
  initialize m ps = (inr tt, m') ->
  pats_inv (case_sensitive_ m') (patterns_ m') (cells m').
Proof.
  unfold initialize. destruct ps as [|p ps]; [discriminate|].
  set (m1 := mkMatcher _ _ _ _ _ _). unfold build_trie.
  destruct (build_trie_from (clear_trie m1) 0 (patterns_ (clear_trie m1)))
    as [e|m3] eqn:Hb; [discriminate|].
  pose proof (trie_ok_clear m1) as Hok0.
  destruct (build_trie_from_ok (clear_trie m1) 0 (patterns_ (clear_trie m1)) Hok0)
    as (m3' & Hb' & Hok3 & Hc3).
  { by eapply build_trie_from_idx. }
  assert (m3' = m3) by congruence. subst m3'.
  assert (HI3 : pats_inv (case_sensitive_ (clear_trie m1)) (patterns_ (clear_trie m1))
                         (cells m3)).
  { apply (build_trie_from_pats (patterns_ (clear_trie m1)) (clear_trie m1) 0%nat m3
             Hok0); [done | | done].
    intros a i Hi. unfold pats, clear_trie in Hi.
    destruct a as [|a]; simpl in Hi; by apply elem_of_nil in Hi. }
  destruct (build_failure_links_ok _ m3 Hok3)
    as (m4 & Hl & _ & _ & Hc4 & _ & _ & Hp4 & Hk4).
  rewrite Hl. intros [= <-].
  destruct Hc3 as (Hp3 & _ & Hs3), Hc4 as (Hp4' & _ & Hs4).
  rewrite Hp4', Hs4, Hp3, Hs3.
  intros a i. rewrite Hp4. intros Hi.
  destruct (HI3 a i Hi) as (raw & ? & ? & Hsp). exists raw.
  split; [done|]. split; [done|]. unfold spells.
  by rewrite (walk_from_ext (cells m3) (cells m4) Hk4).
Qed.

Lemma follow_failure_exit fuel : forall h p i g,
  follow_failure fuel h p i = inr g ->
  g = root \/ exists nd c, h !! g = Some nd /\ child nd i = inr (Some c).
Proof.
  induction fuel as [|fuel IH]; intros h p i g H; simpl in H; [done|].
  destruct p as [a|]; [|done]. destruct (Nat.eqb a root) eqn:E.
  - injection H as <-. left. by apply Nat.eqb_eq.
  - apply rbind_inr in H as (nd & Hnd & H).
    apply rbind_inr in H as (ch & Hch & H). destruct ch as [c|].
    + injection H as <-. right. exists nd, c. split; [by apply deref_inr | done].
    + by eapply IH.
Qed.

Lemma emit_match_id m acc ln col lt pos ctx id out :
  emit_match m acc ln col lt pos ctx id = inr out ->
  exists r, out = acc ++ [r] /\ pattern_id r = id.
Proof.
  unfold emit_match. destruct (patterns_ m !! id) as [pat|]; [|done].
  intros H. apply rbind_inr in H as (c & _ & [= <-]). eauto.
Qed.

Lemma emit_matches_ids m ln col lt pos ctx ids : forall acc out,
  emit_matches m acc ln col lt pos ctx ids = inr out ->
  forall r, r ∈ out -> r ∈ acc \/ pattern_id r ∈ ids.
Proof.
  induction ids as [|id ids IH]; intros acc out H r Hr; simpl in H.
  - injection H as <-. by left.
  - apply rbind_inr in H as (acc' & H1 & H2).
    apply emit_match_id in H1 as (r1 & -> & Hid).
    destruct (IH _ _ H2 r Hr) as [Hin|Hin].
    + apply elem_of_app in Hin as [Hin|Hin]; [by left|].
      apply list_elem_of_singleton in Hin. subst r1. right.
      rewrite Hid. apply elem_of_cons. by left.
    + right. apply elem_of_cons. by right.
Qed.

Lemma collect_matches_ids m ln col lt pos ctx :
  links_ok (cells m) ->
  forall fuel t acc out,
    collect_matches fuel m (Some t) acc ln col lt pos ctx = inr out ->
    forall r, r ∈ out ->
      r ∈ acc \/ exists o, pattern_id r ∈ pats (cells m) o /\ sfx (cells m) o t.
Proof.
  intros Hok. induction fuel as [|fuel IH]; intros t acc out H r Hr; simpl in H;
    [done|].
  apply rbind_inr in H as (nd & Hnd & H). apply deref_inr in Hnd.
  apply rbind_inr in H as (acc' & H1 & H2).
  assert (Hhere : r ∈ acc' ->
    r ∈ acc \/ exists o, pattern_id r ∈ pats (cells m) o /\ sfx (cells m) o t).
  { intros Hin. destruct (emit_matches_ids _ _ _ _ _ _ _ _ _ H1 r Hin) as [?|Hid];
      [by left|].
    right. exists t. split; [|apply sfx_refl]. unfold pats. by rewrite Hnd. }
  destruct (output_link nd) as [o|] eqn:Ho.
  - assert (Hol : olink (cells m) t = Some o) by (unfold olink; by rewrite Hnd).
    destruct (IH _ _ _ H2 r Hr) as [Hin|(o' & Hid & Hs)]; [by apply Hhere|].
    right. exists o'. split; [done|]. eapply sfx_trans; [exact Hs|].
    by apply (lk_ol_sfx _ Hok).
  - destruct fuel; simpl in H2; injection H2 as <-; by apply Hhere.
Qed.

Lemma word_of_snoc s c : word_of (s ++ [c]) = word_of s ++ [code_nat c].
Proof. unfold word_of. by rewrite map_app. Qed.

Lemma at_suffix_root h s : at_suffix h root s.
Proof. exists []. split; [done | apply suffix_nil]. Qed.

Lemma at_suffix_sfx h g cur s : sfx h g cur -> at_suffix h cur s -> at_suffix h g s.
Proof.
  intros Hs (w & Hw & Hsw). destruct (Hs w Hw) as (wg & Hwg & Hsg).
  exists wg. split; [done | by etrans].
Qed.

(* One turn of the scan: the word of the new state is a suffix of the
   codes read so far, and every new record carries the id of a pattern
   whose routed form is a suffix of them too. *)
Lemma scan_symbol_sound m ctx line_num lt col c cur acc cur' out s :
  links_ok (cells m) ->
  pats_inv (case_sensitive_ m) (patterns_ m) (cells m) ->
  (cur < length (cells m))%nat -> idx_ok c -> at_suffix (cells m) cur s ->
  scan_symbol m ctx line_num lt col c cur acc = inr (cur', out) ->
  (cur' < length (cells m))%nat /\ at_suffix (cells m) cur' (s ++ [c]) /\
  forall r, r ∈ out ->
    r ∈ acc \/
    (record_at m ctx line_num lt col (pattern_id r) r /\
     exists raw, patterns_ m !! pattern_id r = Some raw /\
       clean_text (case_sensitive_ m) raw <> [] /\
       word_of (clean_text (case_sensitive_ m) raw) `suffix_of` word_of (s ++ [c])).
Proof.
  intros Hok HI Hcur Hc Hat Hs.
  pose proof (lk_wf _ Hok) as Hwf.
  pose proof (scan_symbol_records _ _ _ _ _ _ _ _ _ _ Hs) as Hrec.
  unfold scan_symbol in Hs.
  destruct (char_to_index c =? -1) eqn:Hidx.
  { apply Z.eqb_eq in Hidx. apply idx_ok_iff in Hc. done. }
  destruct (follow_failure_links (cells m) (char_to_index c) (length (cells m)) cur)
    as (g & Hg & Hgl & Hgs); [done | done | done | by apply dep_lt_length |].
  pose proof (follow_failure_exit _ _ _ _ _ Hg) as Hexit.
  rewrite Hg in Hs. simpl in Hs.
  destruct (deref_lt _ _ Hgl) as (nd & Hd & Hnd). rewrite Hd in Hs. simpl in Hs.
  destruct (child_total _ _ _ _ Hwf Hnd Hc) as (ch & Hch & Hch'). rewrite Hch in Hs.
  simpl in Hs.
  set (node' := match ch with Some k => k | None => g end) in *.
  assert (Hn' : (node' < length (cells m))%nat /\ at_suffix (cells m) node' (s ++ [c])).
  { subst node'. destruct ch as [k|].
    - pose proof (kid_of_child _ _ _ _ _ Hnd Hch') as Hk.
      destruct (kid_valid _ _ _ _ Hwf Hk) as (_ & ? & _). split; [done|].
      destruct (at_suffix_sfx _ _ _ _ Hgs Hat) as (w & Hw & Hsw).
      exists (w ++ [code_nat c]). split.
      + apply walk_from_snoc. eauto.
      + rewrite word_of_snoc. by apply suffix_app.
    - split; [done|]. destruct Hexit as [->|(nd0 & c0 & Hnd0 & Hc0)].
      + apply at_suffix_root.
      + assert (nd0 = nd) by congruence. subst nd0. congruence. }
  destruct Hn' as [Hn'l Hn'a]. split; [|split].
  - destruct (deref (cells m) node') as [e|nd'] eqn:Hd'; [done|]. simpl in Hs.
    destruct (pattern_indices nd'); [by injection Hs as <- _|].
    apply rbind_inr in Hs as (acc' & _ & [= <- _]). done.
  - destruct (deref (cells m) node') as [e|nd'] eqn:Hd'; [done|]. simpl in Hs.
    destruct (pattern_indices nd'); [by injection Hs as <- _|].
    apply rbind_inr in Hs as (acc' & _ & [= <- _]). done.
  - intros r Hr. destruct (Hrec r Hr) as [?|Hra]; [by left|].
    destruct (deref (cells m) node') as [e|nd'] eqn:Hd'; [done|]. simpl in Hs.
    destruct (pattern_indices nd') eqn:Hp.
    { injection Hs as _ <-. by left. }
    apply rbind_inr in Hs as (acc' & Hcm & [= _ <-]).
    destruct (collect_matches_ids _ _ _ _ _ _ Hok _ _ _ _ Hcm r Hr)
      as [?|(o & Hid & Hso)]; [by left|].
    right. split; [done|].
    destruct (HI o _ Hid) as (raw & Hraw & Hne & Hsp).
    exists raw. split; [done|]. split; [done|].
    destruct Hn'a as (w & Hw & Hsw). destruct (Hso w Hw) as (wo & Hwo & Hswo).
    rewrite (spells_inj _ Hwf _ _ _ Hsp Hwo). by etrans.
Qed.

Lemma scan_line_sound m ctx line_num lt :
  links_ok (cells m) ->
  pats_inv (case_sensitive_ m) (patterns_ m) (cells m) ->
  forall rest pre cur acc out,
    lt = pre ++ rest -> Forall idx_ok rest ->
    (cur < length (cells m))%nat -> at_suffix (cells m) cur pre ->
    scan_line m ctx line_num lt (length pre) rest cur acc = inr out ->
    forall r, r ∈ out ->
      r ∈ acc \/
      exists pos raw, (pos < length lt)%nat /\
        record_at m ctx line_num lt pos (pattern_id r) r /\
        patterns_ m !! pattern_id r = Some raw /\
        clean_text (case_sensitive_ m) raw <> [] /\
        word_of (clean_text (case_sensitive_ m) raw)
          `suffix_of` word_of (take (S pos) lt).
Proof.
  intros Hok HI.
  induction rest as [|c rest IH]; intros pre cur acc out Hlt Hidx Hcur Hat H r Hr;
    simpl in H.
  - injection H as <-. by left.
  - apply rbind_inr in H as ([cur' acc'] & Hs & Hl).
    inversion Hidx as [|? ? Hc Hrest]; subst.
    destruct (scan_symbol_sound _ _ _ _ _ _ _ _ _ _ pre Hok HI Hcur Hc Hat Hs)
      as (Hcur' & Hat' & Hrec).
    assert (Hlen : S (length pre) = length (pre ++ [c]))
      by (rewrite length_app; simpl; lia).
    rewrite Hlen in Hl.
    destruct (IH (pre ++ [c]) cur' acc' out) with (r := r) as [Hin|Hnew];
      [by rewrite <- app_assoc | done | done | done | done | done | | by right].
    destruct (Hrec r Hin) as [?|(Hra & raw & Hraw & Hne & Hsfx)]; [by left|].
    right. exists (length pre), raw.
    split; [rewrite length_app; simpl; lia|].
    split; [done|]. split; [done|]. split; [done|].
    replace (pre ++ c :: rest) with ((pre ++ [c]) ++ rest) by (by rewrite <- app_assoc).
    by rewrite (take_app_length' (pre ++ [c]) rest).
Qed.

(** ** The symbols of the normalized lines *)

Lemma clean_text_class cs text :
  Forall (fun c => (idx_ok c /\ (cs = false -> lowerish c)) \/ code_of c = NEWLINE)
         (clean_text cs text).
Proof.
  induction text as [|c text IH]; simpl; [constructor|].
  pose proof (code_of_bound c) as Hb.
  destruct (isalpha (code_of c)) eqn:Ha.
  - constructor; [|done]. left. destruct cs.
    + split; [|done]. apply idx_ok_iff.
      destruct (char_to_index_cases c) as [[? ->]|[[? ->]|[[Hx ->]|[[Hx ->]|(_ & _ & Hn & _)]]]];
        unfold is_lower, is_upper in *; zbool; try lia. congruence.
    + assert (Hl : is_lower (tolower (code_of c)) = true).
      { unfold tolower, isalpha, is_lower, is_upper in *.
        destruct ((65 <=? code_of c) && (code_of c <=? 90)) eqn:E; zbool;
          apply andb_true_iff; split; apply Z.leb_le; lia. }
      assert (Hb' : 0 <= tolower (code_of c) < 256).
      { unfold is_lower in Hl. zbool. lia. }
      split.
      * apply idx_ok_iff.
        destruct (char_to_index_cases (char_of (tolower (code_of c))))
          as [[? ->]|[[? ->]|[[Hx ->]|[[Hx ->]|(_ & _ & Hn & _)]]]];
          rewrite ?code_char in * by done; unfold is_lower, is_upper in *; zbool;
          try lia.
        unfold isalpha, is_lower, is_upper in Hn. zbool; lia.
      * intros _. left. by rewrite code_char.
  - destruct ((code_of c =? SPACE) || (code_of c =? HYPHEN) || (code_of c =? NEWLINE)) eqn:Hs.
    + constructor; [|done]. zbool.
      * left. split; [|intros _; right; by left]. apply idx_ok_iff.
        destruct (char_to_index_cases c) as [[? ->]|[[? ->]|[[Hx ->]|[[Hx ->]|(? & ? & _ & _)]]]];
          try lia; unfold isalpha in Ha; zbool; congruence.
      * left. split; [|intros _; right; by right]. apply idx_ok_iff.
        destruct (char_to_index_cases c) as [[? ->]|[[? ->]|[[Hx ->]|[[Hx ->]|(? & ? & _ & _)]]]];
          try lia; unfold isalpha in Ha; zbool; congruence.
      * by right.
    + destruct (code_of c =? TAB); [|done].
      constructor; [|done]. left. split; [by vm_compute|].
      intros _. right. left. by vm_compute.
Qed.

Lemma split_lines_from_Forall (P : ascii -> Prop) text : forall cur,
  Forall (fun c => P c \/ code_of c = NEWLINE) text -> Forall P cur ->
  Forall (Forall P) (split_lines_from cur text).
Proof.
  induction text as [|c text IH]; intros cur Ht Hc; simpl.
  - destruct cur as [|x cur]; [constructor|].
    apply Forall_singleton. by apply Forall_rev.
  - inversion Ht as [|? ? Hx Hrest]; subst.
    destruct (code_of c =? NEWLINE) eqn:E.
    + constructor; [by apply Forall_rev | by apply IH].
    + apply IH; [done|]. constructor; [|done].
      destruct Hx as [?|Hx]; [done|]. apply Z.eqb_neq in E. done.
Qed.

Lemma lines_of_class m text k ln :
  lines_of m text !! k = Some ln ->
  Forall (fun c => idx_ok c /\ (case_sensitive_ m = false -> lowerish c)) ln.
Proof.
  intros Hk. unfold lines_of, split_lines in Hk.
  eapply (Forall_lookup_1 _ _ _ _ _ Hk). Unshelve.
  apply split_lines_from_Forall; [apply clean_text_class | constructor].
Qed.

Lemma code_nat_inj c1 c2 :
  lowerish c1 -> lowerish c2 -> code_nat c1 = code_nat c2 -> c1 = c2.
Proof.
  intros H1 H2 E. rewrite <- (char_code c1), <- (char_code c2). f_equal.
  unfold code_nat in E.
  pose proof (code_of_bound c1). pose proof (code_of_bound c2).
  unfold lowerish, is_lower, SPACE, HYPHEN in *.
  destruct (char_to_index_cases c1) as [[? E1]|[[? E1]|[[? E1]|[[? E1]|(? & ? & Hn1 & _)]]]];
  destruct (char_to_index_cases c2) as [[? E2]|[[? E2]|[[? E2]|[[? E2]|(? & ? & Hn2 & _)]]]];
    rewrite ?E1, ?E2 in E; unfold isalpha, is_lower, is_upper, SPACE, HYPHEN in *;
    destruct H1 as [?|[?|?]]; destruct H2 as [?|[?|?]]; zbool; lia.
Qed.

Lemma word_of_inj s1 : forall s2,
  Forall lowerish s1 -> Forall lowerish s2 -> word_of s1 = word_of s2 -> s1 = s2.
Proof.
  induction s1 as [|c1 s1 IH]; intros [|c2 s2] H1 H2 E; simpl in E; try done.
  inversion H1; inversion H2; subst. injection E as Ec Es.
  f_equal; [by apply code_nat_inj | by apply IH].
Qed.

Lemma word_suffix p s :
  Forall lowerish p -> Forall lowerish s ->
  word_of p `suffix_of` word_of s -> p `suffix_of` s.
Proof.
  intros Hp Hs (k & E).
  assert (Hlen : length s = (length k + length p)%nat).
  { apply (f_equal length) in E. unfold word_of in E.
    by rewrite length_app, !length_map in E. }
  exists (take (length k) s).
  rewrite <- (take_drop (length k) s) at 1. f_equal.
  apply word_of_inj; [by apply Forall_drop | done|].
  unfold word_of in *. rewrite <- skipn_map, E. by rewrite drop_app_length.
Qed.

Lemma newline_not_idx_ok c : code_of c = NEWLINE -> ~ idx_ok c.
Proof.
  intros Hc Hi. apply idx_ok_iff in Hi. apply Hi.
  destruct (char_to_index_cases c) as [[? ?]|[[? ?]|[[Hx ?]|[[Hx ?]|(_ & _ & _ & ?)]]]];
    try done; unfold SPACE, HYPHEN, NEWLINE, is_lower, is_upper in *; zbool; lia.
Qed.

Lemma clean_text_lowerish raw :
  Forall idx_ok (clean_text false raw) -> Forall lowerish (clean_text false raw).
Proof.
  intros Hi. pose proof (clean_text_class false raw) as Hc.
  apply Forall_forall. intros c Hin.
  pose proof (proj1 (Forall_forall _ _) Hi c Hin) as Hic.
  destruct (proj1 (Forall_forall _ _) Hc c Hin) as [[_ Hl]|Hn]; [by apply Hl|].
  by destruct (newline_not_idx_ok c Hn).
Qed.

Lemma not_infix_He_he : ~ exists pre post, str "he" = pre ++ str "He" ++ post.
Proof.
  intros (pre & post & E).
  destruct pre as [|a [|b [|c pre]]]; simpl in E; discriminate.
Qed.

(** ** The lines of the text and the place of a record *)

Lemma newline_code c : code_of c = NEWLINE <-> c = newline.
Proof.
  split; [|intros ->; by vm_compute].
  intros Hc. unfold newline. rewrite <- Hc. symmetry. apply char_code.
Qed.

Lemma split_lines_from_join text : forall cur,
  Forall (fun c => code_of c <> NEWLINE) cur ->
  concat (map (fun l => l ++ [newline]) (split_lines_from cur text))
  = rev cur ++ text ++
    match last (rev cur ++ text) with
    | Some c => if code_of c =? NEWLINE then [] else [newline]
    | None => []
    end.
Proof.
  induction text as [|c text IH]; intros cur Hcur; simpl.
  - rewrite app_nil_r. destruct cur as [|x cur]; [done|]. simpl.
    rewrite last_snoc. inversion Hcur as [|? ? Hx _]; subst.
    apply Z.eqb_neq in Hx. rewrite Hx. by rewrite !app_nil_r.
  - destruct (code_of c =? NEWLINE) eqn:E.
    + simpl. rewrite (IH []) by constructor. simpl.
      apply Z.eqb_eq, newline_code in E. subst c.
      rewrite <- !app_assoc. simpl. do 3 f_equal.
      destruct text as [|d text]; simpl.
      * rewrite last_snoc. done.
      * by rewrite last_app_cons, last_cons_cons.
    + rewrite (IH (c :: cur)).
      * simpl. by rewrite <- !app_assoc.
      * constructor; [by apply Z.eqb_neq | done].
Qed.

Lemma lines_of_join m text :
  concat (map (fun l => l ++ [newline]) (lines_of m text))
  = clean_text (case_sensitive_ m) text ++
    match last (clean_text (case_sensitive_ m) text) with
    | Some c => if code_of c =? NEWLINE then [] else [newline]
    | None => []
    end.
Proof.
  unfold lines_of, split_lines.
  by rewrite (split_lines_from_join (clean_text (case_sensitive_ m) text) []).
Qed.

Lemma lines_of_symbols m text :
  Forall (Forall (fun c => code_of c <> NEWLINE /\ idx_ok c)) (lines_of m text).
Proof.
  apply Forall_forall. intros ln Hln. apply list_elem_of_lookup in Hln as [k Hk].
  eapply Forall_impl; [exact (lines_of_class _ _ _ _ Hk)|].
  intros c [Hc _]. split; [|done]. intros Hn. by apply (newline_not_idx_ok c).
Qed.

(* A record of an initialized matcher stands for an occurrence of its
   pattern that ends at an index of its line. *)
Lemma search_occurrence m0 ps m text ctx out r :
  initialize m0 ps = (inr tt, m) -> Z.of_nat (length text) < SIZE_MOD ->
  search m text ctx = inr out -> r ∈ out ->
  exists k ln pos raw,
    lines_of m text !! k = Some ln /\ (pos < length ln)%nat /\
    line r = Z.of_nat k + 1 /\ ps !! pattern_id r = Some raw /\ pattern r = raw /\
    clean_text (case_sensitive_ m) raw <> [] /\
    word_of (clean_text (case_sensitive_ m) raw) `suffix_of` word_of (take (S pos) ln) /\
    (case_sensitive_ m = false -> clean_text false raw `suffix_of` take (S pos) ln).
Proof.
  intros Hinit Hlen Hs Hr.
  destruct (initialize_inv _ _ _ Hinit) as [Hne Hcl].
  destruct (initialize_ok m0 ps Hne Hcl) as (m' & Hinit' & Hok & _ & Hps & _ & Hcs).
  assert (m' = m) by congruence. subst m'.
  pose proof (initialize_pats _ _ _ Hinit) as HI.
  apply (search_elem _ _ _ _ Hs) in Hr as (k & ln & new & Hk & Hsl & Hr).
  destruct (lines_of_bounds _ _ _ _ Hk) as [Hkb Hlb].
  pose proof (lines_of_class _ _ _ _ Hk) as Hclass.
  destruct (scan_line_sound m ctx k ln Hok HI ln [] root [] new) with (r := r)
    as [Hin|(pos & raw & Hpos & Hrec & Hraw & Hnn & Hsfx)];
    [done | | apply (wf_root _ (lk_wf _ Hok)) | apply at_suffix_root | done | done
    | by apply elem_of_nil in Hin |].
  { eapply Forall_impl; [exact Hclass|]. by intros c [? _]. }
  destruct Hrec as (pat & c & Hpat & Hc & Er).
  assert (pat = raw) by congruence. subst pat.
  exists k, ln, pos, raw. rewrite Er. simpl.
  split; [done|]. split; [done|]. split; [apply size_add_small; lia|].
  split; [by rewrite <- Hps|]. split; [done|]. split; [done|]. split; [done|].
  intros Hf. rewrite Hf in Hsfx. apply word_suffix; [| |done].
  - apply clean_text_lowerish. rewrite Hcs in Hf. rewrite Hf in Hcl.
    apply (proj1 (Forall_forall _ _) Hcl raw).
    rewrite <- Hps. apply list_elem_of_lookup. eauto.
  - apply Forall_take. eapply Forall_impl; [exact Hclass|].
    intros x [_ Hx]. by apply Hx.
Qed.

(* What ends at an index of a line stands inside the line. *)
Lemma suffix_take_inside {A} (w s : list A) n :
  w `suffix_of` take n s -> exists pre post, s = pre ++ w ++ post.
Proof.
  intros (pre & E). exists pre, (drop n s).
  by rewrite app_assoc, <- E, take_drop.
Qed.

Lemma word_of_take n s : word_of (take n s) = take n (word_of s).
Proof. unfold word_of. by rewrite <- firstn_map. Qed.

(** * The claims *)

(** ** Completeness of the scan (C1) *)

(** C1, the code at the failing input: for the patterns "he", "she", "hers"
    and the text "ushers" search returns the three matches of the
    specification; for the patterns "he", "shers" and the text "she" the
    scan ends in a state without patterns of its own whose output link
    leads to the state of "he", and search returns no match, although "he"
    ends at column 3. *)
Theorem output_chain_needs_terminal_state :
  search ushers_matcher (str "ushers") 20 = inr ushers_matches /\
  exists s1 s2 s3 t,
    scan_symbol shers_matcher 20 0 (str "she") 0 "s"%char root [] = inr (s1, []) /\
    scan_symbol shers_matcher 20 0 (str "she") 1 "h"%char s1 [] = inr (s2, []) /\
    scan_symbol shers_matcher 20 0 (str "she") 2 "e"%char s2 [] = inr (s3, []) /\
    pats (cells shers_matcher) s3 = [] /\
    olink (cells shers_matcher) s3 = Some t /\
    pats (cells shers_matcher) t = [0%nat] /\
    patterns_ shers_matcher !! 0%nat = Some (str "he") /\
    search shers_matcher (str "she") 20 = inr [].
Proof.
  split; [vm_compute; reflexivity|].
  exists 3%nat, 4%nat, 5%nat, 2%nat. repeat split; vm_compute; reflexivity.
Qed.

(** ** Positions of the reported matches (C2) *)

(** C2, the code at the failing inputs: in the case-sensitive matcher the
    pattern "He", whose normalized form is "He", is reported at column 1 of
    the line "he", where that form does not occur; and for the pattern
    "h33e", whose normalized form "he" ends at column 2 of the line "he",
    the reported column is 2^64 - 1, the column of the last symbol less the
    length of the pattern as supplied, plus one, wrapped around. *)
Theorem match_position_defects :
  (search He_sensitive (str "he") 20 = inr [rec 1 1 "He" "he" 0] /\
   clean_text (case_sensitive_ He_sensitive) (str "He") = str "He" /\
   lines_of He_sensitive (str "he") = [str "he"] /\
   ~ exists pre post, str "he" = pre ++ str "He" ++ post) /\
  (search h33e_matcher (str "he") 20 = inr [rec 1 (SIZE_MOD - 1) "h33e" "he" 0] /\
   clean_text (case_sensitive_ h33e_matcher) (str "h33e") = str "he" /\
   lines_of h33e_matcher (str "he") = [str "he"]).
Proof.
  split.
  - repeat split; try (vm_compute; reflexivity). apply not_infix_He_he.
  - repeat split; vm_compute; reflexivity.
Qed.

(** ** Case handling (C3) *)

(** C3, the code at the failing input: without case sensitivity the
    pattern "He" matches the texts "he" and "HE"; with case sensitivity it
    matches "He", and it matches "he" and "HE" as well, which differ from it
    in letter case. *)
Theorem case_sensitivity_not_applied :
  search He_insensitive (str "he") 20 = inr [rec 1 1 "He" "he" 0] /\
  search He_insensitive (str "HE") 20 = inr [rec 1 1 "He" "he" 0] /\
  search He_sensitive (str "He") 20 = inr [rec 1 1 "He" "He" 0] /\
  search He_sensitive (str "he") 20 = inr [rec 1 1 "He" "he" 0] /\
  search He_sensitive (str "HE") 20 = inr [rec 1 1 "He" "HE" 0].
Proof. repeat split; vm_compute; reflexivity. Qed.

(** ** Errors of initialize and search (C4) *)

(** C4: initialize throws InvalidInput exactly when the list of patterns is
    empty, and a list whose patterns all normalize to the empty string is
    accepted; the call that throws leaves the matcher as it was, so a later
    call with a non-empty list does what it would have done at first, does
    not throw, and returns when no pattern holds a line break; on the
    matcher such a call leaves, search returns a result for
    every text; a text that normalizes to the empty string (the empty text,
    a text of unsupported symbols only) has no match and no error on any
    matcher; on a matcher that was never initialized search returns no
    match. *)
Theorem initialize_and_search_errors :
  (forall m ps, fst (initialize m ps) = inl InvalidInput <-> ps = []) /\
  (forall m ps, ps <> [] ->
     Forall (fun p => clean_text (case_sensitive_ m) p = []) ps ->
     fst (initialize m ps) = inr tt) /\
  (forall m, snd (initialize m []) = m) /\
  (forall m ps, ps <> [] ->
     initialize (snd (initialize m [])) ps = initialize m ps /\
     fst (initialize (snd (initialize m [])) ps) <> inl InvalidInput /\
     (well_formed ps -> fst (initialize (snd (initialize m [])) ps) = inr tt)) /\
  (forall m ps text ctx, ps <> [] -> well_formed ps ->
     exists out, search (snd (initialize m ps)) text ctx = inr out) /\
  (forall m text ctx, clean_text (case_sensitive_ m) text = [] ->
     search m text ctx = inr []) /\
  (forall verbose case_sensitive text ctx,
     search (new_PatternMatcher verbose case_sensitive) text ctx = inr []).
Proof.
  split; [apply initialize_throws|].
  split.
  { intros m ps Hne Hempty.
    destruct (initialize_ok m ps Hne) as (m' & -> & _); [|done].
    eapply Forall_impl; [exact Hempty|]. intros p ->. constructor. }
  split; [done|].
  split.
  { intros m ps Hne. simpl. split; [done|]. split.
    - intros H. by apply initialize_throws in H.
    - intros Hwf. destruct (initialize_ok m ps Hne) as (m' & -> & _); [|done].
      by apply well_formed_cleanable. }
  split.
  { intros m ps text ctx Hne Hwf.
    destruct (initialize_ok m ps Hne) as (m' & -> & Hok & Hids & <- & _).
    - by apply well_formed_cleanable.
    - by apply search_ok. }
  split.
  { intros m text ctx Hc. unfold search, scan. by rewrite Hc. }
  intros. apply search_fresh.
Qed.

Lemma initialize_and_search_errors_witness :
  fst (initialize (new_PatternMatcher false false) [str "123"; str "he"]) = inr tt /\
  exists out, search (snd (initialize (new_PatternMatcher false false)
                                      [str "123"; str "he"]))
                     (str "she said") 20 = inr out.
Proof.
  pose proof initialize_and_search_errors as (_ & _ & _ & H4 & H5 & _ & _).
  assert (Hne : [str "123"; str "he"] <> []) by discriminate.
  assert (Hwf : well_formed [str "123"; str "he"]).
  { repeat constructor; by vm_compute. }
  split.
  - exact (proj2 (proj2 (H4 (new_PatternMatcher false false) _ Hne)) Hwf).
  - exact (H5 (new_PatternMatcher false false) _ (str "she said") 20 Hne Hwf).
Defined.

(** ** The context field (C5) *)

(** C5, as amended: the context of every record whose pattern is as long
    after normalization as it was supplied is the part of its normalized
    line from [start] up to, not including, [end], with runs of spaces
    collapsed to one space, where
      start = col + 1 > pattern_length ? min(col - pattern_length, line_length) : 0
      end   = min(col + context_window, line_length)
    for col the index counted from 0 of the last symbol of the match (its
    column counted from 1, less one), pattern_length the length of the
    pattern, before and after normalization, and col + context_window
    below 2^64. *)
Theorem context_formula m text ctx out r :
  Z.of_nat (length text) < SIZE_MOD -> 0 <= ctx ->
  search m text ctx = inr out -> r ∈ out ->
  exists k ln pos pat,
    lines_of m text !! k = Some ln /\ (pos < length ln)%nat /\
    patterns_ m !! pattern_id r = Some pat /\ pattern r = pat /\
    line r = Z.of_nat k + 1 /\
    column r = (Z.of_nat pos + 1 - Z.of_nat (length pat) + 1) mod SIZE_MOD /\
    (length (clean_text (case_sensitive_ m) pat) = length pat ->
     Z.of_nat pos + ctx < SIZE_MOD ->
     context r = spec_context ln (Z.of_nat pos)
                   (Z.of_nat (length (clean_text (case_sensitive_ m) pat))) ctx).
Proof.
  intros Hlen Hctx Hs Hr. unfold search in Hs.
  apply rbind_inr in Hs as (collected & Hs & [= <-]).
  rewrite <- (sort_matches_perm collected) in Hr.
  destruct (scan_records _ _ _ _ Hs r Hr) as (k & ln & pos & Hk & Hpos & Hrec).
  destruct (lines_of_bounds _ _ _ _ Hk) as [Hkb Hlb].
  destruct Hrec as (pat & c & Hpat & Hc & Er).
  exists k, ln, pos, pat. split; [done|]. split; [done|]. split; [done|].
  rewrite Er. simpl. split; [done|]. split; [apply size_add_small; lia|].
  split; [apply column_mod|].
  intros Hsame Hnw. rewrite Hsame. unfold spec_context.
  rewrite context_start_spec, context_end_spec in Hc by lia.
  destruct (spec_context_order (Z.of_nat pos) (Z.of_nat (length pat)) ctx
              (Z.of_nat (length ln))) as [Ho He]; [lia..|].
  rewrite substr_slice in Hc by lia. by injection Hc as <-.
Qed.

Lemma context_formula_witness :
  exists k ln pos pat,
    lines_of b_matcher (str "ab") !! k = Some ln /\ (pos < length ln)%nat /\
    patterns_ b_matcher !! 0%nat = Some pat /\ str "b" = pat /\
    1 = Z.of_nat k + 1 /\
    2 = (Z.of_nat pos + 1 - Z.of_nat (length pat) + 1) mod SIZE_MOD /\
    (length (clean_text (case_sensitive_ b_matcher) pat) = length pat ->
     Z.of_nat pos + 0 < SIZE_MOD ->
     str "a" = spec_context ln (Z.of_nat pos)
                 (Z.of_nat (length (clean_text (case_sensitive_ b_matcher) pat))) 0).
Proof.
  refine (context_formula b_matcher (str "ab") 0 [rec 1 2 "b" "a" 0]
            (rec 1 2 "b" "a" 0) _ _ _ _).
  - vm_compute. reflexivity.
  - lia.
  - vm_compute. reflexivity.
  - apply elem_of_cons. by left.
Defined.

(* C5 as it is stated, with col the column counted from 1 of the last
   symbol of the match, fails: for the pattern "b" in the text "ab" and a
   context window of 0 the record holds the context "a", and the formula
   gives "b". *)
Lemma context_formula_one_based_fails :
  exists r, search b_matcher (str "ab") 0 = inr [r] /\
    column r + Z.of_nat (length (pattern r)) - 1 = 2 /\
    context r = str "a" /\
    spec_context (str "ab") (column r + Z.of_nat (length (pattern r)) - 1)
                 (Z.of_nat (length (pattern r))) 0 = str "b" /\
    context r <>
    spec_context (str "ab") (column r + Z.of_nat (length (pattern r)) - 1)
                 (Z.of_nat (length (pattern r))) 0.
Proof.
  exists (rec 1 2 "b" "a" 0). repeat split; try (vm_compute; reflexivity).
  vm_compute. discriminate.
Qed.

(** ** Line isolation (C6) *)

(** C6: no match spans a line boundary.  The lines that search scans hold
    no line break, only symbols with an index in the trie, and joined again
    with their line breaks they are the normalized text; the records of a
    search are those of the scans of these lines, each started at the root
    with nothing carried over; so every record of an initialized matcher
    stands for an occurrence of its pattern inside the one line that it
    names, a pattern that stands inside no line has no record, however it
    may stand across a line break, and the records of a line are the same
    for any two texts that have this line at this place.  So the pattern
    "cat" has no match in the text "ca", line break, "t". *)
Theorem line_isolation :
  (forall m text,
     Forall (Forall (fun c => code_of c <> NEWLINE /\ idx_ok c)) (lines_of m text) /\
     concat (map (fun l => l ++ [newline]) (lines_of m text))
     = clean_text (case_sensitive_ m) text ++
       match last (clean_text (case_sensitive_ m) text) with
       | Some c => if code_of c =? NEWLINE then [] else [newline]
       | None => []
       end) /\
  (forall m text ctx out r, search m text ctx = inr out ->
     (r ∈ out <->
      exists k ln new, lines_of m text !! k = Some ln /\
        scan_line m ctx k ln 0%nat ln root [] = inr new /\ r ∈ new)) /\
  (forall m0 ps m text ctx out r,
     initialize m0 ps = (inr tt, m) -> Z.of_nat (length text) < SIZE_MOD ->
     search m text ctx = inr out -> r ∈ out ->
     exists k ln raw,
       lines_of m text !! k = Some ln /\ line r = Z.of_nat k + 1 /\
       ps !! pattern_id r = Some raw /\ pattern r = raw /\
       (exists pre post,
          word_of ln = pre ++ word_of (clean_text (case_sensitive_ m) raw) ++ post) /\
       (case_sensitive_ m = false ->
          exists pre post, ln = pre ++ clean_text false raw ++ post)) /\
  (forall m0 ps m text ctx out i raw,
     initialize m0 ps = (inr tt, m) -> Z.of_nat (length text) < SIZE_MOD ->
     search m text ctx = inr out -> ps !! i = Some raw ->
     (forall ln pre post, ln ∈ lines_of m text ->
        word_of ln <> pre ++ word_of (clean_text (case_sensitive_ m) raw) ++ post) ->
     forall r, r ∈ out -> pattern_id r <> i) /\
  (forall m t1 t2 ctx out1 out2 k ln r,
     Z.of_nat (length t1) < SIZE_MOD -> Z.of_nat (length t2) < SIZE_MOD ->
     search m t1 ctx = inr out1 -> search m t2 ctx = inr out2 ->
     lines_of m t1 !! k = Some ln -> lines_of m t2 !! k = Some ln ->
     line r = Z.of_nat k + 1 -> (r ∈ out1 <-> r ∈ out2)) /\
  search cat_matcher (str "ca" ++ newline :: str "t") 20 = inr [] /\
  search cat_matcher (str "cat") 20 = inr [rec 1 1 "cat" "cat" 0].
Proof.
  assert (Hin : forall m0 ps m text ctx out r,
     initialize m0 ps = (inr tt, m) -> Z.of_nat (length text) < SIZE_MOD ->
     search m text ctx = inr out -> r ∈ out ->
     exists k ln raw,
       lines_of m text !! k = Some ln /\ line r = Z.of_nat k + 1 /\
       ps !! pattern_id r = Some raw /\ pattern r = raw /\
       (exists pre post,
          word_of ln = pre ++ word_of (clean_text (case_sensitive_ m) raw) ++ post) /\
       (case_sensitive_ m = false ->
          exists pre post, ln = pre ++ clean_text false raw ++ post)).
  { intros m0 ps m text ctx out r Hinit Hlen Hs Hr.
    destruct (search_occurrence _ _ _ _ _ _ _ Hinit Hlen Hs Hr)
      as (k & ln & pos & raw & Hk & _ & Hl & Hraw & Hp & _ & Hw & Hc).
    exists k, ln, raw. split; [done|]. split; [done|]. split; [done|]. split; [done|].
    split.
    - rewrite word_of_take in Hw. by apply (suffix_take_inside _ _ (S pos)).
    - intros Hf. by apply (suffix_take_inside _ _ (S pos)), Hc. }
  split; [|split; [|split; [|split; [|split; [|split; vm_compute; reflexivity]]]]].
  - intros m text. split; [apply lines_of_symbols | apply lines_of_join].
  - intros m text ctx out r Hs. by apply search_elem.
  - exact Hin.
  - intros m0 ps m text ctx out i raw Hinit Hlen Hs Hraw Hno r Hr <-.
    destruct (Hin _ _ _ _ _ _ _ Hinit Hlen Hs Hr)
      as (k & ln & raw' & Hk & _ & Hraw' & _ & (pre & post & E) & _).
    assert (raw' = raw) by congruence. subst raw'.
    apply (Hno ln pre post); [|done]. by eapply list_elem_of_lookup_2.
  - intros m t1 t2 ctx out1 out2 k ln r Hl1 Hl2 H1 H2 Hk1 Hk2 Hl. split.
    + by apply (line_transfer m t1 t2 ctx out1 out2 k ln r).
    + by apply (line_transfer m t2 t1 ctx out2 out1 k ln r).
Qed.

Lemma line_isolation_witness :
  (rec 2 1 "cat" "cat" 0 ∈ [rec 2 1 "cat" "cat" 0] <->
   rec 2 1 "cat" "cat" 0 ∈ [rec 1 2 "cat" "acat" 0; rec 2 1 "cat" "cat" 0]) /\
  (exists k ln raw,
     lines_of cat_matcher (str "ca" ++ newline :: str "cat") !! k = Some ln /\
     line (rec 2 1 "cat" "cat" 0) = Z.of_nat k + 1 /\
     [str "cat"] !! pattern_id (rec 2 1 "cat" "cat" 0) = Some raw /\
     pattern (rec 2 1 "cat" "cat" 0) = raw /\
     (exists pre post,
        word_of ln = pre ++ word_of (clean_text (case_sensitive_ cat_matcher) raw) ++ post) /\
     (case_sensitive_ cat_matcher = false ->
        exists pre post, ln = pre ++ clean_text false raw ++ post)) /\
  (forall r, r ∈ [] -> pattern_id r <> 0%nat).
Proof.
  pose proof line_isolation as (_ & _ & Hin & Hno & Hsame & _).
  split; [|split].
  - refine (Hsame cat_matcher (str "ca" ++ newline :: str "cat")
              (str "acat" ++ newline :: str "cat") 20 _ _ 1%nat (str "cat") _
              _ _ _ _ _ _ _); vm_compute; reflexivity.
  - refine (Hin (new_PatternMatcher false false) [str "cat"] cat_matcher
              (str "ca" ++ newline :: str "cat") 20 [rec 2 1 "cat" "cat" 0] _ _ _ _ _).
    + vm_compute. reflexivity.
    + vm_compute. reflexivity.
    + vm_compute. reflexivity.
    + apply elem_of_cons. by left.
  - refine (Hno (new_PatternMatcher false false) [str "cat"] cat_matcher
              (str "x" ++ newline :: str "ca" ++ newline :: str "t") 20 []
              0%nat (str "cat") _ _ _ _ _).
    + vm_compute. reflexivity.
    + vm_compute. reflexivity.
    + vm_compute. reflexivity.
    + reflexivity.
    + intros ln pre post Hln E. apply (f_equal length) in E.
      rewrite !length_app in E. unfold word_of in E. rewrite !length_map in E.
      change (lines_of cat_matcher (str "x" ++ newline :: str "ca" ++ newline :: str "t"))
        with [str "x"; str "ca"; str "t"] in Hln.
      apply elem_of_cons in Hln as [->|Hln]; [simpl in E; lia|].
      apply elem_of_cons in Hln as [->|Hln]; [simpl in E; lia|].
      apply elem_of_cons in Hln as [->|Hln]; [simpl in E; lia|].
      by apply elem_of_nil in Hln.
Defined.

(** ** The invariant of the links (C7) *)

(** C7: after initialize has returned, the failure link of the root is the
    root, every output link that is not null points to a cell with a
    non-empty pattern_indices on a strictly smaller depth, and the walk of
    collect_matches along the output links from any cell ends at null, each
    cell of the walk lying strictly above the one before it.  (search is a
    const member function: it reads the cells and returns the matches, so
    the matcher after a search is the matcher before it.) *)
Theorem initialize_links_invariant m ps m' :
  initialize m ps = (inr tt, m') ->
  let h := cells m' in
  flink h root = Some root /\
  (forall a o, olink h a = Some o ->
     (o < length h)%nat /\ pats h o <> [] /\ dep h o < dep h a) /\
  (forall a, (a < length h)%nat ->
     exists walk, output_walk (length h) h (Some a) = inr walk /\
       walk !! 0%nat = Some a /\
       forall i x y, walk !! i = Some x -> walk !! S i = Some y ->
         dep h y < dep h x).
Proof.
  intros Hinit h.
  destruct (initialize_inv _ _ _ Hinit) as [Hne Hcl].
  destruct (initialize_ok m ps Hne Hcl) as (m'' & Hinit' & Hok & _).
  assert (m'' = m') by congruence. subst m''. subst h.
  split; [apply (lk_root _ Hok)|]. split; [apply (lk_ol _ Hok)|].
  intros a Ha. apply output_walk_ok; [done | done |].
  apply dep_lt_length; [apply (lk_wf _ Hok) | done].
Qed.

Lemma initialize_links_invariant_witness :
  flink (cells ushers_matcher) root = Some root.
Proof.
  refine (proj1 (initialize_links_invariant
                   (new_PatternMatcher false false)
                   (map str ["he"; "she"; "hers"]%string) ushers_matcher _)).
  vm_compute. reflexivity.
Defined.

(** ** Order of the result (C8) *)

(** C8: the sequence that search returns is in ascending order of the key
    (line, column, pattern_id): of two consecutive records the earlier one
    has the smaller line, or the same line and the smaller column, or the
    same line and column and a pattern id that is not larger. *)
Theorem search_sorted m text ctx out :
  search m text ctx = inr out ->
  forall i a b, out !! i = Some a -> out !! S i = Some b -> key_le a b.
Proof.
  unfold search. intros H. apply rbind_inr in H as (collected & _ & [= <-]).
  intros i a b Ha Hb. apply match_lt_false.
  by apply (sorted_lookup _ _ (sort_matches_sorted collected) i).
Qed.

Lemma search_sorted_witness :
  key_le (rec 1 2 "she" "ushers" 1) (rec 1 3 "he" "shers" 0).
Proof.
  refine (search_sorted ushers_matcher (str "ushers") 20 ushers_matches _ 0%nat _ _ _ _);
    vm_compute; reflexivity.
Defined.

(** ** Determinism (C9) *)

(** C9: search is deterministic.  Whatever order std::sort gives to records
    that compare equal, two runs of search on the same matcher, text and
    context size return the same sequence: same length, same records in the
    same places. *)
Theorem search_deterministic m text ctx out1 out2 :
  Z.of_nat (length text) < SIZE_MOD ->
  search_returns m text ctx out1 -> search_returns m text ctx out2 ->
  out1 = out2 /\ length out1 = length out2 /\
  forall i r1 r2, out1 !! i = Some r1 -> out2 !! i = Some r2 ->
    line r1 = line r2 /\ column r1 = column r2 /\ pattern r1 = pattern r2 /\
    context r1 = context r2 /\ pattern_id r1 = pattern_id r2.
Proof.
  intros Hlen (c1 & Hs1 & Hp1 & Hsorted1) (c2 & Hs2 & Hp2 & Hsorted2).
  assert (c2 = c1) by congruence. subst c2.
  assert (E : out1 = out2).
  { apply (sorted_perm_unique out1 c1 out2); try done.
    by apply (scan_key_inj m text ctx). }
  subst out2. split; [done|]. split; [done|].
  intros i r1 r2 H1 H2. assert (r2 = r1) by congruence. by subst r2.
Qed.

Lemma search_deterministic_witness : ushers_matches = ushers_matches.
Proof.
  refine (proj1 (search_deterministic ushers_matcher (str "ushers") 20 _ _ _ _ _)).
  - vm_compute. reflexivity.
  - apply search_returns_search. vm_compute. reflexivity.
  - apply search_returns_search. vm_compute. reflexivity.
Defined.

(** ** Bounds of the context extraction (C10) *)

(** C10, as amended: for every line, every index [pos] on it, every pattern
    length and every context size, the bounds of the context satisfy
    0 <= start <= line_length and 0 <= end <= line_length, the guard
    pos + 1 > pattern_length keeps pos - pattern_length from wrapping
    around, substr is called within its bounds, and start <= end whenever
    pos + context_size is below 2^64; every record of search comes from
    such an extraction at an index of its line; so search never ends in
    std::out_of_range. *)
Theorem context_bounds :
  (forall (s : list ascii) (pos len ctx : Z),
     let size := Z.of_nat (length s) in
     let start := context_start pos len size in
     let end_ := context_end pos ctx size in
     size < SIZE_MOD -> 0 <= pos < size -> 0 <= len -> 0 <= ctx < SIZE_MOD ->
     0 <= start <= size /\ 0 <= end_ <= size /\
     (pos + ctx < SIZE_MOD -> start <= end_) /\
     ((size_add pos 1 >? len) = true -> size_sub pos len = pos - len /\ 0 <= pos - len) /\
     exists c, substr s start (size_sub end_ start) = inr c) /\
  (forall m text ctx out r, search m text ctx = inr out -> r ∈ out ->
     exists k ln pos, lines_of m text !! k = Some ln /\ (pos < length ln)%nat /\
       record_at m ctx k ln pos (pattern_id r) r) /\
  (forall m text ctx, search m text ctx <> inl OutOfRange).
Proof.
  split; [|split; [|intros m text ctx; by apply avoids_search]]; cycle 1.
  { intros m text ctx out r Hs Hr. unfold search in Hs.
    apply rbind_inr in Hs as (collected & Hs & [= <-]).
    rewrite <- (sort_matches_perm collected) in Hr.
    by apply (scan_records _ _ _ _ Hs). }
  intros s pos len ctx size start end_ Hs Hp Hl Hc.
  split; [apply context_start_range; lia|].
  split; [apply context_end_range; lia|].
  split; [|split].
  - intros Hnw. subst start end_.
    rewrite context_start_spec, context_end_spec by lia.
    apply spec_context_order; lia.
  - rewrite size_add_small by lia. intros E. zbool. apply Z.ltb_lt in E.
    unfold size_sub. rewrite Z.mod_small by lia. lia.
  - apply substr_ok. apply context_start_range. lia.
Qed.

Lemma context_bounds_witness :
  0 <= context_start 2 1 3 <= 3 /\ 0 <= context_end 2 20 3 <= 3 /\
  (2 + 20 < SIZE_MOD -> context_start 2 1 3 <= context_end 2 20 3) /\
  ((size_add 2 1 >? 1) = true -> size_sub 2 1 = 2 - 1 /\ 0 <= 2 - 1) /\
  exists c, substr (str "aaa") (context_start 2 1 3)
                   (size_sub (context_end 2 20 3) (context_start 2 1 3)) = inr c.
Proof.
  refine (proj1 context_bounds (str "aaa") 2 1 20 _ _ _ _).
  - vm_compute. reflexivity.
  - simpl. lia.
  - lia.
  - unfold SIZE_MOD. lia.
Defined.

(* C10 as it is stated, for every context size, fails: with the pattern
   "a", the text "aaa" and the context size 2^64 - 2, the extraction for the
   last symbol has start = 1 and end = 0, and substr is called with the
   count end - start wrapped around, which gives the rest of the line. *)
Lemma context_bounds_overflow :
  search a_matcher (str "aaa") (SIZE_MOD - 2)
  = inr [rec 1 1 "a" "aaa" 0; rec 1 2 "a" "aaa" 0; rec 1 3 "a" "aa" 0] /\
  context_start 2 1 3 = 1 /\ context_end 2 (SIZE_MOD - 2) 3 = 0 /\
  ~ (context_start 2 1 3 <= context_end 2 (SIZE_MOD - 2) 3).
Proof.
  repeat split; try (vm_compute; reflexivity). vm_compute. intros H. by apply H.
Qed.

(** * Further lemmas *)

(** ** Failure links lead to the longest proper suffix *)

Lemma spells_nil h u : spells h [] u -> u = root.
Proof. by intros [= <-]. Qed.

Lemma sfx_of_root h u : (0 < length h)%nat -> sfx h u root -> u = root.
Proof.
  intros Hlen Hs. destruct (Hs [] eq_refl) as (w & Hw & Hsw).
  apply suffix_nil_inv in Hsw. subst w. by apply spells_nil in Hw.
Qed.

Lemma sfx_spells h u b wb :
  trie_wf h -> sfx h u b -> spells h wb b ->
  exists wu, spells h wu u /\ wu `suffix_of` wb.
Proof. intros _ Hs Hb. by apply Hs. Qed.

Lemma spells_sfx h u b wu wb :
  trie_wf h -> spells h wu u -> spells h wb b -> wu `suffix_of` wb -> sfx h u b.
Proof.
  intros Hwf Hu Hb Hs w Hw. rewrite (spells_inj h Hwf _ _ _ Hw Hb). eauto.
Qed.

Lemma spells_valid h w a : trie_wf h -> spells h w a -> (a < length h)%nat.
Proof.
  intros Hwf. destruct w as [|i w _] using rev_ind.
  - intros [= <-]. apply (wf_root _ Hwf).
  - intros Hw. apply walk_from_snoc in Hw as (p & _ & Hk).
    by destruct (kid_valid _ _ _ _ Hwf Hk) as (_ & ? & _).
Qed.

Lemma spells_fun h w a b : spells h w a -> spells h w b -> a = b.
Proof. unfold spells. congruence. Qed.

(* A proper suffix of the word of a child, if not the empty word, is the
   word of a child, under the same code, of a proper suffix of the parent. *)
Lemma sfx_parent h p i c u :
  trie_wf h -> kid h p i = Some c -> sfx h u c -> u <> root ->
  exists u', kid h u' i = Some u /\ sfx h u' p /\ (u <> c -> u' <> p).
Proof.
  intros Hwf Hk Hs Hur.
  destruct (kid_valid _ _ _ _ Hwf Hk) as (_ & Hc & _).
  destruct (spells_exists h Hwf c Hc) as [wc Hwc].
  destruct (spells_snoc_inv _ _ _ _ _ Hwf Hwc Hk) as (wp & -> & Hwp).
  destruct (Hs _ Hwc) as (wu & Hwu & Hsu).
  destruct wu as [|j wu' _] using rev_ind.
  { by apply spells_nil in Hwu. }
  pose proof (suffix_snoc_inv_1 _ _ _ _ Hsu) as ->.
  apply suffix_snoc_inv_2 in Hsu.
  apply walk_from_snoc in Hwu as (u' & Hu' & Hku).
  exists u'. split; [done|]. split.
  - by apply (spells_sfx h u' p wu' wp).
  - intros Hne ->. congruence.
Qed.

Lemma child_kid h a nd i ch :
  h !! a = Some nd -> child nd (Z.of_nat i) = inr ch -> kid h a i = ch.
Proof.
  intros Ha Hch. apply child_inr in Hch as [_ Hch]. rewrite Nat2Z.id in Hch.
  rewrite (kid_children _ _ _ _ Ha), Hch. by destruct ch.
Qed.

(* The loop over the failure links stops at the first cell with a child
   under the code, so every suffix that has such a child is a suffix of the
   cell where it stops. *)
Lemma follow_failure_longest h i :
  trie_wf h -> fl_longest h ->
  forall fuel a g u,
    follow_failure fuel h (Some a) (Z.of_nat i) = inr g ->
    sfx h u a -> is_Some (kid h u i) -> sfx h u g.
Proof.
  intros Hwf Hfl. induction fuel as [|fuel IH]; intros a g u H Hs Hk; simpl in H;
    [done|].
  destruct (Nat.eqb a root) eqn:E; [by injection H as <-|].
  apply rbind_inr in H as (nd & Hnd & H). apply deref_inr in Hnd.
  apply rbind_inr in H as (ch & Hch & H).
  pose proof (child_kid _ _ _ _ _ Hnd Hch) as Hka.
  destruct ch as [b|]; [by injection H as <-|].
  destruct (failure_link nd) as [f|] eqn:Hf; [|by destruct fuel].
  apply (IH f g u H); [|done].
  apply (Hfl a f u); [unfold flink; by rewrite Hnd | done|].
  intros ->. rewrite Hka in Hk. by destruct Hk.
Qed.

(* The state after a transition: the child of the cell where the loop over
   the failure links stopped, or the root. *)
Lemma goto_longest h i fuel a g u' u :
  trie_wf h -> fl_longest h ->
  follow_failure fuel h (Some a) (Z.of_nat i) = inr g ->
  sfx h u' a -> kid h u' i = Some u ->
  exists t, kid h g i = Some t /\ sfx h u t.
Proof.
  intros Hwf Hfl Hg Hs Hk.
  pose proof (follow_failure_longest h i Hwf Hfl _ _ _ _ Hg Hs ltac:(by eexists)) as Hsg.
  destruct (follow_failure_exit _ _ _ _ _ Hg) as [->|(nd & c & Hnd & Hc)].
  - apply sfx_of_root in Hsg; [|apply (wf_root _ Hwf)]. subst u'.
    exists u. split; [done | apply sfx_refl].
  - pose proof (child_kid _ _ _ _ _ Hnd Hc) as Hkg.
    exists c. split; [done|]. by apply (sfx_step h u' g i u c).
Qed.

(** ** The breadth-first loop sets the longest suffixes *)

(* What one turn of the loop over the codes does to the heap. *)
Lemma link_child_inv h Q cur k h' Q' :
  trie_wf h -> link_child h Q cur (Z.of_nat k) = inr (h', Q') ->
  (kid h cur k = None /\ h' = h /\ Q' = Q) \/
  exists c f0 g t,
    kid h cur k = Some c /\ flink h cur = Some f0 /\
    follow_failure (length h) h (Some f0) (Z.of_nat k) = inr g /\
    t = default root (kid h g k) /\
    relinked h h' c t (match pats h t with [] => olink h t | _ => Some t end) /\
    Q' = Q ++ [c].
Proof.
  intros Hwf H. unfold link_child in H.
  apply rbind_inr in H as (nd & Hnd & H). apply deref_inr in Hnd.
  apply rbind_inr in H as (ch & Hch & H).
  pose proof (child_kid _ _ _ _ _ Hnd Hch) as Hk.
  destruct ch as [c|]; [|injection H as <- <-; by left].
  right.
  destruct (failure_link nd) as [f0|] eqn:Hf0; [|by destruct (length h)].
  apply rbind_inr in H as (g & Hg & H).
  apply rbind_inr in H as (fnode & Hfn & H). apply deref_inr in Hfn.
  apply rbind_inr in H as (fch & Hfch & H).
  pose proof (child_kid _ _ _ _ _ Hfn Hfch) as Hkg.
  apply rbind_inr in H as (cn & Hcn & H). apply deref_inr in Hcn.
  apply rbind_inr in H as (tnode & Htn & H). apply deref_inr in Htn.
  injection H as <- <-.
  exists c, f0, g, (default root (kid h g k)).
  split; [done|]. split; [unfold flink; by rewrite Hnd|]. split; [done|].
  split; [done|]. split; [|done].
  assert (Ht : default root (kid h g k) = match fch with Some g' => g' | None => root end).
  { rewrite Hkg. by destruct fch. }
  rewrite Ht. set (t := match fch with Some g' => g' | None => root end) in *.
  assert (Hp : pats h t = pattern_indices tnode).
  { rewrite <- (update_pats_other h c (fun nd0 => set_failure_link nd0 (Some t)))
      by done. unfold pats. by rewrite Htn. }
  assert (Ho : olink h t = output_link tnode).
  { rewrite <- (update_olink_keep h c (Some t)). unfold olink. by rewrite Htn. }
  rewrite Hp, Ho. apply relinked_both; [done|]. by eapply lookup_lt_Some.
Qed.

Lemma sfx_same h h' u b :
  (forall a i, kid h' a i = kid h a i) -> sfx h' u b <-> sfx h u b.
Proof.
  intros Hk. split; apply sfx_ext; [|done]. intros a i. by rewrite Hk.
Qed.

(* Setting the links of a cell that had none to the longest suffixes keeps
   the links of the heap the longest. *)
Lemma longest_enqueue h h' c t out :
  relinked h h' c t out -> flink h c = None ->
  fl_longest h -> ol_longest h ->
  (forall u, sfx h u c -> u <> c -> sfx h u t) ->
  (forall u, sfx h u c -> u <> c -> pats h u <> [] ->
     exists o, out = Some o /\ sfx h u o) ->
  fl_longest h' /\ ol_longest h'.
Proof.
  intros [_ _ Hkid _ Hpats Hfl Hol] Hc HF HO Ht Hout. split.
  - intros b f u. rewrite Hfl, !(sfx_same h h') by done. case_decide as Hb.
    + subst b. intros [= <-]. apply Ht.
    + apply HF.
  - intros b u. rewrite Hfl, Hol, Hpats, (sfx_same h h') by done.
    case_decide as Hb.
    + subst b. intros _ Hs Hne Hp. destruct (Hout u Hs Hne Hp) as (o & -> & Hso).
      exists o. split; [done|]. by apply (sfx_same h h').
    + intros Hsome Hs Hne Hp. destruct (HO b u Hsome Hs Hne Hp) as (o & Ho & Hso).
      exists o. split; [done|]. by apply (sfx_same h h').
Qed.

(* The cells above or beside the one the loop stands on are linked. *)
Lemma mid_linked h done cur k Q t :
  mid_inv h done cur k Q -> cur <> root -> (t < length h)%nat ->
  dep h t <= dep h cur -> is_Some (flink h t).
Proof.
  intros HI Hcr Ht Hd. pose proof (mi_wf _ _ _ _ _ HI) as Hwf.
  apply (mi_F _ _ _ _ _ HI); [done|].
  destruct (decide (dep h t < dep h cur)) as [Hlt|Hge].
  { apply elem_of_app. left. by eapply below_done. }
  destruct (decide (t = root)) as [->|Htr].
  { pose proof (mi_root_in _ _ _ _ _ HI) as Hr.
    apply elem_of_app in Hr as [Hr|Hr]; [apply elem_of_app; by left|].
    apply list_elem_of_singleton in Hr. congruence. }
  destruct (wf_parent _ Hwf t) as (p & i & Hk); [unfold root in Htr; lia|].
  destruct (wf_kid _ Hwf _ _ _ Hk) as [Hpt Hdp].
  apply (mi_done _ _ _ _ _ HI p i); [|done].
  eapply below_done; [done | lia | lia].
Qed.

Lemma link_child_longest h done cur k Q h' Q' :
  mid_inv h done cur k Q -> cur <> root -> (k < Z.to_nat ALPHABET_SIZE)%nat ->
  pats h root = [] -> fl_longest h -> ol_longest h ->
  link_child h Q cur (Z.of_nat k) = inr (h', Q') ->
  fl_longest h' /\ ol_longest h'.
Proof.
  intros HI Hcr Hk Hpr HF HO H.
  pose proof (mi_wf _ _ _ _ _ HI) as Hwf.
  destruct (link_child_ok h done cur k Q HI Hcr Hk) as (h1 & Q1 & H1 & HI1 & _).
  assert (h1 = h' /\ Q1 = Q') as [-> ->] by (split; congruence).
  destruct (link_child_inv _ _ _ _ _ _ Hwf H)
    as [(_ & -> & _)|(c & f0 & g & t & Hkc & Hf0 & Hg & Ht & Hrl & _)]; [done|].
  pose proof (mid_fresh _ _ _ _ _ _ HI Hkc) as Hfresh.
  destruct (wf_kid _ Hwf _ _ _ Hkc) as [Hcc Hcd].
  assert (Hcn : flink h c = None).
  { destruct (flink h c) eqn:E; [|done]. destruct Hfresh.
    apply (mi_F _ _ _ _ _ HI); [lia | by eexists]. }
  assert (Hmax : forall u, sfx h u c -> u <> c -> sfx h u t).
  { intros u Hs Hne. destruct (decide (u = root)) as [->|Hur]; [apply sfx_root|].
    destruct (sfx_parent _ _ _ _ _ Hwf Hkc Hs Hur) as (u' & Hku & Hsu & Hnu).
    pose proof (HF cur f0 u' Hf0 Hsu (Hnu Hne)) as Hsf.
    destruct (goto_longest _ _ _ _ _ _ _ Hwf HF Hg Hsf Hku) as (t' & Ht' & Hst).
    rewrite Ht' in Ht. simpl in Ht. by subst t'. }
  (* the place of the target of the failure link *)
  assert (Hflc : flink h' c = Some t).
  { rewrite (rl_flink _ _ _ _ _ Hrl). by rewrite decide_True. }
  assert (Hcr' : c <> root) by (unfold root; lia).
  destruct (mi_fl _ _ _ _ _ HI1 c t Hcr' Hflc) as [Htl Htd].
  rewrite (rl_length _ _ _ _ _ Hrl) in Htl. rewrite !(rl_dep _ _ _ _ _ Hrl) in Htd.
  eapply longest_enqueue; [exact Hrl | done | done | done | done |].
  intros u Hs Hne Hp. pose proof (Hmax u Hs Hne) as Hst.
  destruct (pats h t) as [|x xs] eqn:Hpt.
  - assert (Hut : u <> t) by (intros ->; congruence).
    apply (HO t u); [|done..].
    apply (mid_linked h done cur k Q); [done | done | done | lia].
  - by exists t.
Qed.

Lemma link_children_longest (h : heap) done cur n :
  forall k h0 Q0 h' Q', (k + n = Z.to_nat ALPHABET_SIZE)%nat ->
  mid_inv h0 done cur k Q0 -> cur <> root ->
  pats h0 root = [] -> fl_longest h0 -> ol_longest h0 ->
  link_children h0 Q0 cur (map Z.of_nat (seq k n)) = inr (h', Q') ->
  fl_longest h' /\ ol_longest h'.
Proof.
  induction n as [|n IH]; intros k h0 Q0 h' Q' Hkn HI Hcr Hpr HF HO H; simpl in H.
  - by injection H as <- <-.
  - apply rbind_inr in H as ([h1 Q1] & H1 & H2).
    destruct (link_child_ok h0 done cur k Q0 HI Hcr) as (h1' & Q1' & Hs & HI1 & _ & Hp1 & _);
      [lia|].
    assert (h1' = h1 /\ Q1' = Q1) as [-> ->] by (split; congruence).
    destruct (link_child_longest _ _ _ _ _ _ _ HI Hcr ltac:(lia) Hpr HF HO H1)
      as [HF1 HO1].
    apply (IH (S k) h1 Q1 h' Q'); [lia | done | done | by rewrite Hp1 | done | done | done].
Qed.

Lemma mid_unlinked h done cur k Q c :
  mid_inv h done cur k Q -> kid h cur k = Some c -> flink h c = None.
Proof.
  intros HI Hkc. pose proof (mid_fresh _ _ _ _ _ _ HI Hkc) as Hfresh.
  destruct (wf_kid _ (mi_wf _ _ _ _ _ HI) _ _ _ Hkc) as [Hcc _].
  destruct (flink h c) eqn:E; [|done]. destruct Hfresh.
  apply (mi_F _ _ _ _ _ HI); [lia | by eexists].
Qed.

Lemma link_root_children_longest (h : heap) n :
  forall k h0 Q0 h' Q', (k + n = Z.to_nat ALPHABET_SIZE)%nat ->
  mid_inv h0 [] root k Q0 ->
  pats h0 root = [] -> fl_longest h0 -> ol_longest h0 ->
  link_root_children h0 Q0 (map Z.of_nat (seq k n)) = inr (h', Q') ->
  fl_longest h' /\ ol_longest h'.
Proof.
  induction n as [|n IH]; intros k h0 Q0 h' Q' Hkn HI Hpr HF HO H; simpl in H.
  - by injection H as <- <-.
  - pose proof (mi_wf _ _ _ _ _ HI) as Hwf.
    apply rbind_inr in H as (nd & Hnd & H). apply deref_inr in Hnd.
    apply rbind_inr in H as (ch & Hch & H).
    pose proof (child_kid _ _ _ _ _ Hnd Hch) as Hkc.
    destruct ch as [c|].
    + apply rbind_inr in H as (cn & Hcn & H). apply deref_inr in Hcn.
      pose proof (lookup_lt_Some _ _ _ Hcn) as Hcl.
      pose proof (relinked_failure h0 c root Hwf Hcl) as Hrl.
      pose proof (mid_unlinked _ _ _ _ _ _ HI Hkc) as Hfc.
      assert (Hup : forall u, sfx h0 u c -> u <> c -> u = root).
      { intros u Hs Hne. destruct (decide (u = root)) as [|Hur]; [done|].
        destruct (sfx_parent _ _ _ _ _ Hwf Hkc Hs Hur) as (u' & Hku & Hsu & Hnu).
        apply sfx_of_root in Hsu; [|apply (wf_root _ Hwf)]. by destruct (Hnu Hne). }
      destruct (longest_enqueue _ _ _ _ _ Hrl Hfc HF HO) as [HF1 HO1].
      { intros u Hs Hne. rewrite (Hup u Hs Hne). apply sfx_refl. }
      { intros u Hs Hne Hp. rewrite (Hup u Hs Hne) in Hp. done. }
      refine (IH (S k) _ _ h' Q' _ _ _ HF1 HO1 H); [lia | |].
      * eapply mid_enqueue;
          [exact HI | exact Hkc | exact Hrl | apply (wf_root _ Hwf) | | | apply sfx_root |].
        -- destruct (wf_kid _ Hwf _ _ _ Hkc) as [_ Hd].
           destruct (wf_root _ Hwf) as [_ Hr]. lia.
        -- intros o Ho. apply (mi_ol _ _ _ _ _ HI _ _ Ho).
        -- intros o Ho. apply (mi_ol_sfx _ _ _ _ _ HI _ _ Ho).
      * by rewrite (rl_pats _ _ _ _ _ Hrl).
    + apply (IH (S k) h0 Q0 h' Q'); [lia | | done | done | done | done].
      by apply mid_skip.
Qed.

Lemma link_loop_longest :
  forall fuel h dn cur Q h',
    mid_inv h dn cur (Z.to_nat ALPHABET_SIZE) Q ->
    pats h root = [] -> fl_longest h -> ol_longest h ->
    link_loop fuel h Q = inr h' ->
    fl_longest h' /\ ol_longest h'.
Proof.
  induction fuel as [|fuel IH]; intros h dn cur Q h' HI Hpr HF HO H; [done|].
  destruct Q as [|q Q]; [by injection H as <-|].
  rewrite link_loop_cons in H. apply rbind_inr in H as ([h1 Q1] & H1 & H2).
  simpl in H2.
  destruct (mid_next _ _ _ _ _ HI) as [HI0 Hq].
  destruct (link_children_ok h (dn ++ [cur]) q (Z.to_nat ALPHABET_SIZE) 0%nat h Q)
    as (h1' & Q1' & Hs & HI1 & _ & Hp1 & _); [done..|].
  change (map Z.of_nat (seq 0 (Z.to_nat ALPHABET_SIZE))) with codes in Hs.
  assert (h1' = h1 /\ Q1' = Q1) as [-> ->] by (split; congruence).
  destruct (link_children_longest h (dn ++ [cur]) q (Z.to_nat ALPHABET_SIZE)
              0%nat h Q h1 Q1) as [HF1 HO1]; [done..|].
  apply (IH h1 (dn ++ [cur]) q Q1 h'); [done | by rewrite Hp1 | done | done | done].
Qed.

Lemma longest_init h :
  trie_wf h -> unlinked h ->
  fl_longest (update h root (fun nd => set_failure_link nd (Some root))) /\
  ol_longest (update h root (fun nd => set_failure_link nd (Some root))).
Proof.
  intros Hwf Hun. destruct (wf_root _ Hwf) as [Hlen _].
  set (h0 := update h root (fun nd => set_failure_link nd (Some root))).
  assert (Hwf0 : trie_wf h0) by (by apply update_wf).
  assert (Hfl : forall b, is_Some (flink h0 b) -> b = root).
  { intros b. subst h0. rewrite update_flink_set by done. case_decide; [done|].
    destruct (unlinked_links h b Hun) as [-> _]. by intros [? ?]. }
  assert (Hno : forall b u, is_Some (flink h0 b) -> sfx h0 u b -> u <> b -> False).
  { intros b u Hb Hs Hne. apply Hfl in Hb. subst b.
    apply sfx_of_root in Hs; [done | apply (wf_root _ Hwf0)]. }
  split.
  - intros b f u Hb Hs Hne. destruct (Hno b u); [by eexists | done | done].
  - intros b u Hb Hs Hne _. by destruct (Hno b u).
Qed.

Lemma build_failure_links_longest n m m' :
  trie_ok n m -> pats (cells m) root = [] ->
  build_failure_links m = inr m' ->
  fl_longest (cells m') /\ ol_longest (cells m').
Proof.
  intros (Hwf & Hun & Hids) Hpr H. unfold build_failure_links in H.
  apply rbind_inr in H as (r & _ & H).
  set (h0 := update (cells m) root (fun nd => set_failure_link nd (Some root))) in *.
  apply rbind_inr in H as ([h1 Q1] & H1 & H). cbn beta iota in H.
  apply rbind_inr in H as (h2 & H2 & [= <-]). cbn [cells set_cells].
  destruct (longest_init (cells m) Hwf Hun) as [HF0 HO0]. fold h0 in HF0, HO0.
  assert (Hp0 : pats h0 root = []).
  { subst h0. by rewrite update_pats_other. }
  pose proof (mid_init (cells m) Hwf Hun) as HI0. fold h0 in HI0.
  destruct (link_root_children_ok h0 (Z.to_nat ALPHABET_SIZE) 0%nat h0 [])
    as (h1' & Q1' & Hs & HI1 & _ & Hp1 & _); [done..|].
  change (map Z.of_nat (seq 0 (Z.to_nat ALPHABET_SIZE))) with codes in Hs.
  assert (h1' = h1 /\ Q1' = Q1) as [-> ->] by (split; congruence).
  destruct (link_root_children_longest h0 (Z.to_nat ALPHABET_SIZE) 0%nat h0 [] h1 Q1)
    as [HF1 HO1]; [done..|].
  apply (link_loop_longest (S (length h1)) h1 [] root Q1 h2); [done | by rewrite Hp1 | done..].
Qed.

(** ** The trie holds the prefixes of the patterns, and nothing else *)

Lemma dep_spells h : trie_wf h ->
  forall w a, spells h w a -> dep h a = Z.of_nat (length w).
Proof.
  intros Hwf w. induction w as [|i w IH] using rev_ind; intros a Hw.
  - apply spells_nil in Hw. subst a. apply (wf_root _ Hwf).
  - apply walk_from_snoc in Hw as (p & Hp & Hk).
    destruct (wf_kid _ Hwf _ _ _ Hk) as [_ ->]. rewrite (IH p Hp).
    rewrite length_app. simpl. lia.
Qed.

Lemma spells_kept h h' w a : edges_kept h h' -> spells h w a -> spells h' w a.
Proof. intros He. by apply walk_from_kept. Qed.

(* A cell that was there before the trie grew spells what it spelled. *)
Lemma spells_old h h' w a :
  trie_wf h -> trie_wf h' -> edges_kept h h' -> (a < length h)%nat ->
  spells h' w a -> spells h w a.
Proof.
  intros Hwf Hwf' He Ha Hw. destruct (spells_exists h Hwf a Ha) as [w0 Hw0].
  by rewrite (spells_inj h' Hwf' _ _ _ Hw (spells_kept _ _ _ _ He Hw0)).
Qed.

Lemma trie_step_cells n m node c m' node' :
  trie_ok n m -> trie_step m node c = inr (m', node') ->
  (length (cells m) <= length (cells m'))%nat /\
  (forall a, (length (cells m) <= a < length (cells m'))%nat -> a = node') /\
  node_count_ m' - Z.of_nat (length (cells m'))
  = node_count_ m - Z.of_nat (length (cells m)) /\
  (max_depth_ m' = max_depth_ m \/
   length (cells m) = node' /\ (node' < length (cells m'))%nat /\
   max_depth_ m' = dep (cells m') node') /\
  (forall a, (a < length (cells m))%nat -> dep (cells m') a = dep (cells m) a) /\
  max_depth_ m <= max_depth_ m' /\
  (forall a, (length (cells m) <= a < length (cells m'))%nat ->
     dep (cells m') a <= max_depth_ m').
Proof.
  intros (Hwf & _ & _). unfold trie_step. intros H.
  apply rbind_inr in H as (nd & Hnd & H). apply deref_inr in Hnd.
  apply rbind_inr in H as (ch & Hch & H). apply child_inr in Hch as [Hi Hch].
  destruct ch as [k|].
  - injection H as <- <-. split; [done|]. split; [intros a; lia|].
    split; [done|]. split; [by left|]. split; [done|]. split; [lia|]. intros a; lia.
  - injection H as <- <-. cbn [cells node_count_ max_depth_].
    rewrite (alloc_length (cells m)).
    assert (Hd : forall a, dep (<[node:=set_children nd
              (<[Z.to_nat (char_to_index c):=Some (length (cells m))]> (children nd))]>
              (cells m) ++ [set_depth new_TrieNode (depth nd + 1)]) a
            = if decide (a = length (cells m)) then depth nd + 1 else dep (cells m) a).
    { intros a. by apply (alloc_dep (cells m) node nd (Z.to_nat (char_to_index c))). }
    split; [lia|]. split; [intros a; lia|]. split; [lia|]. split; [|split; [|split]].
    + destruct (Z.max_spec (max_depth_ m) (depth nd + 1)) as [[? ->]|[? ->]].
      * right. split; [done|]. split; [lia|]. by rewrite Hd, decide_True.
      * by left.
    + intros a Ha. rewrite Hd, decide_False by lia. done.
    + simpl. lia.
    + intros a Ha. rewrite Hd, decide_True by lia. simpl. lia.
Qed.

Lemma trie_step_counted n m node c m' node' :
  trie_ok n m -> counted m -> trie_step m node c = inr (m', node') ->
  counted m' /\ node_count_ m <= node_count_ m' <= node_count_ m + 1.
Proof.
  intros Hok (Hn & Hle & a0 & Ha0 & Hd0) H.
  destruct (trie_step_cells _ _ _ _ _ _ Hok H)
    as (Hlen & Hnew & Hcnt & Hmax & Hold & Hmono & Hfresh).
  assert (Hlen' : (length (cells m') <= S (length (cells m)))%nat).
  { destruct (decide (length (cells m') <= S (length (cells m)))%nat); [done|].
    pose proof (Hnew (length (cells m)) ltac:(lia)).
    pose proof (Hnew (S (length (cells m))) ltac:(lia)). lia. }
  split; [|lia]. split; [lia|]. split.
  - intros a Ha. destruct (decide (a < length (cells m))%nat) as [Hlt|Hge].
    + rewrite Hold by done. specialize (Hle a Hlt). lia.
    + apply Hfresh. lia.
  - destruct Hmax as [E|(E & Hlt & Hd)].
    + exists a0. split; [lia|]. rewrite Hold by done. lia.
    + exists node'. split; [lia | done].
Qed.

Lemma trie_walk_counted n pat : forall m node m' node',
  trie_ok n m -> (node < length (cells m))%nat -> counted m ->
  trie_walk m node pat = inr (m', node') ->
  counted m' /\
  node_count_ m <= node_count_ m' <= node_count_ m + Z.of_nat (length pat).
Proof.
  induction pat as [|c pat IH]; intros m node m' node' Hok Hlt Hc H; simpl in H.
  - injection H as <- <-. split; [done | lia].
  - apply rbind_inr in H as ([m1 n1] & Hs & Hw).
    destruct (trie_step_ok n m node c Hok Hlt (trie_step_idx _ _ _ _ Hs))
      as (m1' & n1' & Hs' & Hok1 & Hlt1 & _).
    assert (m1' = m1 /\ n1' = n1) as [-> ->] by (split; congruence).
    destruct (trie_step_counted _ _ _ _ _ _ Hok Hc Hs) as [Hc1 Hn1].
    destruct (IH _ _ _ _ Hok1 Hlt1 Hc1 Hw) as [Hc2 Hn2].
    split; [done|]. simpl length. lia.
Qed.

Lemma counted_update m p f :
  (forall nd, children (f nd) = children nd) ->
  (forall nd, depth (f nd) = depth nd) ->
  counted m -> counted (set_cells m (update (cells m) p f)).
Proof.
  intros Hch Hdp (Hn & Hle & a0 & Ha0 & Hd0). unfold counted. cbn [cells set_cells
    node_count_ max_depth_]. rewrite update_length.
  split; [done|]. split.
  - intros a Ha. rewrite update_dep by done. by apply Hle.
  - exists a0. split; [done|]. by rewrite update_dep.
Qed.

Lemma trie_insert_counted m i raw m' :
  trie_ok i m -> counted m -> trie_insert m i raw = inr m' ->
  counted m' /\
  node_count_ m <= node_count_ m'
    <= node_count_ m + Z.of_nat (length (clean_text (case_sensitive_ m) raw)).
Proof.
  intros Hok Hc. unfold trie_insert.
  destruct (clean_text (case_sensitive_ m) raw) as [|c pat] eqn:E.
  { intros [= <-]. split; [done | simpl; lia]. }
  intros H. apply rbind_inr in H as ([m1 n1] & Hw & [= <-]).
  assert (Hroot : (root < length (cells m))%nat) by apply (wf_root _ (proj1 Hok)).
  destruct (trie_walk_counted _ _ _ _ _ _ Hok Hroot Hc Hw) as [Hc1 Hn1].
  split; [by apply counted_update | done].
Qed.

Lemma build_trie_from_counted rest : forall m i m',
  trie_ok i m -> counted m -> build_trie_from m i rest = inr m' ->
  counted m' /\
  node_count_ m <= node_count_ m'
    <= node_count_ m + total_length (case_sensitive_ m) rest.
Proof.
  induction rest as [|raw rest IH]; intros m i m' Hok Hc H; simpl in H.
  - injection H as <-. split; [done | simpl; lia].
  - apply rbind_inr in H as (m1 & Hi & Hb).
    destruct (trie_insert_ok m i raw Hok (trie_insert_idx _ _ _ _ Hi))
      as (m1' & Hi' & Hok1 & _ & _ & Hcs).
    assert (m1' = m1) by congruence. subst m1'.
    destruct (trie_insert_counted _ _ _ _ Hok Hc Hi) as [Hc1 Hn1].
    destruct (IH _ _ _ Hok1 Hc1 Hb) as [Hc2 Hn2].
    split; [done|]. rewrite Hcs in Hn2. simpl. lia.
Qed.

(** ** What build_failure_links leaves alone *)

Lemma links_only_refl h : links_only h h.
Proof. split; [done|]. intros a nd Ha. by exists nd. Qed.

Lemma links_only_trans h1 h2 h3 :
  links_only h1 h2 -> links_only h2 h3 -> links_only h1 h3.
Proof.
  intros [L1 H1] [L2 H2]. split; [congruence|]. intros a nd Ha.
  destruct (H1 a nd Ha) as (nd1 & Ha1 & ? & ? & ? & ?).
  destruct (H2 a nd1 Ha1) as (nd2 & Ha2 & ? & ? & ? & ?).
  exists nd2. repeat split; congruence.
Qed.

Lemma links_only_update h c f :
  (forall nd, children (f nd) = children nd) ->
  (forall nd, is_end_of_word (f nd) = is_end_of_word nd) ->
  (forall nd, pattern_indices (f nd) = pattern_indices nd) ->
  (forall nd, depth (f nd) = depth nd) ->
  links_only h (update h c f).
Proof.
  intros H1 H2 H3 H4. split; [apply update_length|]. intros a nd Ha.
  rewrite update_lookup. case_decide.
  - exists (f nd). rewrite Ha. done.
  - by exists nd.
Qed.

Lemma link_child_only h Q cur i h' Q' :
  link_child h Q cur i = inr (h', Q') -> links_only h h'.
Proof.
  unfold link_child. intros H.
  apply rbind_inr in H as (nd & _ & H). apply rbind_inr in H as (ch & _ & H).
  destruct ch as [c|]; [|injection H as <- _; apply links_only_refl].
  apply rbind_inr in H as (g & _ & H). apply rbind_inr in H as (fnode & _ & H).
  apply rbind_inr in H as (fch & _ & H). apply rbind_inr in H as (cn & _ & H).
  apply rbind_inr in H as (tnode & _ & H). injection H as <- _.
  eapply links_only_trans; by apply links_only_update.
Qed.

Lemma link_children_only idxs : forall h Q cur h' Q',
  link_children h Q cur idxs = inr (h', Q') -> links_only h h'.
Proof.
  induction idxs as [|i idxs IH]; intros h Q cur h' Q' H; simpl in H.
  - injection H as <- _. apply links_only_refl.
  - apply rbind_inr in H as ([h1 Q1] & H1 & H2).
    eapply links_only_trans; [by eapply link_child_only | by eapply IH].
Qed.

Lemma link_loop_only fuel : forall h Q h',
  link_loop fuel h Q = inr h' -> links_only h h'.
Proof.
  induction fuel as [|fuel IH]; intros h Q h' H; [done|].
  destruct Q as [|q Q]; [injection H as <-; apply links_only_refl|].
  rewrite link_loop_cons in H. apply rbind_inr in H as ([h1 Q1] & H1 & H2).
  eapply links_only_trans; [by eapply link_children_only | by eapply IH].
Qed.

Lemma link_root_children_only idxs : forall h Q h' Q',
  link_root_children h Q idxs = inr (h', Q') -> links_only h h'.
Proof.
  induction idxs as [|i idxs IH]; intros h Q h' Q' H; simpl in H.
  - injection H as <- _. apply links_only_refl.
  - apply rbind_inr in H as (r & _ & H). apply rbind_inr in H as (ch & _ & H).
    destruct ch as [c|]; [|by eapply IH].
    apply rbind_inr in H as (cn & _ & H).
    eapply links_only_trans; [|by eapply IH]. by apply links_only_update.
Qed.

Lemma build_failure_links_only m m' :
  build_failure_links m = inr m' ->
  links_only (cells m) (cells m') /\ same_config m m' /\
  node_count_ m' = node_count_ m /\ max_depth_ m' = max_depth_ m.
Proof.
  unfold build_failure_links. intros H.
  apply rbind_inr in H as (r & _ & H).
  apply rbind_inr in H as ([h1 Q1] & H1 & H). cbn beta iota in H.
  apply rbind_inr in H as (h2 & H2 & [= <-]). cbn [cells set_cells].
  split; [|done].
  apply (links_only_trans _
    (update (cells m) root (fun nd => set_failure_link nd (Some root))));
    [by apply links_only_update|].
  apply (links_only_trans _ h1);
    [by eapply link_root_children_only | by eapply link_loop_only].
Qed.

Lemma links_only_dep h h' a : links_only h h' -> dep h' a = dep h a.
Proof.
  intros [Hl H]. unfold dep. destruct (h !! a) as [nd|] eqn:Ha.
  - destruct (H a nd Ha) as (nd' & -> & _ & _ & _ & ?). done.
  - rewrite lookup_ge_None_2; [done|]. rewrite Hl. by apply lookup_ge_None.
Qed.

Lemma links_only_kid h h' a i : links_only h h' -> kid h' a i = kid h a i.
Proof.
  intros [Hl H]. unfold kid. destruct (h !! a) as [nd|] eqn:Ha.
  - destruct (H a nd Ha) as (nd' & -> & -> & _). done.
  - rewrite lookup_ge_None_2; [done|]. rewrite Hl. by apply lookup_ge_None.
Qed.

Lemma links_only_pats h h' a : links_only h h' -> pats h' a = pats h a.
Proof.
  intros [Hl H]. unfold pats. destruct (h !! a) as [nd|] eqn:Ha.
  - destruct (H a nd Ha) as (nd' & -> & _ & _ & -> & _). done.
  - rewrite lookup_ge_None_2; [done|]. rewrite Hl. by apply lookup_ge_None.
Qed.

Lemma links_only_spells h h' w a : links_only h h' -> spells h' w a <-> spells h w a.
Proof.
  intros Hl. unfold spells.
  rewrite (walk_from_ext h h'); [done|]. intros b i. by apply links_only_kid.
Qed.

Lemma links_only_marked h h' : links_only h h' -> ends_marked h -> ends_marked h'.
Proof.
  intros [Hl H] Hm. apply Forall_lookup_2. intros a nd' Ha'.
  destruct (lookup_lt_is_Some_2 h a) as [nd Ha].
  { rewrite <- Hl. by eapply lookup_lt_Some. }
  destruct (H a nd Ha) as (nd'' & Ha'' & _ & He & Hp & _).
  assert (nd'' = nd') by congruence. subst nd''. rewrite He, Hp.
  by apply (Forall_lookup_1 _ _ _ _ Hm Ha).
Qed.

Lemma links_only_counted m m' :
  links_only (cells m) (cells m') -> node_count_ m' = node_count_ m ->
  max_depth_ m' = max_depth_ m -> counted m -> counted m'.
Proof.
  intros Hl Hn Hd (Hc & Hle & a0 & Ha0 & Hd0). pose proof Hl as [Hlen _].
  unfold counted. rewrite Hn, Hd, Hlen. split; [done|]. split.
  - intros a Ha. rewrite (links_only_dep _ _ _ Hl). by apply Hle.
  - exists a0. split; [done|]. by rewrite (links_only_dep _ _ _ Hl).
Qed.

(** ** The cells that build_trie makes *)

Lemma trie_step_spells n m node c m' node' w :
  trie_ok n m -> spells (cells m) w node ->
  trie_step m node c = inr (m', node') ->
  spells (cells m') (w ++ [code_nat c]) node' /\
  forall a w', spells (cells m') w' a ->
    spells (cells m) w' a \/ w' = w ++ [code_nat c].
Proof.
  intros Hok Hw H. pose proof Hok as (Hwf & _ & _).
  pose proof (spells_valid _ _ _ Hwf Hw) as Hlt.
  destruct (trie_step_ok n m node c Hok Hlt (trie_step_idx _ _ _ _ H))
    as (m1 & n1 & H' & Hok' & _ & _).
  assert (m1 = m' /\ n1 = node') as [-> ->] by (split; congruence).
  pose proof Hok' as (Hwf' & _ & _).
  destruct (trie_step_edges _ _ _ _ _ _ Hok H) as (Hk & He & _).
  destruct (trie_step_cells _ _ _ _ _ _ Hok H) as (_ & Hnew & _).
  assert (Hsp : spells (cells m') (w ++ [code_nat c]) node').
  { apply walk_from_snoc. exists node. split; [|done]. by apply (spells_kept _ _ _ _ He). }
  split; [done|]. intros a w' Hw'.
  destruct (decide (a < length (cells m))%nat) as [Ha|Ha].
  - left. by apply (spells_old _ (cells m')).
  - right. pose proof (spells_valid _ _ _ Hwf' Hw') as Ha'.
    rewrite (Hnew a) in Hw' by lia. by apply (spells_inj _ Hwf' _ _ node').
Qed.

Lemma trie_walk_spells n pat : forall m node m' node' w,
  trie_ok n m -> spells (cells m) w node ->
  trie_walk m node pat = inr (m', node') ->
  spells (cells m') (w ++ word_of pat) node' /\
  forall a w', spells (cells m') w' a ->
    spells (cells m) w' a \/
    exists w2, w2 <> [] /\ w2 `prefix_of` word_of pat /\ w' = w ++ w2.
Proof.
  induction pat as [|c pat IH]; intros m node m' node' w Hok Hw H; simpl in H.
  - injection H as <- <-. simpl. rewrite app_nil_r. split; [done|]. by left.
  - apply rbind_inr in H as ([m1 n1] & Hs & Hwk).
    pose proof (spells_valid _ _ _ (proj1 Hok) Hw) as Hlt.
    destruct (trie_step_ok n m node c Hok Hlt (trie_step_idx _ _ _ _ Hs))
      as (m1' & n1' & Hs' & Hok1 & _ & _).
    assert (m1' = m1 /\ n1' = n1) as [-> ->] by (split; congruence).
    destruct (trie_step_spells _ _ _ _ _ _ w Hok Hw Hs) as [Hw1 Hnew1].
    destruct (IH _ _ _ _ _ Hok1 Hw1 Hwk) as [Hw2 Hnew2].
    split.
    + simpl. by rewrite <- app_assoc in Hw2.
    + intros a w' Hw'. destruct (Hnew2 a w' Hw') as [Hold|(w2 & Hne & Hp & ->)].
      * destruct (Hnew1 a w' Hold) as [?| ->]; [by left|].
        right. exists [code_nat c]. split; [done|]. split; [|done].
        simpl. by apply prefix_cons, prefix_nil.
      * right. exists (code_nat c :: w2). split; [done|]. split.
        -- simpl. by apply prefix_cons.
        -- by rewrite <- app_assoc.
Qed.

Lemma spells_update h p f w a :
  (forall nd, children (f nd) = children nd) ->
  spells (update h p f) w a <-> spells h w a.
Proof.
  intros Hch. unfold spells. rewrite (walk_from_ext h (update h p f)); [done|].
  intros b i. unfold kid. rewrite update_lookup. case_decide; [|done].
  destruct (h !! b); simpl; [by rewrite Hch | done].
Qed.

(* What the insertion of one pattern does to the trie. *)
Lemma trie_insert_cells m i raw m' :
  trie_ok i m -> trie_insert m i raw = inr m' ->
  let pat := clean_text (case_sensitive_ m) raw in
  (forall w a, spells (cells m) w a -> spells (cells m') w a) /\
  (forall a w, spells (cells m') w a ->
     spells (cells m) w a \/ (w <> [] /\ w `prefix_of` word_of pat)) /\
  (forall a j, j ∈ pats (cells m) a -> j ∈ pats (cells m') a) /\
  (pat <> [] -> exists a, spells (cells m') (word_of pat) a /\ i ∈ pats (cells m') a).
Proof.
  intros Hok H pat. subst pat. unfold trie_insert in H.
  destruct (clean_text (case_sensitive_ m) raw) as [|c pat] eqn:E.
  { injection H as <-. split; [done|]. split; [by left|]. done. }
  apply rbind_inr in H as ([m1 n1] & Hw & [= <-]). cbn [cells set_cells].
  assert (Hroot : (root < length (cells m))%nat) by apply (wf_root _ (proj1 Hok)).
  destruct (trie_walk_ok i m root (c :: pat) Hok Hroot (trie_walk_idx _ _ _ _ Hw))
    as (m1' & n1' & Hw' & Hok1 & Hlt1 & _).
  assert (m1' = m1 /\ n1' = n1) as [-> ->] by (split; congruence).
  destruct (trie_walk_edges _ _ _ _ _ _ Hok Hroot Hw) as (Hsp & He & Hp).
  destruct (trie_walk_spells _ _ _ _ _ _ [] Hok eq_refl Hw) as [_ Hnew].
  split; [|split; [|split]].
  - intros w a Hs. apply spells_update; [done|]. by apply (spells_kept _ _ _ _ He).
  - intros a w Hs. apply spells_update in Hs; [|done].
    destruct (Hnew a w Hs) as [?|(w2 & Hne & Hpre & ->)]; [by left | by right].
  - intros a j. rewrite update_pats_mark, Hp by done. intros Hj.
    case_decide; [|done]. apply elem_of_app. by left.
  - intros _. exists n1. split; [by apply spells_update|].
    rewrite update_pats_mark, decide_True by done.
    apply elem_of_app. right. by apply list_elem_of_singleton.
Qed.

Lemma build_trie_from_cells rest : forall m i m',
  trie_ok i m ->
  (forall j raw, rest !! j = Some raw -> patterns_ m !! (i + j)%nat = Some raw) ->
  stored_below (case_sensitive_ m) (patterns_ m) i (cells m) ->
  no_junk (case_sensitive_ m) (patterns_ m) i (cells m) ->
  build_trie_from m i rest = inr m' ->
  stored_below (case_sensitive_ m) (patterns_ m) (i + length rest) (cells m') /\
  no_junk (case_sensitive_ m) (patterns_ m) (i + length rest) (cells m').
Proof.
  induction rest as [|raw rest IH]; intros m i m' Hok Hps Hst Hnj H; simpl in H.
  - injection H as <-. by rewrite Nat.add_0_r.
  - apply rbind_inr in H as (m1 & Hi & Hb).
    destruct (trie_insert_ok m i raw Hok (trie_insert_idx _ _ _ _ Hi))
      as (m1' & Hi' & Hok1 & Hp1 & Hv1 & Hc1).
    assert (m1' = m1) by congruence. subst m1'.
    assert (Hraw : patterns_ m !! i = Some raw).
    { rewrite <- (Nat.add_0_r i). by apply Hps. }
    destruct (trie_insert_cells _ _ _ _ Hok Hi) as (Hkeep & Hnew & Hpk & Hhere).
    replace (i + length (raw :: rest))%nat with (S i + length rest)%nat
      by (simpl; lia).
    rewrite <- Hp1, <- Hc1. apply (IH m1 (S i) m' Hok1); [| | |done].
    + intros j raw' Hj. rewrite Hp1.
      replace (S i + j)%nat with (i + S j)%nat by lia. by apply Hps.
    + rewrite Hp1, Hc1. intros j rawj Hj Hrawj Hne.
      destruct (decide (j = i)) as [->|Hji].
      * assert (rawj = raw) by congruence. subst rawj. by apply Hhere.
      * destruct (Hst j rawj ltac:(lia) Hrawj Hne) as (a & Ha & Hin).
        exists a. split; [by apply Hkeep | by apply Hpk].
    + rewrite Hp1, Hc1. intros a w Hw Har.
      destruct (Hnew a w Hw) as [Hold|[Hne Hpre]].
      * destruct (Hnj a w Hold Har) as (j & rawj & Hj & Hrawj & Hpj).
        exists j, rawj. split; [lia | done].
      * exists i, raw. split; [lia | done].
Qed.

Lemma trie_step_marked n m node c m' node' :
  trie_ok n m -> ends_marked (cells m) ->
  trie_step m node c = inr (m', node') -> ends_marked (cells m').
Proof.
  intros _ Hm. unfold trie_step. intros H.
  apply rbind_inr in H as (nd & Hnd & H). apply deref_inr in Hnd.
  apply rbind_inr in H as (ch & Hch & H).
  destruct ch as [k|]; injection H as <- <-; [done|].
  cbn [cells]. apply Forall_app. split.
  - apply Forall_insert; [done|]. simpl. by apply (Forall_lookup_1 _ _ _ _ Hm Hnd).
  - apply Forall_singleton. simpl. split; done.
Qed.

Lemma trie_walk_marked n pat : forall m node m' node',
  trie_ok n m -> (node < length (cells m))%nat -> ends_marked (cells m) ->
  trie_walk m node pat = inr (m', node') -> ends_marked (cells m').
Proof.
  induction pat as [|c pat IH]; intros m node m' node' Hok Hlt Hm H; simpl in H.
  - by injection H as <- <-.
  - apply rbind_inr in H as ([m1 n1] & Hs & Hw).
    destruct (trie_step_ok n m node c Hok Hlt (trie_step_idx _ _ _ _ Hs))
      as (m1' & n1' & Hs' & Hok1 & Hlt1 & _).
    assert (m1' = m1 /\ n1' = n1) as [-> ->] by (split; congruence).
    eapply IH; [exact Hok1 | exact Hlt1 | | exact Hw].
    exact (trie_step_marked _ _ _ _ _ _ Hok Hm Hs).
Qed.

Lemma trie_insert_marked m i raw m' :
  trie_ok i m -> ends_marked (cells m) ->
  trie_insert m i raw = inr m' -> ends_marked (cells m').
Proof.
  intros Hok Hm. unfold trie_insert.
  destruct (clean_text (case_sensitive_ m) raw) as [|c pat] eqn:E.
  { by intros [= <-]. }
  intros H. apply rbind_inr in H as ([m1 n1] & Hw & [= <-]). cbn [cells set_cells].
  assert (Hroot : (root < length (cells m))%nat) by apply (wf_root _ (proj1 Hok)).
  pose proof (trie_walk_marked _ _ _ _ _ _ Hok Hroot Hm Hw) as Hm1.
  unfold update. destruct (cells m1 !! n1) as [nd|] eqn:Hn; [|done].
  apply Forall_insert; [done|]. simpl. split; [|done].
  intros _ Hnil. by apply app_eq_nil in Hnil as [_ ?].
Qed.

Lemma build_trie_from_marked rest : forall m i m',
  trie_ok i m -> ends_marked (cells m) ->
  build_trie_from m i rest = inr m' -> ends_marked (cells m').
Proof.
  induction rest as [|raw rest IH]; intros m i m' Hok Hm H; simpl in H.
  - by injection H as <-.
  - apply rbind_inr in H as (m1 & Hi & Hb).
    destruct (trie_insert_ok m i raw Hok (trie_insert_idx _ _ _ _ Hi))
      as (m1' & Hi' & Hok1 & _).
    assert (m1' = m1) by congruence. subst m1'.
    eapply IH; [exact Hok1 | | exact Hb]. exact (trie_insert_marked _ _ _ _ Hok Hm Hi).
Qed.

(** ** The automaton that initialize leaves *)

Lemma pats_inv_root cs ps h : trie_wf h -> pats_inv cs ps h -> pats h root = [].
Proof.
  intros Hwf HI. destruct (pats h root) as [|i l] eqn:E; [done|].
  destruct (HI root i) as (raw & _ & Hne & Hsp).
  { rewrite E. apply elem_of_cons. by left. }
  pose proof (spells_inj h Hwf _ [] _ Hsp eq_refl) as Hw.
  destruct (clean_text cs raw); [done | discriminate].
Qed.

Lemma initialize_built m ps m' :
  initialize m ps = (inr tt, m') ->
  built m' /\ patterns_ m' = ps /\ verbose_ m' = verbose_ m /\
  case_sensitive_ m' = case_sensitive_ m.
Proof.
  intros Hinit.
  destruct (initialize_inv _ _ _ Hinit) as [Hne Hcl].
  destruct (initialize_ok m ps Hne Hcl) as (m'' & Hinit' & Hok & Hids & Hps & Hv & Hcs).
  assert (m'' = m') by congruence. subst m''.
  split; [|done].
  pose proof (initialize_pats _ _ _ Hinit) as HI.
  unfold initialize in Hinit. destruct ps as [|p ps]; [done|].
  set (m1 := mkMatcher _ _ _ _ _ _) in Hinit. unfold build_trie in Hinit.
  change (patterns_ (clear_trie m1)) with (p :: ps) in Hinit.
  destruct (build_trie_from (clear_trie m1) 0 (p :: ps)) as [e|m3] eqn:Hb;
    [discriminate|].
  destruct (build_failure_links m3) as [e|m4] eqn:Hl; [discriminate|].
  injection Hinit as <-.
  pose proof (trie_ok_clear m1) as Hok0.
  destruct (build_trie_from_ok (clear_trie m1) 0 (p :: ps) Hok0) as (m3' & Hb' & Hok3 & Hc3).
  { by eapply build_trie_from_idx. }
  assert (m3' = m3) by congruence. subst m3'.
  destruct (build_failure_links_only _ _ Hl) as (Honly & Hc4 & Hn4 & Hd4).
  assert (Hcfg : patterns_ m3 = p :: ps /\ case_sensitive_ m3 = case_sensitive_ m).
  { destruct Hc3 as (-> & _ & ->). done. }
  destruct Hcfg as [Hp3 Hs3].
  assert (HI3 : pats_inv (case_sensitive_ m) (p :: ps) (cells m3)).
  { apply (build_trie_from_pats (p :: ps) (clear_trie m1) 0%nat m3 Hok0); [done| |done].
    intros a i Hi. unfold pats, clear_trie in Hi.
    destruct a as [|a]; simpl in Hi; by apply elem_of_nil in Hi. }
  destruct (build_trie_from_cells (p :: ps) (clear_trie m1) 0%nat m3 Hok0)
    as [Hst3 Hnj3]; [done | | | done |].
  { intros i raw Hi. lia. }
  { intros a w Hw Ha. unfold spells in Hw. destruct w as [|j w].
    - by apply spells_nil in Hw.
    - simpl in Hw. unfold clear_trie in Hw. simpl in Hw.
      by rewrite (kid_single new_TrieNode) in Hw. }
  change (patterns_ (clear_trie m1)) with (p :: ps) in Hst3, Hnj3.
  change (case_sensitive_ (clear_trie m1)) with (case_sensitive_ m) in Hst3, Hnj3.
  destruct (build_trie_from_counted (p :: ps) (clear_trie m1) 0%nat m3 Hok0)
    as [Hct3 Hcnt3]; [|done|].
  { split; [done|]. split.
    - intros a Ha. simpl in Ha. replace a with 0%nat by lia. done.
    - exists 0%nat. split; [simpl; lia | done]. }
  pose proof (build_trie_from_marked (p :: ps) (clear_trie m1) 0%nat m3 Hok0) as Hmk3.
  destruct (build_failure_links_longest _ _ _ Hok3
              (pats_inv_root _ _ _ (proj1 Hok3) HI3) Hl) as [HF HO].
  split; rewrite ?Hps, ?Hcs; try done.
  - by rewrite <- Hps, <- Hcs.
  - intros i raw Hi Hraw Hnn. destruct (Hst3 i raw Hi Hraw Hnn) as (a & Ha & Hin).
    exists a. split; [by apply (links_only_spells _ _ _ _ Honly)|].
    by rewrite (links_only_pats _ _ _ Honly).
  - intros a w Hw Ha. apply (links_only_spells _ _ _ _ Honly) in Hw.
    exact (Hnj3 a w Hw Ha).
  - by apply (links_only_counted m3).
  - apply (links_only_marked _ _ Honly). apply Hmk3; [|done].
    apply Forall_singleton. done.
  - rewrite Hn4. change (case_sensitive_ (clear_trie m1)) with (case_sensitive_ m) in Hcnt3.
    change (node_count_ (clear_trie m1)) with 1 in Hcnt3. lia.
Qed.

(** ** The scan stands on the longest suffix *)

Lemma scan_symbol_state m ctx line_num lt col c cur acc cur' out :
  scan_symbol m ctx line_num lt col c cur acc = inr (cur', out) ->
  next_state m cur c = inr cur'.
Proof.
  unfold scan_symbol, next_state. destruct (char_to_index c =? -1).
  { by intros [= <- _]. }
  intros H. apply rbind_inr in H as (g & -> & H). cbn [rbind].
  apply rbind_inr in H as (nd & -> & H). cbn [rbind].
  apply rbind_inr in H as (ch & -> & H). cbn [rbind].
  apply rbind_inr in H as (nd' & _ & H).
  destruct (pattern_indices nd'); [by injection H as <- _|].
  apply rbind_inr in H as (acc' & _ & H). by injection H as <- _.
Qed.

Lemma suffix_snoc_cases (w W : list nat) (i : nat) :
  w `suffix_of` W ++ [i] -> w = [] \/ exists w', w = w' ++ [i] /\ w' `suffix_of` W.
Proof.
  destruct w as [|j w' _] using rev_ind; [by left|].
  intros Hs. right. pose proof (suffix_snoc_inv_1 _ _ _ _ Hs) as ->.
  apply suffix_snoc_inv_2 in Hs. eauto.
Qed.

Lemma code_nat_idx c : idx_ok c -> Z.of_nat (code_nat c) = char_to_index c.
Proof. unfold idx_ok, code_nat. lia. Qed.

Lemma next_state_longest m c cur cur' s :
  links_ok (cells m) -> fl_longest (cells m) -> idx_ok c ->
  at_longest (cells m) cur s -> next_state m cur c = inr cur' ->
  at_longest (cells m) cur' (s ++ [c]).
Proof.
  intros Hok HF Hc Hat H. pose proof (lk_wf _ Hok) as Hwf.
  unfold next_state in H.
  destruct (char_to_index c =? -1) eqn:Hidx.
  { apply Z.eqb_eq in Hidx. by apply idx_ok_iff in Hc. }
  rewrite <- (code_nat_idx c Hc) in H.
  apply rbind_inr in H as (g & Hg & H).
  apply rbind_inr in H as (nd & Hnd & H). apply deref_inr in Hnd.
  apply rbind_inr in H as (ch & Hch & [= <-]).
  pose proof (child_kid _ _ _ _ _ Hnd Hch) as Hkg.
  intros u w Hw Hs. rewrite word_of_snoc in Hs.
  destruct (suffix_snoc_cases _ _ _ Hs) as [->|(w' & -> & Hs')].
  { apply spells_nil in Hw. subst u. apply sfx_root. }
  apply walk_from_snoc in Hw as (u' & Hu' & Hku).
  pose proof (Hat u' w' Hu' Hs') as Hsu.
  destruct (goto_longest _ _ _ _ _ _ _ Hwf HF Hg Hsu Hku) as (t & Ht & Hst).
  rewrite Ht in Hkg. subst ch. exact Hst.
Qed.

Lemma at_longest_root h : at_longest h root [].
Proof.
  intros u w Hw Hs. apply suffix_nil_inv in Hs. subst w.
  apply spells_nil in Hw. subst u. apply sfx_refl.
Qed.

(** ** The walk along the output links meets every pattern that ends here *)

Lemma emit_matches_complete m line_num lt col ctx ids : forall acc out,
  emit_matches m acc (size_add (Z.of_nat line_num) 1) (size_add (Z.of_nat col) 1)
               lt (Z.of_nat col) ctx ids = inr out ->
  (forall r, r ∈ acc -> r ∈ out) /\
  forall id, id ∈ ids -> exists r, r ∈ out /\ record_at m ctx line_num lt col id r.
Proof.
  induction ids as [|id ids IH]; intros acc out H; simpl in H.
  - injection H as <-. split; [done|]. intros id Hid. by apply elem_of_nil in Hid.
  - apply rbind_inr in H as (acc' & H1 & H2).
    apply emit_match_record in H1 as (r1 & -> & Hr1 & _).
    destruct (IH _ _ H2) as [Hmono Hall]. split.
    + intros r Hr. apply Hmono, elem_of_app. by left.
    + intros id' Hid'. apply elem_of_cons in Hid' as [->|Hid']; [|by apply Hall].
      exists r1. split; [|done]. apply Hmono, elem_of_app. right.
      by apply list_elem_of_singleton.
Qed.

Lemma collect_matches_complete m line_num lt col ctx :
  links_ok (cells m) -> ol_longest (cells m) ->
  forall fuel t acc out,
    collect_matches fuel m (Some t) acc (size_add (Z.of_nat line_num) 1)
                    (size_add (Z.of_nat col) 1) lt (Z.of_nat col) ctx = inr out ->
    (forall r, r ∈ acc -> r ∈ out) /\
    forall u id, sfx (cells m) u t -> id ∈ pats (cells m) u ->
      exists r, r ∈ out /\ record_at m ctx line_num lt col id r.
Proof.
  intros Hok HO. induction fuel as [|fuel IH]; intros t acc out H; simpl in H;
    [done|].
  apply rbind_inr in H as (nd & Hnd & H). apply deref_inr in Hnd.
  apply rbind_inr in H as (acc' & H1 & H2).
  destruct (emit_matches_complete _ _ _ _ _ _ _ _ H1) as [Hmono1 Hall1].
  assert (Hmono2 : forall r, r ∈ acc' -> r ∈ out).
  { destruct (output_link nd) as [o|]; [by apply (proj1 (IH _ _ _ H2))|].
    destruct fuel; simpl in H2; by injection H2 as <-. }
  split; [by auto|]. intros u id Hs Hid.
  destruct (decide (u = t)) as [->|Hne].
  { unfold pats in Hid. rewrite Hnd in Hid.
    destruct (Hall1 id Hid) as (r & Hr & Hrec). exists r. auto. }
  assert (Hlt : (t < length (cells m))%nat) by (by eapply lookup_lt_Some).
  assert (Hfl : is_Some (flink (cells m) t)).
  { destruct (decide (t = root)) as [->|Htr].
    - rewrite (lk_root _ Hok). by eexists.
    - destruct (lk_fl _ Hok t) as (f & -> & _); [unfold root in Htr; lia|].
      by eexists. }
  destruct (HO t u Hfl Hs Hne) as (o & Ho & Hso).
  { intros E. rewrite E in Hid. by apply elem_of_nil in Hid. }
  unfold olink in Ho. rewrite Hnd in Ho. rewrite Ho in H2.
  by apply (proj2 (IH _ _ _ H2) u id).
Qed.

Lemma scan_symbol_mono m ctx line_num lt col c cur acc cur' out :
  scan_symbol m ctx line_num lt col c cur acc = inr (cur', out) ->
  forall r, r ∈ acc -> r ∈ out.
Proof.
  intros H r Hr. rewrite (appends2_scan_symbol m ctx line_num lt col c cur acc) in H.
  destruct (scan_symbol m ctx line_num lt col c cur []) as [e|[x new]]; [done|].
  injection H as _ <-. apply elem_of_app. by left.
Qed.

Lemma scan_line_mono m ctx line_num lt rest col cur acc out :
  scan_line m ctx line_num lt col rest cur acc = inr out ->
  forall r, r ∈ acc -> r ∈ out.
Proof.
  intros H r Hr. rewrite (appends_scan_line m ctx line_num lt rest col cur acc) in H.
  destruct (scan_line m ctx line_num lt col rest cur []) as [e|new]; [done|].
  injection H as <-. apply elem_of_app. by left.
Qed.

(* One turn of the scan, when the new state holds a pattern id: a record
   for every pattern whose cell spells a suffix of the word of the state. *)
Lemma scan_symbol_complete m ctx line_num lt col c cur acc cur' out :
  links_ok (cells m) -> ol_longest (cells m) ->
  scan_symbol m ctx line_num lt col c cur acc = inr (cur', out) ->
  idx_ok c -> pats (cells m) cur' <> [] ->
  forall u id, sfx (cells m) u cur' -> id ∈ pats (cells m) u ->
    exists r, r ∈ out /\ record_at m ctx line_num lt col id r.
Proof.
  intros Hok HO H Hc Hp u id Hs Hid.
  pose proof (scan_symbol_state _ _ _ _ _ _ _ _ _ _ H) as Hst.
  unfold scan_symbol in H. unfold next_state in Hst.
  destruct (char_to_index c =? -1) eqn:Hidx.
  { apply Z.eqb_eq in Hidx. by apply idx_ok_iff in Hc. }
  apply rbind_inr in H as (g & Hg & H). rewrite Hg in Hst. cbn [rbind] in Hst.
  apply rbind_inr in H as (nd & Hnd & H). rewrite Hnd in Hst. cbn [rbind] in Hst.
  apply rbind_inr in H as (ch & Hch & H). rewrite Hch in Hst. cbn [rbind] in Hst.
  injection Hst as Hst. rewrite Hst in H.
  apply rbind_inr in H as (nd' & Hnd' & H). apply deref_inr in Hnd'.
  unfold pats in Hp. rewrite Hnd' in Hp.
  destruct (pattern_indices nd') as [|x xs]; [done|].
  apply rbind_inr in H as (acc' & Hcm & [= <-]).
  by apply (proj2 (collect_matches_complete _ _ _ _ _ Hok HO _ _ _ _ Hcm) u id).
Qed.

(** ** Every occurrence at a state that holds a pattern is reported *)

Lemma word_of_length s : length (word_of s) = length s.
Proof. unfold word_of. apply length_map. Qed.

Lemma suffix_same_length {A} (l1 l2 : list A) :
  l1 `suffix_of` l2 -> (length l2 <= length l1)%nat -> l1 = l2.
Proof.
  intros [k ->] Hl. rewrite length_app in Hl.
  destruct k; [done | simpl in Hl; lia].
Qed.

(* The prefixes of the stored patterns are words of the trie. *)
Lemma prefix_spelled m i raw w :
  built m -> patterns_ m !! i = Some raw ->
  w `prefix_of` word_of (clean_text (case_sensitive_ m) raw) ->
  exists u, spells (cells m) w u.
Proof.
  intros Hb Hraw [k Hk].
  destruct (clean_text (case_sensitive_ m) raw) as [|c pat] eqn:E.
  { simpl in Hk. symmetry in Hk. apply app_eq_nil in Hk as [-> _]. by exists root. }
  destruct (bt_stored _ Hb i raw) as (a & Ha & _).
  { by eapply lookup_lt_Some. } { done. } { by rewrite E. }
  rewrite E, Hk in Ha. unfold spells in Ha. rewrite walk_from_app in Ha.
  destruct (walk_from (cells m) root w) as [u|] eqn:Hu; [by exists u | done].
Qed.

(* Where the longest prefix of a pattern that ends here is a whole pattern,
   the state holds its id. *)
Lemma longest_is_pattern m cur s :
  built m -> at_suffix (cells m) cur s -> at_longest (cells m) cur s ->
  ends_pattern (case_sensitive_ m) (patterns_ m) (word_of s) ->
  pats (cells m) cur <> [].
Proof.
  intros Hb (wc & Hwc & Hsc) Hat (j & rawj & Hj & Hne & Hsj & Hmax).
  pose proof (lk_wf _ (bt_links _ Hb)) as Hwf.
  destruct (bt_stored _ Hb j rawj) as (a & Ha & Hin);
    [by eapply lookup_lt_Some | done | done |].
  pose proof (Hat a _ Ha Hsj) as Hsa.
  destruct (Hsa wc Hwc) as (wa & Hwa & Hswa).
  rewrite (spells_inj _ Hwf _ _ _ Hwa Ha) in Hswa.
  assert (Hlen : (length wc <= length (word_of (clean_text (case_sensitive_ m) rawj)))%nat).
  { rewrite word_of_length. destruct (decide (cur = root)) as [->|Hcr].
    - rewrite (spells_inj _ Hwf _ [] _ Hwc eq_refl). simpl. lia.
    - destruct (bt_junk _ Hb cur wc Hwc Hcr) as (q & rawq & _ & Hq & Hpre).
      by apply (Hmax q rawq wc). }
  pose proof (suffix_same_length _ _ Hswa Hlen) as E. rewrite E in Ha.
  rewrite (spells_fun _ _ _ _ Hwc Ha). intros Hnil. rewrite Hnil in Hin.
  by apply elem_of_nil in Hin.
Qed.

Lemma scan_line_complete m ctx line_num lt :
  built m ->
  forall rest pre cur acc out,
    lt = pre ++ rest -> Forall idx_ok rest ->
    (cur < length (cells m))%nat ->
    at_suffix (cells m) cur pre -> at_longest (cells m) cur pre ->
    scan_line m ctx line_num lt (length pre) rest cur acc = inr out ->
    forall pos i raw, (length pre <= pos < length lt)%nat ->
      patterns_ m !! i = Some raw ->
      clean_text (case_sensitive_ m) raw <> [] ->
      word_of (clean_text (case_sensitive_ m) raw)
        `suffix_of` word_of (take (S pos) lt) ->
      ends_pattern (case_sensitive_ m) (patterns_ m) (word_of (take (S pos) lt)) ->
      exists r, r ∈ out /\ record_at m ctx line_num lt pos i r.
Proof.
  intros Hb. pose proof (bt_links _ Hb) as Hok.
  induction rest as [|c rest IH];
    intros pre cur acc out Hlt Hidx Hcur Has Hal H pos i raw Hpos Hraw Hne Hsfx Hend.
  { rewrite Hlt, length_app in Hpos. simpl in Hpos. lia. }
  simpl in H. apply rbind_inr in H as ([cur' acc'] & Hs & Hl).
  inversion Hidx as [|? ? Hc Hrest]; subst.
  destruct (scan_symbol_sound _ _ _ _ _ _ _ _ _ _ pre Hok (bt_pats _ Hb) Hcur Hc Has Hs)
    as (Hcur' & Has' & _).
  pose proof (next_state_longest _ _ _ _ _ Hok (bt_fl _ Hb) Hc Hal
                (scan_symbol_state _ _ _ _ _ _ _ _ _ _ Hs)) as Hal'.
  assert (Hlen : S (length pre) = length (pre ++ [c]))
    by (rewrite length_app; simpl; lia).
  assert (Happ : pre ++ c :: rest = (pre ++ [c]) ++ rest) by (by rewrite <- app_assoc).
  destruct (decide (pos = length pre)) as [->|Hgt].
  - rewrite Happ, Hlen, take_app_length in Hsfx, Hend.
    pose proof (longest_is_pattern _ _ _ Hb Has' Hal' Hend) as Hp.
    destruct (bt_stored _ Hb i raw) as (u & Hu & Hin);
      [by eapply lookup_lt_Some | done | done |].
    destruct (scan_symbol_complete _ _ _ _ _ _ _ _ _ _ Hok (bt_ol _ Hb) Hs Hc Hp u i)
      as (r & Hr & Hrec); [by apply (Hal' u _ Hu) | done |].
    exists r. split; [|done]. by apply (scan_line_mono _ _ _ _ _ _ _ _ _ Hl).
  - rewrite Hlen in Hl.
    apply (IH (pre ++ [c]) cur' acc' out Happ Hrest Hcur' Has' Hal' Hl pos i raw);
      try done.
    rewrite <- Hlen. lia.
Qed.

Lemma run_states_longest m :
  built m ->
  forall s pre cur, Forall idx_ok s -> (cur < length (cells m))%nat ->
    at_suffix (cells m) cur pre -> at_longest (cells m) cur pre ->
    exists cur', run_states m s cur = inr cur' /\ (cur' < length (cells m))%nat /\
      at_suffix (cells m) cur' (pre ++ s) /\ at_longest (cells m) cur' (pre ++ s).
Proof.
  intros Hb. pose proof (bt_links _ Hb) as Hok.
  induction s as [|c s IH]; intros pre cur Hidx Hcur Has Hal; simpl.
  - exists cur. by rewrite app_nil_r.
  - inversion Hidx as [|? ? Hc Hrest]; subst.
    destruct (scan_symbol_ok m 0 0%nat [] 0%nat c cur [] Hok (bt_ids _ Hb) Hcur)
      as (cur' & acc' & Hs & Hcur').
    rewrite (scan_symbol_state _ _ _ _ _ _ _ _ _ _ Hs). cbn [rbind].
    destruct (scan_symbol_sound _ _ _ _ _ _ _ _ _ _ pre Hok (bt_pats _ Hb) Hcur Hc Has Hs)
      as (_ & Has' & _).
    pose proof (next_state_longest _ _ _ _ _ Hok (bt_fl _ Hb) Hc Hal
                  (scan_symbol_state _ _ _ _ _ _ _ _ _ _ Hs)) as Hal'.
    destruct (IH (pre ++ [c]) cur' Hrest Hcur' Has' Hal') as (cur'' & Hr & ? & ? & ?).
    exists cur''. by rewrite <- app_assoc in *.
Qed.

(* The records of the patterns that end where the scan holds a pattern id. *)
Lemma search_complete m0 ps m text ctx out k ln pos i raw :
  initialize m0 ps = (inr tt, m) -> search m text ctx = inr out ->
  lines_of m text !! k = Some ln -> (pos < length ln)%nat ->
  ps !! i = Some raw -> clean_text (case_sensitive_ m) raw <> [] ->
  word_of (clean_text (case_sensitive_ m) raw) `suffix_of` word_of (take (S pos) ln) ->
  ends_pattern (case_sensitive_ m) ps (word_of (take (S pos) ln)) ->
  exists r, r ∈ out /\ record_at m ctx k ln pos i r /\
    line r = size_add (Z.of_nat k) 1 /\ pattern_id r = i /\ pattern r = raw /\
    column r = size_add (size_sub (size_add (Z.of_nat pos) 1)
                                  (Z.of_nat (length raw))) 1.
Proof.
  intros Hinit Hs Hk Hpos Hraw Hne Hsfx Hend.
  destruct (initialize_built _ _ _ Hinit) as (Hb & Hps & _ & _).
  pose proof (bt_links _ Hb) as Hok. pose proof (lk_wf _ Hok) as Hwf.
  rewrite <- Hps in Hraw, Hend.
  destruct (scan_line_ok m ctx k ln Hok (bt_ids _ Hb) ln 0%nat root [])
    as [new Hnew]; [apply (wf_root _ Hwf)|].
  pose proof (lines_of_class _ _ _ _ Hk) as Hclass.
  destruct (scan_line_complete m ctx k ln Hb ln [] root [] new) with (pos := pos)
    (i := i) (raw := raw) as (r & Hr & Hrec);
    [done | | apply (wf_root _ Hwf) | apply at_suffix_root | apply at_longest_root
    | done | simpl; lia | done | done | done | done |].
  { eapply Forall_impl; [exact Hclass|]. by intros c [? _]. }
  exists r. split.
  { apply (search_elem _ _ _ _ Hs). exists k, ln, new. done. }
  split; [done|]. destruct Hrec as (pat & c & Hpat & _ & ->). simpl.
  assert (pat = raw) by congruence. by subst pat.
Qed.

(** ** A pattern id is stored once *)

Lemma trie_step_once m node c m' node' :
  ids_once (cells m) -> trie_step m node c = inr (m', node') -> ids_once (cells m').
Proof.
  intros Hm. unfold trie_step. intros H.
  apply rbind_inr in H as (nd & Hnd & H). apply deref_inr in Hnd.
  apply rbind_inr in H as (ch & Hch & H).
  destruct ch as [k|]; injection H as <- <-; [done|].
  cbn [cells]. apply Forall_app. split.
  - apply Forall_insert; [done|]. simpl. by apply (Forall_lookup_1 _ _ _ _ Hm Hnd).
  - apply Forall_singleton. simpl. constructor.
Qed.

Lemma trie_walk_once pat : forall m node m' node',
  ids_once (cells m) -> trie_walk m node pat = inr (m', node') -> ids_once (cells m').
Proof.
  induction pat as [|c pat IH]; intros m node m' node' Hm H; simpl in H.
  - by injection H as <- <-.
  - apply rbind_inr in H as ([m1 n1] & Hs & Hw).
    eapply IH; [|exact Hw]. exact (trie_step_once _ _ _ _ _ Hm Hs).
Qed.

Lemma trie_insert_once m i raw m' :
  trie_ok i m -> ids_once (cells m) ->
  trie_insert m i raw = inr m' -> ids_once (cells m').
Proof.
  intros Hok Hm. unfold trie_insert.
  destruct (clean_text (case_sensitive_ m) raw) as [|c pat] eqn:E.
  { by intros [= <-]. }
  intros H. apply rbind_inr in H as ([m1 n1] & Hw & [= <-]). cbn [cells set_cells].
  assert (Hroot : (root < length (cells m))%nat) by apply (wf_root _ (proj1 Hok)).
  destruct (trie_walk_ok i m root (c :: pat) Hok Hroot (trie_walk_idx _ _ _ _ Hw))
    as (m1' & n1' & Hw' & (_ & _ & Hids1) & _ & _).
  assert (m1' = m1 /\ n1' = n1) as [-> ->] by (split; congruence).
  pose proof (trie_walk_once _ _ _ _ _ Hm Hw) as Hm1.
  unfold update. destruct (cells m1 !! n1) as [nd|] eqn:Hn; [|done].
  apply Forall_insert; [done|]. simpl.
  apply NoDup_app. split; [by apply (Forall_lookup_1 _ _ _ _ Hm1 Hn)|].
  split; [|apply NoDup_singleton].
  intros x Hx Hxi. apply list_elem_of_singleton in Hxi. subst x.
  pose proof (Forall_lookup_1 _ _ _ _ Hids1 Hn) as Hb. simpl in Hb.
  pose proof (proj1 (Forall_forall _ _) Hb i Hx) as Hlt. simpl in Hlt. lia.
Qed.

Lemma build_trie_from_once rest : forall m i m',
  trie_ok i m -> ids_once (cells m) ->
  build_trie_from m i rest = inr m' -> ids_once (cells m').
Proof.
  induction rest as [|raw rest IH]; intros m i m' Hok Hm H; simpl in H.
  - by injection H as <-.
  - apply rbind_inr in H as (m1 & Hi & Hb).
    destruct (trie_insert_ok m i raw Hok (trie_insert_idx _ _ _ _ Hi))
      as (m1' & Hi' & Hok1 & _).
    assert (m1' = m1) by congruence. subst m1'.
    eapply IH; [exact Hok1 | | exact Hb]. exact (trie_insert_once _ _ _ _ Hok Hm Hi).
Qed.

Lemma links_only_once h h' : links_only h h' -> ids_once h -> ids_once h'.
Proof.
  intros [Hl H] Hm. apply Forall_lookup_2. intros a nd' Ha'.
  destruct (lookup_lt_is_Some_2 h a) as [nd Ha].
  { rewrite <- Hl. by eapply lookup_lt_Some. }
  destruct (H a nd Ha) as (nd'' & Ha'' & _ & _ & Hp & _).
  assert (nd'' = nd') by congruence. subst nd''. rewrite Hp.
  by apply (Forall_lookup_1 _ _ _ _ Hm Ha).
Qed.

Lemma initialize_once m ps m' :
  initialize m ps = (inr tt, m') -> ids_once (cells m').
Proof.
  intros Hinit. unfold initialize in Hinit. destruct ps as [|p ps]; [done|].
  set (m1 := mkMatcher _ _ _ _ _ _) in Hinit. unfold build_trie in Hinit.
  change (patterns_ (clear_trie m1)) with (p :: ps) in Hinit.
  destruct (build_trie_from (clear_trie m1) 0 (p :: ps)) as [e|m3] eqn:Hb;
    [discriminate|].
  destruct (build_failure_links m3) as [e|m4] eqn:Hl; [discriminate|].
  injection Hinit as <-.
  destruct (build_failure_links_only _ _ Hl) as (Honly & _).
  apply (links_only_once _ _ Honly).
  apply (build_trie_from_once (p :: ps) (clear_trie m1) 0%nat m3 (trie_ok_clear m1));
    [|done].
  apply Forall_singleton. constructor.
Qed.

(** ** Every match is reported once *)

Lemma sfx_dep h u b : trie_wf h -> (b < length h)%nat -> sfx h u b -> dep h u <= dep h b.
Proof.
  intros Hwf Hb Hs. destruct (spells_exists h Hwf b Hb) as [wb Hwb].
  destruct (Hs wb Hwb) as (wu & Hwu & Hsu).
  rewrite (dep_spells _ Hwf _ _ Hwb), (dep_spells _ Hwf _ _ Hwu).
  apply suffix_length in Hsu. lia.
Qed.

Lemma emit_matches_id_list m ln col lt pos ctx ids : forall acc out,
  emit_matches m acc ln col lt pos ctx ids = inr out ->
  exists new, out = acc ++ new /\ map pattern_id new = ids.
Proof.
  induction ids as [|id ids IH]; intros acc out H; simpl in H.
  - injection H as <-. exists []. by rewrite app_nil_r.
  - apply rbind_inr in H as (acc' & H1 & H2).
    apply emit_match_id in H1 as (r1 & -> & Hid).
    destruct (IH _ _ H2) as (new & -> & Hn). exists (r1 :: new).
    split; [by rewrite <- app_assoc|]. simpl. by rewrite Hid, Hn.
Qed.

Lemma collect_matches_once m ln col lt pos ctx :
  built m -> ids_once (cells m) ->
  forall fuel t out,
    collect_matches fuel m (Some t) [] ln col lt pos ctx = inr out ->
    NoDup (map pattern_id out).
Proof.
  intros Hb Hon. pose proof (bt_links _ Hb) as Hok. pose proof (lk_wf _ Hok) as Hwf.
  induction fuel as [|fuel IH]; intros t out H; simpl in H; [done|].
  apply rbind_inr in H as (nd & Hnd & H). apply deref_inr in Hnd.
  apply rbind_inr in H as (acc' & H1 & H2).
  destruct (emit_matches_id_list _ _ _ _ _ _ _ _ _ H1) as (new & -> & Hnew).
  simpl in H2. pose proof (Forall_lookup_1 _ _ _ _ Hon Hnd) as Hnd1. simpl in Hnd1.
  destruct (output_link nd) as [o|] eqn:Ho.
  - rewrite (appends_collect_matches m ln col lt pos ctx fuel (Some o) new) in H2.
    destruct (collect_matches fuel m (Some o) [] ln col lt pos ctx) as [e|rest] eqn:Hr;
      [done|].
    injection H2 as <-. rewrite map_app, Hnew. apply NoDup_app.
    split; [done|]. split; [|by apply (IH o)].
    intros id Hid Hin. apply list_elem_of_fmap in Hin as (r & -> & Hr').
    assert (Hol : olink (cells m) t = Some o) by (unfold olink; by rewrite Hnd).
    destruct (lk_ol _ Hok _ _ Hol) as (Hov & _ & Hod).
    destruct (collect_matches_ids _ _ _ _ _ _ Hok _ _ _ _ Hr r Hr')
      as [Hnil|(o' & Hio & Hso)]; [by apply elem_of_nil in Hnil|].
    pose proof (sfx_dep _ _ _ Hwf Hov Hso) as Hd.
    destruct (bt_pats _ Hb o' _ Hio) as (raw & Hraw & _ & Hsp).
    destruct (bt_pats _ Hb t (pattern_id r)) as (raw' & Hraw' & _ & Hsp').
    { unfold pats. by rewrite Hnd. }
    assert (raw' = raw) by congruence. subst raw'.
    pose proof (spells_fun _ _ _ _ Hsp Hsp'). subst o'. lia.
  - destruct fuel; simpl in H2; injection H2 as <-; by rewrite Hnew.
Qed.

Lemma scan_symbol_once m ctx line_num lt col c cur cur' out :
  built m -> ids_once (cells m) ->
  scan_symbol m ctx line_num lt col c cur [] = inr (cur', out) ->
  NoDup (map pattern_id out).
Proof.
  intros Hb Hon. unfold scan_symbol. destruct (char_to_index c =? -1).
  { intros [= _ <-]. constructor. }
  intros H. apply rbind_inr in H as (g & _ & H).
  apply rbind_inr in H as (nd & _ & H). apply rbind_inr in H as (ch & _ & H).
  apply rbind_inr in H as (nd' & _ & H).
  destruct (pattern_indices nd'); [injection H as _ <-; constructor|].
  apply rbind_inr in H as (acc' & Hcm & [= _ <-]).
  by eapply collect_matches_once.
Qed.

(* The records of the rest of a line stand at or after the column of the
   scan. *)
Lemma scan_line_places m ctx line_num lt rest : forall col cur acc out,
  scan_line m ctx line_num lt col rest cur acc = inr out ->
  (col + length rest = length lt)%nat ->
  forall r, r ∈ out ->
    r ∈ acc \/ exists pos, (col <= pos < length lt)%nat /\
                 record_at m ctx line_num lt pos (pattern_id r) r.
Proof.
  induction rest as [|c rest IH]; intros col cur acc out H Hlen r Hr; simpl in H.
  - injection H as <-. by left.
  - apply rbind_inr in H as ([cur' acc'] & H1 & H2). simpl in Hlen.
    destruct (IH _ _ _ _ H2 ltac:(lia) r Hr) as [Hin|(pos & Hpos & Hrec)].
    + destruct (scan_symbol_records _ _ _ _ _ _ _ _ _ _ H1 r Hin) as [Hacc|Hrec];
        [by left|].
      right. exists col. split; [lia | done].
    + right. exists pos. split; [lia | done].
Qed.

Lemma record_at_inj m ctx k ln pos1 pos2 id r :
  Z.of_nat (length ln) < SIZE_MOD -> (pos1 < length ln)%nat -> (pos2 < length ln)%nat ->
  record_at m ctx k ln pos1 id r -> record_at m ctx k ln pos2 id r -> pos1 = pos2.
Proof.
  intros Hln H1 H2 (pat1 & c1 & Hp1 & _ & E1) (pat2 & c2 & Hp2 & _ & E2).
  assert (pat2 = pat1) by congruence. subst pat2.
  rewrite E1 in E2. injection E2 as Hc _.
  apply column_inj in Hc; lia.
Qed.

Lemma scan_line_once m ctx line_num lt :
  built m -> ids_once (cells m) -> Z.of_nat (length lt) < SIZE_MOD ->
  forall rest col cur out,
    (col + length rest = length lt)%nat ->
    scan_line m ctx line_num lt col rest cur [] = inr out -> NoDup out.
Proof.
  intros Hb Hon Hln. induction rest as [|c rest IH]; intros col cur out Hlen H;
    simpl in H.
  - injection H as <-. constructor.
  - apply rbind_inr in H as ([cur' n1] & H1 & H2). simpl in Hlen.
    rewrite (appends_scan_line m ctx line_num lt rest (S col) cur' n1) in H2.
    destruct (scan_line m ctx line_num lt (S col) rest cur' []) as [e|n2] eqn:Hr;
      [done|].
    injection H2 as <-. apply NoDup_app. split; [|split].
    + eapply NoDup_fmap_1. by eapply scan_symbol_once.
    + intros r Hr1 Hr2.
      destruct (scan_symbol_records _ _ _ _ _ _ _ _ _ _ H1 r Hr1) as [Hnil|Hrec1];
        [by apply elem_of_nil in Hnil|].
      destruct (scan_line_places _ _ _ _ _ _ _ _ _ Hr ltac:(lia) r Hr2)
        as [Hnil|(pos & Hpos & Hrec2)]; [by apply elem_of_nil in Hnil|].
      assert (col = pos); [|lia].
      apply (record_at_inj m ctx line_num lt col pos (pattern_id r) r); [done|lia|lia|done|done].
    + apply (IH (S col) cur'); [lia | done].
Qed.

Lemma scan_lines_once m ctx :
  built m -> ids_once (cells m) ->
  forall lines k0 out,
    Z.of_nat (k0 + length lines) < SIZE_MOD ->
    Forall (fun ln => Z.of_nat (length ln) < SIZE_MOD) lines ->
    scan_lines m ctx k0 lines [] = inr out -> NoDup out.
Proof.
  intros Hb Hon. induction lines as [|l lines IH]; intros k0 out Hk Hall H;
    simpl in H.
  - injection H as <-. constructor.
  - apply rbind_inr in H as (n1 & H1 & H2).
    rewrite (appends_scan_lines m ctx lines (S k0) n1) in H2.
    destruct (scan_lines m ctx (S k0) lines []) as [e|n2] eqn:Hr; [done|].
    injection H2 as <-. inversion Hall as [|? ? Hl Hrest]; subst.
    simpl in Hk. apply NoDup_app. split; [|split].
    + apply (scan_line_once m ctx k0 l Hb Hon Hl l 0%nat root); [simpl; lia | done].
    + intros r Hr1 Hr2.
      pose proof (scan_line_line _ _ _ _ _ _ H1 Hr1) as Hl1.
      apply (scan_lines_elem _ _ _ _ _ Hr) in Hr2 as (j & ln & new & Hj & Hs & Hr2).
      pose proof (scan_line_line _ _ _ _ _ _ Hs Hr2) as Hl2.
      pose proof (lookup_lt_Some _ _ _ Hj) as Hjl.
      rewrite !size_add_small in * by lia. lia.
    + apply (IH (S k0)); [lia | done | done].
Qed.

(** ** Normalization keeps what it has normalized *)

Lemma clean_text_app cs t1 t2 :
  clean_text cs (t1 ++ t2) = clean_text cs t1 ++ clean_text cs t2.
Proof.
  induction t1 as [|c t1 IH]; simpl; [done|]. rewrite IH.
  by repeat match goal with |- context [if ?b then _ else _] => destruct b end.
Qed.

(* The symbols that clean_text keeps are kept as they are when they are
   cleaned again. *)
Lemma clean_text_kept cs c :
  (idx_ok c /\ (cs = false -> lowerish c)) \/ code_of c = NEWLINE ->
  forall t, clean_text cs (c :: t) = c :: clean_text cs t.
Proof.
  intros Hc t. simpl. pose proof (code_of_bound c) as Hb.
  destruct (isalpha (code_of c)) eqn:Ha.
  - destruct cs; [done|]. f_equal.
    destruct Hc as [[_ Hl]|Hn].
    + destruct (Hl eq_refl) as [Hl'|[Hs|Hh]].
      * unfold tolower, is_upper, is_lower in *.
        destruct ((65 <=? code_of c) && (code_of c <=? 90)) eqn:E; zbool; try lia;
          apply char_code.
      * unfold isalpha, is_upper, is_lower, SPACE in *. zbool; lia.
      * unfold isalpha, is_upper, is_lower, HYPHEN in *. zbool; lia.
    + unfold isalpha, is_upper, is_lower, NEWLINE in *. zbool; lia.
  - destruct ((code_of c =? SPACE) || (code_of c =? HYPHEN) || (code_of c =? NEWLINE)) eqn:Hs;
      [done|].
    exfalso. destruct Hc as [[Hi _]|Hn].
    + apply idx_ok_iff in Hi.
      destruct (char_to_index_cases c) as [[? E]|[[? E]|[[Hx E]|[[Hx E]|(? & ? & _ & E)]]]];
        try done; unfold isalpha in Ha; zbool; congruence.
    + zbool. congruence.
Qed.

Lemma clean_text_fixed cs : forall t,
  Forall (fun c => (idx_ok c /\ (cs = false -> lowerish c)) \/ code_of c = NEWLINE) t ->
  clean_text cs t = t.
Proof.
  induction 1 as [|c t Hc _ IH]; [done|].
  rewrite (clean_text_kept cs c Hc). by rewrite IH.
Qed.

(** ** The lines of a text *)

Lemma split_lines_no_newline text :
  Forall (Forall (fun c => code_of c <> NEWLINE)) (split_lines text).
Proof.
  unfold split_lines. apply split_lines_from_Forall; [|constructor].
  apply Forall_forall. intros c _. destruct (decide (code_of c = NEWLINE)); auto.
Qed.

Lemma split_lines_single text :
  text <> [] -> Forall (fun c => code_of c <> NEWLINE) text ->
  split_lines text = [text].
Proof.
  intros Hne Hno. unfold split_lines.
  assert (Hgen : forall t cur, Forall (fun c => code_of c <> NEWLINE) t ->
            rev cur ++ t <> [] -> split_lines_from cur t = [rev cur ++ t]).
  { induction t as [|c t IH]; intros cur Ht Hn; simpl.
    - rewrite app_nil_r in *. by destruct cur.
    - inversion Ht as [|? ? Hc Ht']; subst. apply Z.eqb_neq in Hc. rewrite Hc.
      rewrite IH; [simpl; by rewrite <- app_assoc | done |].
      simpl. rewrite <- app_assoc. simpl. by destruct (rev cur). }
  by apply (Hgen text []).
Qed.

(** ** The configuration after initialize *)

Lemma initialize_flags m ps :
  verbose_ (snd (initialize m ps)) = verbose_ m /\
  case_sensitive_ (snd (initialize m ps)) = case_sensitive_ m.
Proof.
  unfold initialize. destruct ps as [|p ps]; [done|].
  set (m1 := mkMatcher _ _ _ _ _ _). unfold build_trie.
  change (patterns_ (clear_trie m1)) with (p :: ps).
  destruct (build_trie_from (clear_trie m1) 0 (p :: ps)) as [e|m3] eqn:Hb; [done|].
  pose proof (trie_ok_clear m1) as Hok0.
  destruct (build_trie_from_ok (clear_trie m1) 0 (p :: ps) Hok0) as (m3' & Hb' & _ & Hc3).
  { by eapply build_trie_from_idx. }
  assert (m3' = m3) by congruence. subst m3'.
  destruct Hc3 as (_ & Hv3 & Hs3).
  destruct (build_failure_links m3) as [e|m4] eqn:Hl; [done|].
  destruct (build_failure_links_only _ _ Hl) as (_ & (_ & Hv4 & Hs4) & _).
  simpl. by rewrite Hv4, Hs4.
Qed.

Lemma initialize_config m1 m2 ps :
  ps <> [] -> verbose_ m1 = verbose_ m2 -> case_sensitive_ m1 = case_sensitive_ m2 ->
  initialize m1 ps = initialize m2 ps.
Proof.
  intros Hne Hv Hc. unfold initialize. destruct ps as [|p ps]; [done|].
  unfold clear_trie. simpl. by rewrite Hv, Hc.
Qed.

(** ** Contexts hold no doubled space *)

Lemma unique_from_squeezed s : forall prev, squeezed (prev :: unique_from prev s).
Proof.
  induction s as [|b s IH]; intros prev; simpl.
  - intros [|i] x y Hx Hy; done.
  - destruct ((code_of prev =? SPACE) && (code_of b =? SPACE)) eqn:E; [apply IH|].
    intros [|i] x y Hx Hy; simpl in *.
    + injection Hx as <-. injection Hy as <-. intros [H1 H2].
      rewrite H1, H2 in E. done.
    + by apply (IH b i x y).
Qed.

Lemma unique_spaces_squeezed s : squeezed (unique_spaces s).
Proof.
  destruct s as [|a s]; simpl; [by intros [|i] x y Hx|]. apply unique_from_squeezed.
Qed.

Lemma unique_from_sublist s : forall prev, unique_from prev s `sublist_of` s.
Proof.
  induction s as [|b s IH]; intros prev; simpl; [done|].
  destruct ((code_of prev =? SPACE) && (code_of b =? SPACE)).
  - by apply sublist_cons.
  - by apply sublist_skip.
Qed.

Lemma unique_spaces_sublist s : unique_spaces s `sublist_of` s.
Proof.
  destruct s as [|a s]; simpl; [done|]. apply sublist_skip, unique_from_sublist.
Qed.

Lemma unique_from_fixed s : forall prev,
  squeezed (prev :: s) -> unique_from prev s = s.
Proof.
  induction s as [|b s IH]; intros prev Hs; simpl; [done|].
  destruct ((code_of prev =? SPACE) && (code_of b =? SPACE)) eqn:E.
  - zbool. by destruct (Hs 0%nat prev b eq_refl eq_refl).
  - f_equal. apply IH. intros i x y Hx Hy. by apply (Hs (S i) x y).
Qed.

Lemma substr_sublist s pos count c : substr s pos count = inr c -> c `sublist_of` s.
Proof.
  unfold substr. destruct (pos >? Z.of_nat (length s)); [done|].
  intros [= <-]. etrans; [apply sublist_take | apply sublist_drop].
Qed.

(** ** Searches that differ in the context size *)

Lemma rrel_bind {A B A' B'} (P : A -> A' -> Prop) (Q : B -> B' -> Prop)
  (x : result A) (y : result A') (f : A -> result B) (g : A' -> result B') :
  rrel P x y -> (forall a b, P a b -> rrel Q (f a) (g b)) ->
  rrel Q (rbind x f) (rbind y g).
Proof. destruct x, y; simpl; try done. auto. Qed.

Lemma rrel_refl {A} (P : A -> A -> Prop) (x : result A) :
  (forall a, P a a) -> rrel P x x.
Proof. intros HP. destruct x; simpl; auto. Qed.

Lemma emit_match_ctx m acc1 acc2 ln col lt pos ctx1 ctx2 id :
  Forall2 same_place acc1 acc2 ->
  rrel (Forall2 same_place) (emit_match m acc1 ln col lt pos ctx1 id)
                            (emit_match m acc2 ln col lt pos ctx2 id).
Proof.
  intros Hacc. unfold emit_match. destruct (patterns_ m !! id) as [pat|]; [|done].
  unfold substr.
  destruct (context_start pos (Z.of_nat (length pat)) (Z.of_nat (length lt))
            >? Z.of_nat (length lt)); simpl; [done|].
  apply Forall2_app; [done|]. constructor; [done | constructor].
Qed.

Lemma emit_matches_ctx m ln col lt pos ctx1 ctx2 ids : forall acc1 acc2,
  Forall2 same_place acc1 acc2 ->
  rrel (Forall2 same_place) (emit_matches m acc1 ln col lt pos ctx1 ids)
                            (emit_matches m acc2 ln col lt pos ctx2 ids).
Proof.
  induction ids as [|id ids IH]; intros acc1 acc2 Hacc; simpl; [done|].
  eapply rrel_bind; [by apply emit_match_ctx | apply IH].
Qed.

Lemma collect_matches_ctx m ln col lt pos ctx1 ctx2 fuel : forall temp acc1 acc2,
  Forall2 same_place acc1 acc2 ->
  rrel (Forall2 same_place) (collect_matches fuel m temp acc1 ln col lt pos ctx1)
                            (collect_matches fuel m temp acc2 ln col lt pos ctx2).
Proof.
  induction fuel as [|fuel IH]; intros [t|] acc1 acc2 Hacc; simpl; try done.
  apply (rrel_bind eq); [by apply rrel_refl|]. intros nd ? <-.
  eapply rrel_bind; [by apply emit_matches_ctx | apply IH].
Qed.

Lemma scan_symbol_ctx m ctx1 ctx2 line_num lt col c cur acc1 acc2 :
  Forall2 same_place acc1 acc2 ->
  rrel (fun x y => fst x = fst y /\ Forall2 same_place (snd x) (snd y))
       (scan_symbol m ctx1 line_num lt col c cur acc1)
       (scan_symbol m ctx2 line_num lt col c cur acc2).
Proof.
  intros Hacc. unfold scan_symbol. destruct (char_to_index c =? -1); [done|].
  apply (rrel_bind eq); [by apply rrel_refl|]. intros g ? <-.
  apply (rrel_bind eq); [by apply rrel_refl|]. intros nd ? <-.
  apply (rrel_bind eq); [by apply rrel_refl|]. intros ch ? <-.
  apply (rrel_bind eq); [by apply rrel_refl|]. intros nd' ? <-.
  destruct (pattern_indices nd'); [done|].
  eapply rrel_bind; [by apply collect_matches_ctx|]. by intros a b Hab.
Qed.

Lemma scan_line_ctx m ctx1 ctx2 line_num lt rest : forall col cur acc1 acc2,
  Forall2 same_place acc1 acc2 ->
  rrel (Forall2 same_place) (scan_line m ctx1 line_num lt col rest cur acc1)
                            (scan_line m ctx2 line_num lt col rest cur acc2).
Proof.
  induction rest as [|c rest IH]; intros col cur acc1 acc2 Hacc; simpl; [done|].
  eapply rrel_bind; [by apply scan_symbol_ctx|].
  intros [c1 a1] [c2 a2] [E Ha]. simpl in E, Ha. subst c2. by apply IH.
Qed.

Lemma scan_lines_ctx m ctx1 ctx2 lines : forall line_num acc1 acc2,
  Forall2 same_place acc1 acc2 ->
  rrel (Forall2 same_place) (scan_lines m ctx1 line_num lines acc1)
                            (scan_lines m ctx2 line_num lines acc2).
Proof.
  induction lines as [|l lines IH]; intros line_num acc1 acc2 Hacc; simpl; [done|].
  eapply rrel_bind; [by apply scan_line_ctx | apply IH].
Qed.

Lemma match_lt_same_place a a' b b' :
  same_place a a' -> same_place b b' -> match_lt a b = match_lt a' b'.
Proof.
  intros (Hl & Hc & _ & Hi) (Hl' & Hc' & _ & Hi'). unfold match_lt.
  by rewrite Hl, Hc, Hi, Hl', Hc', Hi'.
Qed.

Lemma sort_insert_same_place x x' l l' :
  same_place x x' -> Forall2 same_place l l' ->
  Forall2 same_place (sort_insert x l) (sort_insert x' l').
Proof.
  intros Hx. induction 1 as [|y y' l l' Hy Hl IH]; simpl;
    [constructor; [done | constructor]|].
  rewrite (match_lt_same_place y y' x x') by done.
  destruct (match_lt y' x'); constructor; try done. by constructor.
Qed.

Lemma sort_matches_same_place l l' :
  Forall2 same_place l l' -> Forall2 same_place (sort_matches l) (sort_matches l').
Proof.
  induction 1 as [|x x' l l' Hx Hl IH]; simpl; [constructor|].
  by apply sort_insert_same_place.
Qed.

(** ** The lines that the loader keeps *)

Lemma keep_patterns_elem lines p :
  p ∈ keep_patterns lines <-> p <> [] /\ p ∈ lines.
Proof.
  induction lines as [|l lines IH]; simpl.
  - split; [intros H | intros [_ H]]; by apply elem_of_nil in H.
  - destruct l as [|c l].
    + rewrite IH, elem_of_cons. split; [intros [? ?]; auto|].
      intros [Hne [->|?]]; done.
    + rewrite !elem_of_cons, IH. split.
      * intros [->|[? ?]]; [split; [done | by left] | auto].
      * intros [Hne [->|?]]; auto.
Qed.

Lemma keep_patterns_nil lines : keep_patterns lines = [] <-> Forall (eq []) lines.
Proof.
  induction lines as [|l lines IH]; simpl; [split; [constructor | done]|].
  destruct l as [|c l].
  - rewrite IH. split; [by constructor | by inversion 1].
  - split; [done | inversion 1; done].
Qed.

Lemma split_lines_from_empty text : forall cur,
  Forall (eq []) (split_lines_from cur text) <->
  cur = [] /\ Forall (fun c => code_of c = NEWLINE) text.
Proof.
  induction text as [|c text IH]; intros cur; simpl.
  - destruct cur as [|x cur].
    + split; [by split | constructor].
    + split; [|by intros [? _]]. intros H. inversion H as [|? ? Hr _]; subst.
      apply (f_equal length) in Hr.
      rewrite length_app, length_rev in Hr. simpl in Hr. lia.
  - destruct (code_of c =? NEWLINE) eqn:E.
    + apply Z.eqb_eq in E. rewrite Forall_cons, (IH []). split.
      * intros (Hr & _ & Ht). split; [|by constructor].
        symmetry in Hr. apply (f_equal length) in Hr. rewrite length_rev in Hr.
        by destruct cur.
      * intros (-> & Ht). inversion Ht; subst. done.
    + apply Z.eqb_neq in E. rewrite (IH (c :: cur)). split; [by intros [? _]|].
      intros (_ & Ht). inversion Ht; subst. done.
Qed.

Lemma keep_patterns_order lines : keep_patterns lines `sublist_of` lines.
Proof.
  induction lines as [|l lines IH]; simpl; [done|].
  destruct l; [by apply sublist_cons | by apply sublist_skip].
Qed.

Lemma keep_patterns_filter lines :
  keep_patterns lines = filter (fun p => p <> []) lines.
Proof.
  induction lines as [|l lines IH]; simpl; [done|].
  destruct l as [|c l].
  - rewrite filter_cons_False by (intros H; by apply H). done.
  - rewrite filter_cons_True by done. by rewrite IH.
Qed.

Lemma load_patterns_from_file_ok fs path ps :
  load_patterns_from_file fs path = inr ps ->
  ps <> [] /\ Forall (fun p => p <> [] /\ no_newline p) ps.
Proof.
  unfold load_patterns_from_file. destruct (fs path) as [content|]; [|done].
  destruct (keep_patterns (split_lines content)) as [|p0 rest] eqn:Hk; [done|].
  intros [= <-]. split; [done|]. rewrite <- Hk.
  apply Forall_forall. intros p Hp. apply keep_patterns_elem in Hp as [Hne Hin].
  split; [done|].
  apply (proj1 (Forall_forall _ _) (split_lines_no_newline content) p Hin).
Qed.

(** ** The counts of the summary *)

Lemma count_patterns_snoc l r :
  count_patterns (l ++ [r])
  = <[pattern_id r := size_add (default 0 (count_patterns l !! pattern_id r)) 1]>
      (count_patterns l).
Proof. unfold count_patterns. by rewrite foldl_snoc. Qed.

Lemma count_patterns_lookup results id :
  default 0 (count_patterns results !! id)
  = Z.of_nat (length (filter (fun r => pattern_id r = id) results)) mod SIZE_MOD /\
  (count_patterns results !! id = None <->
   forall r, r ∈ results -> pattern_id r <> id).
Proof.
  induction results as [|r l [IH1 IH2]] using rev_ind.
  - split; [done|]. split; [intros _ r Hr; by apply elem_of_nil in Hr | done].
  - rewrite count_patterns_snoc, filter_app, length_app.
    destruct (decide (pattern_id r = id)) as [E|Hne].
    + rewrite E, lookup_insert_eq. simpl. split.
      * rewrite IH1. rewrite filter_cons_True by done. simpl.
        unfold size_add. rewrite Zplus_mod_idemp_l. f_equal. lia.
      * split; [done|]. intros H. destruct (H r); [|done].
        apply elem_of_app. right. by apply list_elem_of_singleton.
    + rewrite lookup_insert_ne by done. split.
      * rewrite IH1. rewrite filter_cons_False by done. simpl. f_equal. lia.
      * rewrite IH2. split.
        -- intros H x Hx. apply elem_of_app in Hx as [Hx|Hx]; [by apply H|].
           apply list_elem_of_singleton in Hx. by subst x.
        -- intros H x Hx. apply H, elem_of_app. by left.
Qed.

Lemma summary_rows_ok patterns kvs :
  (exists rows, summary_rows patterns kvs = inr rows) <->
  forall kv, kv ∈ kvs -> (kv.1 < length patterns)%nat.
Proof.
  induction kvs as [|kv kvs IH]; simpl.
  - split; [intros _ kv Hkv; by apply elem_of_nil in Hkv | by eauto].
  - unfold summary_row. destruct (patterns !! kv.1) as [p|] eqn:Hp; simpl.
    + destruct (summary_rows patterns kvs) as [e|rows] eqn:Hr; simpl.
      * split; [by intros [? ?]|]. intros H.
        destruct (proj2 IH) as [? ?]; [|done].
        intros kv' Hkv'. apply H, elem_of_cons. by right.
      * split; [|by eauto]. intros _ kv' Hkv'.
        apply elem_of_cons in Hkv' as [->|Hkv']; [by eapply lookup_lt_Some|].
        by apply (proj1 IH); [eauto|].
    + split; [by intros [? ?]|]. intros H.
      apply lookup_ge_None in Hp. specialize (H kv ltac:(apply elem_of_cons; by left)).
      lia.
Qed.

Lemma summary_rows_undefined patterns kvs e :
  summary_rows patterns kvs = inl e -> e = Undefined.
Proof.
  revert e. induction kvs as [|kv kvs IH]; intros e; simpl; [done|].
  unfold summary_row. destruct (patterns !! kv.1); simpl; [|by intros [= <-]].
  destruct (summary_rows patterns kvs) as [e'|rows]; simpl; [|done].
  intros [= <-]. by apply IH.
Qed.

Lemma generate_summary_ok iteration results patterns :
  enumerates iteration ->
  (exists out, generate_summary iteration results patterns = inr out) <->
  forall r, r ∈ results -> (pattern_id r < length patterns)%nat.
Proof.
  intros Hit. unfold generate_summary. destruct results as [|front rest].
  { split; [intros _ r Hr; by apply elem_of_nil in Hr | by eauto]. }
  set (results := front :: rest).
  assert (Hkeys : (forall kv, kv ∈ iteration (count_patterns results) ->
                     (kv.1 < length patterns)%nat) <->
                  forall r, r ∈ results -> (pattern_id r < length patterns)%nat).
  { split.
    - intros H r Hr.
      destruct (count_patterns results !! pattern_id r) as [n|] eqn:E.
      + apply (H (pattern_id r, n)). rewrite (Hit _). by apply elem_of_map_to_list.
      + pose proof (proj1 (proj2 (count_patterns_lookup results (pattern_id r))) E) as E'.
        by destruct (E' r Hr).
    - intros H [k n] Hkv. rewrite (Hit _) in Hkv. apply elem_of_map_to_list in Hkv.
      simpl. destruct (decide (k < length patterns)%nat) as [|Hge]; [done|].
      assert (Hnone : count_patterns results !! k = None); [|congruence].
      apply (proj2 (proj2 (count_patterns_lookup results k))). intros r Hr E.
      specialize (H r Hr). lia. }
  rewrite <- Hkeys, <- summary_rows_ok.
  destruct (summary_rows patterns (iteration (count_patterns results))) as [e|rows];
    simpl; split; intros [x Hx]; try done; eauto.
Qed.

Lemma search_ids_in_range m text ctx out r :
  search m text ctx = inr out -> r ∈ out ->
  (pattern_id r < length (patterns_ m))%nat.
Proof.
  intros Hs Hr. unfold search in Hs.
  apply rbind_inr in Hs as (collected & Hs & [= <-]).
  rewrite <- (sort_matches_perm collected) in Hr.
  destruct (scan_records _ _ _ _ Hs r Hr) as (k & ln & pos & _ & _ & Hrec).
  destruct Hrec as (pat & c & Hpat & _ & ->). simpl. by eapply lookup_lt_Some.
Qed.

Lemma sorted_line_range l :
  Sorted (fun a b => match_lt b a = false) l ->
  forall front r, head l = Some front -> r ∈ l ->
    line front <= line r <= line (default front (last l)).
Proof.
  intros Hs.
  assert (Htr : Transitive (fun a b : MatchResult => match_lt b a = false)).
  { intros a b c Hab Hbc. apply match_lt_false in Hab, Hbc. apply match_lt_false.
    by eapply key_le_trans. }
  apply Sorted_StronglySorted in Hs; [|done].
  induction Hs as [|a l Hs IH Hall]; intros front r Hf Hr; [done|].
  injection Hf as <-.
  assert (Hle : forall x, x ∈ l -> line a <= line x).
  { intros x Hx. pose proof (proj1 (Forall_forall _ _) Hall x Hx) as Hk.
    apply match_lt_false in Hk. unfold key_le in Hk. lia. }
  destruct l as [|b l]; simpl.
  - apply elem_of_cons in Hr as [->|Hr]; [lia | by apply elem_of_nil in Hr].
  - assert (Hb : b ∈ b :: l) by (apply elem_of_cons; by left).
    assert (Hlast : default a (last (b :: l)) = default b (last (b :: l))).
    { by destruct (last (b :: l)) eqn:E; [|apply last_None in E]. }
    rewrite Hlast. apply elem_of_cons in Hr as [->|Hr].
    + split; [lia|]. pose proof (IH b b eq_refl Hb). pose proof (Hle b Hb). lia.
    + pose proof (IH b r eq_refl Hr). pose proof (Hle r Hr). lia.
Qed.

(** * Further properties *)

(** ** Symbols, the order of the records, normalization and lines *)

(** X1 (char_to_index): the index of a symbol is -1 or an index of the
    children array; it is -1 for every symbol but the letters, the space
    and the hyphen; an upper-case letter has the index of its lower-case
    form; and two symbols with the same index are the same up to the case
    of letters. *)
Theorem char_to_index_alphabet :
  (forall c, char_to_index c = -1 \/ 0 <= char_to_index c < ALPHABET_SIZE) /\
  (forall c, char_to_index c <> -1 <->
     isalpha (code_of c) = true \/ code_of c = SPACE \/ code_of c = HYPHEN) /\
  (forall c, char_to_index c = char_to_index (char_of (tolower (code_of c)))) /\
  (forall c1 c2, char_to_index c1 <> -1 -> char_to_index c1 = char_to_index c2 ->
     tolower (code_of c1) = tolower (code_of c2)).
Proof.
  split; [|split; [|split]].
  - intros c. destruct (decide (char_to_index c = -1)) as [|Hne]; [by left|].
    right. by apply idx_ok_iff.
  - intros c.
    destruct (char_to_index_cases c) as [[Hs E]|[[Hh E]|[[Hx E]|[[Hx E]|(Hs & Hh & Hn & E)]]]];
      rewrite E.
    + split; [intros _; right; by left | done].
    + split; [intros _; right; by right | done].
    + split; [intros _; left; unfold isalpha; rewrite Hx; apply orb_true_r|].
      intros _. unfold is_lower in Hx. zbool. lia.
    + split; [intros _; left; unfold isalpha; by rewrite Hx|].
      intros _. unfold is_upper in Hx. zbool. lia.
    + split; [done|]. intros [Ha|[?|?]]; congruence.
  - intros c. pose proof (code_of_bound c) as Hb.
    unfold tolower. destruct (is_upper (code_of c)) eqn:Hu; [|by rewrite char_code].
    assert (Hb' : 0 <= code_of c + 32 < 256) by (unfold is_upper in Hu; zbool; lia).
    destruct (char_to_index_cases c) as [[? E]|[[? E]|[[Hx E]|[[Hx E]|(? & ? & Hn & E)]]]];
      destruct (char_to_index_cases (char_of (code_of c + 32)))
        as [[? E']|[[? E']|[[Hx' E']|[[Hx' E']|(? & ? & Hn' & E')]]]];
      rewrite ?code_char in * by done; rewrite E, E';
      unfold isalpha, is_lower, is_upper, SPACE, HYPHEN in *; zbool; lia.
  - intros c1 c2 Hne E. unfold tolower.
    destruct (char_to_index_cases c1) as [[? E1]|[[? E1]|[[Hx E1]|[[Hx E1]|(? & ? & Hn & E1)]]]];
      destruct (char_to_index_cases c2) as [[? E2]|[[? E2]|[[Hx' E2]|[[Hx' E2]|(? & ? & Hn' & E2)]]]];
      rewrite E1, E2 in *; try done;
      destruct (is_upper (code_of c1)) eqn:U1; destruct (is_upper (code_of c2)) eqn:U2;
      unfold isalpha, is_lower, is_upper, SPACE, HYPHEN in *; zbool; lia.
Qed.

(** X2 (MatchResult::operator<): the comparison is a strict weak ordering,
    as std::sort requires of it: no record is less than itself, less-than is
    transitive, and two records of which neither is less than the other have
    the same line, column and pattern id, and the other way round. *)
Theorem match_lt_strict_weak_order :
  (forall a, match_lt a a = false) /\
  (forall a b c, match_lt a b = true -> match_lt b c = true -> match_lt a c = true) /\
  (forall a b, match_lt a b = true -> match_lt b a = false) /\
  (forall a b, match_lt a b = false /\ match_lt b a = false <-> same_key a b).
Proof.
  unfold match_lt, same_key. split; [|split; [|split]].
  - intros a. rewrite !Z.ltb_irrefl. apply Nat.ltb_irrefl.
  - intros a b c.
    destruct (Z.ltb_spec (line a) (line b)), (Z.ltb_spec (line b) (line a)),
             (Z.ltb_spec (line b) (line c)), (Z.ltb_spec (line c) (line b)),
             (Z.ltb_spec (line a) (line c)), (Z.ltb_spec (line c) (line a));
      try lia; try done;
    destruct (Z.ltb_spec (column a) (column b)), (Z.ltb_spec (column b) (column a)),
             (Z.ltb_spec (column b) (column c)), (Z.ltb_spec (column c) (column b)),
             (Z.ltb_spec (column a) (column c)), (Z.ltb_spec (column c) (column a));
      try lia; try done;
    destruct (Nat.ltb_spec (pattern_id a) (pattern_id b)),
             (Nat.ltb_spec (pattern_id b) (pattern_id c)),
             (Nat.ltb_spec (pattern_id a) (pattern_id c)); try lia; done.
  - apply match_lt_asym.
  - intros a b.
    destruct (Z.ltb_spec (line a) (line b)), (Z.ltb_spec (line b) (line a));
      try (split; [intros [? ?]; done | lia]);
    destruct (Z.ltb_spec (column a) (column b)), (Z.ltb_spec (column b) (column a));
      try (split; [intros [? ?]; done | lia]);
    destruct (Nat.ltb_spec (pattern_id a) (pattern_id b)),
             (Nat.ltb_spec (pattern_id b) (pattern_id a));
      try (split; [intros [? ?]; done | lia]).
    split; [intros _; lia | done].
Qed.

(** X3 (clean_text, search): normalization is idempotent, distributes over
    concatenation and never lengthens a text; what it leaves are symbols
    with an index in the trie and line breaks, and without case sensitivity
    no upper-case letter; and search gives for a text what it gives for the
    normalized text. *)
Theorem clean_text_normal_form cs :
  (forall t, clean_text cs (clean_text cs t) = clean_text cs t) /\
  (forall t1 t2, clean_text cs (t1 ++ t2) = clean_text cs t1 ++ clean_text cs t2) /\
  (forall t, (length (clean_text cs t) <= length t)%nat) /\
  (forall t c, c ∈ clean_text cs t ->
     0 <= char_to_index c < ALPHABET_SIZE \/ code_of c = NEWLINE) /\
  (forall t c, cs = false -> c ∈ clean_text cs t -> is_upper (code_of c) = false) /\
  (forall m t ctx, case_sensitive_ m = cs ->
     search m (clean_text cs t) ctx = search m t ctx).
Proof.
  assert (Hidem : forall t, clean_text cs (clean_text cs t) = clean_text cs t).
  { intros t. apply clean_text_fixed, clean_text_class. }
  split; [done|]. split; [apply clean_text_app|]. split; [apply clean_text_length|].
  split; [|split].
  - intros t c Hc.
    destruct (proj1 (Forall_forall _ _) (clean_text_class cs t) c Hc) as [[? _]|?];
      [by left | by right].
  - intros t c -> Hc.
    destruct (proj1 (Forall_forall _ _) (clean_text_class false t) c Hc) as [[_ Hl]|Hn].
    + destruct (Hl eq_refl) as [Hl'|[Hs|Hh]]; unfold is_lower, is_upper, SPACE, HYPHEN in *.
      * destruct ((65 <=? code_of c) && (code_of c <=? 90)) eqn:E; [|done]. zbool; lia.
      * rewrite Hs. done.
      * rewrite Hh. done.
    + unfold is_upper. rewrite Hn. done.
  - intros m t ctx <-. unfold search, scan. by rewrite Hidem.
Qed.

(** X4 (split_lines): the lines of a text hold no line break; joined
    again, each followed by a line break, they give the text back, with one
    line break added when the text does not end in one; the empty text has
    no line, and a text without a line break is its own only line. *)
Theorem split_lines_join text :
  Forall (Forall (fun c => code_of c <> NEWLINE)) (split_lines text) /\
  concat (map (fun l => l ++ [newline]) (split_lines text))
  = text ++ match last text with
            | Some c => if code_of c =? NEWLINE then [] else [newline]
            | None => []
            end /\
  (text = [] -> split_lines text = []) /\
  (text <> [] -> Forall (fun c => code_of c <> NEWLINE) text ->
     split_lines text = [text]).
Proof.
  split; [|split; [|split]].
  - apply split_lines_no_newline.
  - unfold split_lines. by rewrite (split_lines_from_join text []).
  - by intros ->.
  - apply split_lines_single.
Qed.

Lemma split_lines_join_witness :
  split_lines (str "alpha") = [str "alpha"].
Proof.
  destruct (split_lines_join (str "alpha")) as (_ & _ & _ & H).
  apply H; [discriminate|]. repeat constructor; by vm_compute.
Defined.

(** ** The trie and the counters *)

(** X5 (build_trie): after initialize has returned, the words of the trie
    are the prefixes of the routed patterns (the codes of the normalized
    patterns) and nothing else; every cell stands for one word, as long as
    the cell is deep; the id of a pattern is stored in the cell that its
    routed form leads to, and only there, unless that form is empty, in
    which case it is stored nowhere; and is_end_of_word is set on the
    cells that hold an id, and on no other cell. *)
Theorem trie_holds_the_patterns m0 ps m :
  initialize m0 ps = (inr tt, m) ->
  (forall w, (exists a, spells (cells m) w a) <->
     w = [] \/
     exists i raw, ps !! i = Some raw /\
       w `prefix_of` word_of (clean_text (case_sensitive_ m) raw)) /\
  (forall a, (a < length (cells m))%nat ->
     exists w, spells (cells m) w a /\ dep (cells m) a = Z.of_nat (length w) /\
       forall w', spells (cells m) w' a -> w' = w) /\
  (forall a i, i ∈ pats (cells m) a <->
     exists raw, ps !! i = Some raw /\
       clean_text (case_sensitive_ m) raw <> [] /\
       spells (cells m) (word_of (clean_text (case_sensitive_ m) raw)) a) /\
  (forall a nd, cells m !! a = Some nd ->
     (is_end_of_word nd = true <-> pattern_indices nd <> [])).
Proof.
  intros Hinit. destruct (initialize_built _ _ _ Hinit) as (Hb & Hps & _ & _).
  pose proof (lk_wf _ (bt_links _ Hb)) as Hwf. rewrite <- Hps.
  split; [|split; [|split]].
  - intros w. split.
    + intros (a & Ha). destruct (decide (a = root)) as [->|Har].
      * left. by apply (spells_inj _ Hwf _ _ _ Ha).
      * right. destruct (bt_junk _ Hb a w Ha Har) as (i & raw & _ & ? & ?). eauto.
    + intros [->|(i & raw & Hraw & Hpre)]; [by exists root|].
      by apply (prefix_spelled m i raw).
  - intros a Ha. destruct (spells_exists _ Hwf a Ha) as [w Hw].
    exists w. split; [done|]. split; [by apply dep_spells|].
    intros w' Hw'. by apply (spells_inj _ Hwf _ _ a).
  - intros a i. split; [apply (bt_pats _ Hb)|].
    intros (raw & Hraw & Hne & Hsp).
    destruct (bt_stored _ Hb i raw) as (a' & Ha' & Hin);
      [by eapply lookup_lt_Some | done | done |].
    by rewrite (spells_fun _ _ _ _ Hsp Ha').
  - intros a nd Ha. apply (Forall_lookup_1 _ _ _ _ (bt_marked _ Hb) Ha).
Qed.

Lemma trie_holds_the_patterns_witness :
  (exists a, spells (cells ushers_matcher) [18; 7]%nat a) /\
  1%nat ∈ pats (cells ushers_matcher) 5.
Proof.
  pose proof (trie_holds_the_patterns (new_PatternMatcher false false)
                (map str ["he"; "she"; "hers"]%string) ushers_matcher
                ltac:(vm_compute; reflexivity)) as (Hw & _ & Hid & _).
  split.
  - apply Hw. right. exists 1%nat, (str "she"). split; [reflexivity|].
    exists [4%nat]. vm_compute. reflexivity.
  - apply Hid. exists (str "she"). split; [reflexivity|].
    split; [discriminate | vm_compute; reflexivity].
Defined.

(** X6 (build_trie, node_count, max_depth): after initialize has returned,
    node_count() is the number of cells of the trie, the root included; it
    is more than max_depth() and at most one more than the lengths of the
    normalized patterns added up; and max_depth() is the length of the
    longest normalized pattern. *)
Theorem counters_count_the_trie m0 ps m :
  initialize m0 ps = (inr tt, m) ->
  node_count_ m = Z.of_nat (length (cells m)) /\
  1 + max_depth_ m <= node_count_ m <= 1 + total_length (case_sensitive_ m) ps /\
  (forall i raw, ps !! i = Some raw ->
     Z.of_nat (length (clean_text (case_sensitive_ m) raw)) <= max_depth_ m) /\
  (exists i raw, ps !! i = Some raw /\
     Z.of_nat (length (clean_text (case_sensitive_ m) raw)) = max_depth_ m).
Proof.
  intros Hinit. destruct (initialize_built _ _ _ Hinit) as (Hb & Hps & _ & _).
  destruct (initialize_inv _ _ _ Hinit) as [Hne _].
  pose proof (lk_wf _ (bt_links _ Hb)) as Hwf. rewrite <- Hps.
  destruct (bt_counted _ Hb) as (Hn & Hle & a0 & Ha0 & Hd0).
  assert (Hlong : forall i raw, patterns_ m !! i = Some raw ->
            Z.of_nat (length (clean_text (case_sensitive_ m) raw)) <= max_depth_ m).
  { intros i raw Hraw.
    destruct (clean_text (case_sensitive_ m) raw) as [|c pat] eqn:E.
    - simpl. pose proof (Hle root (proj1 (wf_root _ Hwf))) as Hr.
      rewrite (proj2 (wf_root _ Hwf)) in Hr. done.
    - destruct (bt_stored _ Hb i raw) as (a & Ha & _);
        [by eapply lookup_lt_Some | done | by rewrite E |].
      rewrite E in Ha. rewrite <- (word_of_length (c :: pat)), <- (dep_spells _ Hwf _ _ Ha).
      apply Hle. by eapply spells_valid. }
  split; [done|]. split; [split|split; [done|]].
  - rewrite Hn, <- Hd0. destruct (dep_bounds _ Hwf a0 Ha0) as [? _]. lia.
  - apply (bt_count _ Hb).
  - destruct (decide (a0 = root)) as [->|Har].
    + rewrite (proj2 (wf_root _ Hwf)) in Hd0.
      destruct (patterns_ m) as [|p rest] eqn:Ep; [congruence|].
      exists 0%nat, p. split; [done|].
      pose proof (Hlong 0%nat p eq_refl). lia.
    + destruct (spells_exists _ Hwf a0 Ha0) as [w Hw].
      destruct (bt_junk _ Hb a0 w Hw Har) as (i & raw & _ & Hraw & Hpre).
      exists i, raw. split; [done|].
      pose proof (Hlong i raw Hraw). pose proof (prefix_length _ _ Hpre) as Hpl.
      rewrite word_of_length in Hpl. rewrite (dep_spells _ Hwf _ _ Hw) in Hd0. lia.
Qed.

Lemma counters_count_the_trie_witness :
  node_count_ ushers_matcher = 8 /\ max_depth_ ushers_matcher = 4.
Proof.
  pose proof (counters_count_the_trie (new_PatternMatcher false false)
                (map str ["he"; "she"; "hers"]%string) ushers_matcher
                ltac:(vm_compute; reflexivity)) as (Hn & _ & _ & _).
  split; [rewrite Hn|]; vm_compute; reflexivity.
Defined.

(** X7 (initialize, clear_trie): initialize builds the automaton from
    nothing but the two flags of the matcher and the patterns it is given:
    after any earlier call, failed or not, it leaves the matcher that it
    leaves on a matcher just constructed with the same flags, so search
    finds the patterns of the last call only. *)
Theorem initialize_forgets m ps0 ps :
  ps <> [] ->
  initialize (snd (initialize m ps0)) ps
  = initialize (new_PatternMatcher (verbose_ m) (case_sensitive_ m)) ps /\
  forall text ctx,
    search (snd (initialize (snd (initialize m ps0)) ps)) text ctx
    = search (snd (initialize (new_PatternMatcher (verbose_ m) (case_sensitive_ m)) ps))
             text ctx.
Proof.
  intros Hne. destruct (initialize_flags m ps0) as [Hv Hc].
  assert (E : initialize (snd (initialize m ps0)) ps
              = initialize (new_PatternMatcher (verbose_ m) (case_sensitive_ m)) ps)
    by (by apply initialize_config).
  split; [done|]. intros text ctx. by rewrite E.
Qed.

Lemma initialize_forgets_witness :
  search (snd (initialize (snd (initialize (new_PatternMatcher false false)
                                           [str "she"])) [str "he"]))
         (str "she") 20
  = search (snd (initialize (new_PatternMatcher false false) [str "he"]))
           (str "she") 20.
Proof.
  refine (proj2 (initialize_forgets (new_PatternMatcher false false) [str "she"]
                   [str "he"] _) (str "she") 20).
  discriminate.
Defined.

(** ** The failure and output links *)

(** X8 (build_failure_links): after initialize has returned, the failure
    link of every cell but the root leads to the cell of the longest proper
    suffix of its word that is a word of the trie. *)
Theorem failure_link_is_longest_suffix m0 ps m b w :
  initialize m0 ps = (inr tt, m) -> spells (cells m) w b -> b <> root ->
  exists f wf, flink (cells m) b = Some f /\ spells (cells m) wf f /\
    wf `suffix_of` w /\ (length wf < length w)%nat /\
    forall u wu, spells (cells m) wu u -> wu `suffix_of` w -> wu <> w ->
      wu `suffix_of` wf.
Proof.
  intros Hinit Hw Hbr. destruct (initialize_built _ _ _ Hinit) as (Hb & _).
  pose proof (bt_links _ Hb) as Hok. pose proof (lk_wf _ Hok) as Hwf.
  pose proof (spells_valid _ _ _ Hwf Hw) as Hlt.
  destruct (lk_fl _ Hok b) as (f & Hf & Hfl & Hfd); [unfold root in Hbr; lia|].
  destruct (lk_fl_sfx _ Hok _ _ Hf w Hw) as (wf & Hwf' & Hs).
  exists f, wf. split; [done|]. split; [done|]. split; [done|]. split.
  - rewrite (dep_spells _ Hwf _ _ Hw), (dep_spells _ Hwf _ _ Hwf') in Hfd. lia.
  - intros u wu Hu Hsu Hne.
    assert (Hub : u <> b).
    { intros ->. by rewrite (spells_inj _ Hwf _ _ _ Hu Hw) in Hne. }
    pose proof (bt_fl _ Hb b f u Hf (spells_sfx _ _ _ _ _ Hwf Hu Hw Hsu) Hub) as Hsf.
    destruct (Hsf wf Hwf') as (wu' & Hwu' & Hs').
    by rewrite (spells_inj _ Hwf _ _ _ Hu Hwu').
Qed.

Lemma failure_link_is_longest_suffix_witness :
  exists f wf, flink (cells ushers_matcher) 5 = Some f /\
    spells (cells ushers_matcher) wf f /\
    wf `suffix_of` [18; 7; 4]%nat /\ (length wf < 3)%nat /\
    forall u wu, spells (cells ushers_matcher) wu u ->
      wu `suffix_of` [18; 7; 4]%nat -> wu <> [18; 7; 4]%nat -> wu `suffix_of` wf.
Proof.
  refine (failure_link_is_longest_suffix (new_PatternMatcher false false)
            (map str ["he"; "she"; "hers"]%string) ushers_matcher 5
            [18; 7; 4]%nat _ _ _).
  - vm_compute. reflexivity.
  - vm_compute. reflexivity.
  - discriminate.
Defined.

(** X9 (build_failure_links, collect_matches): after initialize has
    returned, the walk of collect_matches along the output links from a
    cell meets, besides that cell, the cells with a pattern id whose word
    is a proper suffix of the word of the cell, all of them and no other. *)
Theorem output_walk_meets_the_suffixes m0 ps m a wa walk :
  initialize m0 ps = (inr tt, m) -> spells (cells m) wa a ->
  output_walk (length (cells m)) (cells m) (Some a) = inr walk ->
  forall u, u ∈ walk <->
    u = a \/
    exists wu, spells (cells m) wu u /\ wu `suffix_of` wa /\ wu <> wa /\
      pats (cells m) u <> [].
Proof.
  intros Hinit Ha Hwalk. destruct (initialize_built _ _ _ Hinit) as (Hb & _).
  pose proof (bt_links _ Hb) as Hok. pose proof (lk_wf _ Hok) as Hwf.
  assert (Hgen : forall fuel a wa walk, spells (cells m) wa a ->
    output_walk fuel (cells m) (Some a) = inr walk ->
    forall u, u ∈ walk <->
      u = a \/ (sfx (cells m) u a /\ u <> a /\ pats (cells m) u <> [])).
  { clear a wa walk Ha Hwalk.
    induction fuel as [|fuel IH]; intros a wa walk Ha H u; simpl in H; [done|].
    apply rbind_inr in H as (nd & Hnd & H). apply deref_inr in Hnd.
    apply rbind_inr in H as (rest & Hrest & [= <-]).
    pose proof (lookup_lt_Some _ _ _ Hnd) as Hlt.
    assert (Hfl : is_Some (flink (cells m) a)).
    { destruct (decide (a = root)) as [->|Htr].
      - rewrite (lk_root _ Hok). by eexists.
      - destruct (lk_fl _ Hok a) as (f & -> & _); [unfold root in Htr; lia|].
        by eexists. }
    rewrite elem_of_cons.
    destruct (output_link nd) as [o|] eqn:Ho.
    - assert (Hol : olink (cells m) a = Some o) by (unfold olink; by rewrite Hnd).
      destruct (lk_ol _ Hok _ _ Hol) as (Hov & Hop & Hod).
      pose proof (lk_ol_sfx _ Hok _ _ Hol) as Hso.
      destruct (spells_exists _ Hwf o Hov) as [wo Hwo].
      rewrite (IH o wo rest Hwo Hrest u). split.
      + intros [->|[->|(Hs & Hne & Hp)]]; [by left | |].
        * right. split; [done|]. split; [|done]. intros ->. lia.
        * right. split; [by eapply sfx_trans|]. split; [|done]. intros ->.
          destruct (Hs wo Hwo) as (w1 & Hw1 & Hs1).
          destruct (Hso w1 Hw1) as (w2 & Hw2 & Hs2).
          rewrite (spells_inj _ Hwf _ _ _ Hw2 Hwo) in Hs2.
          pose proof (suffix_length _ _ Hs1). pose proof (suffix_length _ _ Hs2).
          rewrite (dep_spells _ Hwf _ _ Hwo), (dep_spells _ Hwf _ _ Hw1) in Hod. lia.
      + intros [->|(Hs & Hne & Hp)]; [by left|]. right.
        destruct (bt_ol _ Hb a u Hfl Hs Hne Hp) as (o' & Ho' & Hso').
        assert (o' = o) by congruence. subst o'.
        destruct (decide (u = o)) as [->|Huo]; [by left|]. right. done.
    - destruct fuel; simpl in Hrest; injection Hrest as <-.
      + split; [intros [->|Hin]; [by left | by apply elem_of_nil in Hin]|].
        intros [->|(Hs & Hne & Hp)]; [by left|].
        destruct (bt_ol _ Hb a u Hfl Hs Hne Hp) as (o' & Ho' & _).
        unfold olink in Ho'. rewrite Hnd in Ho'. congruence.
      + split; [intros [->|Hin]; [by left | by apply elem_of_nil in Hin]|].
        intros [->|(Hs & Hne & Hp)]; [by left|].
        destruct (bt_ol _ Hb a u Hfl Hs Hne Hp) as (o' & Ho' & _).
        unfold olink in Ho'. rewrite Hnd in Ho'. congruence. }
  intros u. rewrite (Hgen _ _ _ _ Ha Hwalk u). split.
  - intros [->|(Hs & Hne & Hp)]; [by left|]. right.
    destruct (Hs wa Ha) as (wu & Hwu & Hsu). exists wu.
    split; [done|]. split; [done|]. split; [|done].
    intros ->. apply Hne. by apply (spells_fun _ _ _ _ Hwu Ha).
  - intros [->|(wu & Hwu & Hsu & Hne & Hp)]; [by left|]. right.
    split; [by apply (spells_sfx _ _ _ _ _ Hwf Hwu Ha)|]. split; [|done].
    intros ->. by rewrite (spells_inj _ Hwf _ _ _ Hwu Ha) in Hne.
Qed.

Lemma output_walk_meets_the_suffixes_witness :
  2%nat ∈ [5%nat; 2%nat] <->
    2%nat = 5%nat \/
    exists wu, spells (cells ushers_matcher) wu 2 /\
      wu `suffix_of` [18; 7; 4]%nat /\ wu <> [18; 7; 4]%nat /\
      pats (cells ushers_matcher) 2 <> [].
Proof.
  refine (output_walk_meets_the_suffixes (new_PatternMatcher false false)
            (map str ["he"; "she"; "hers"]%string) ushers_matcher 5
            [18; 7; 4]%nat [5%nat; 2%nat] _ _ _ 2%nat); vm_compute; reflexivity.
Defined.

(** ** The matches of a search *)

(** X10 (search): next_state is the move of current_node in a turn of the
    scan; on an initialized matcher these moves never fail, and after the
    symbols [s] of a normalized line current_node is the cell of the longest
    suffix of the codes of [s] that is a prefix of a routed pattern (the
    root, when there is none). *)
Theorem scan_stands_on_longest_suffix m0 ps m s :
  initialize m0 ps = (inr tt, m) -> Forall idx_ok s ->
  (forall ctx line_num lt col c cur acc cur' out,
     scan_symbol m ctx line_num lt col c cur acc = inr (cur', out) ->
     next_state m cur c = inr cur') /\
  exists cur w, run_states m s root = inr cur /\
    spells (cells m) w cur /\ w `suffix_of` word_of s /\
    (w = [] \/
     exists i raw, ps !! i = Some raw /\
       w `prefix_of` word_of (clean_text (case_sensitive_ m) raw)) /\
    forall i raw w', ps !! i = Some raw ->
      w' `prefix_of` word_of (clean_text (case_sensitive_ m) raw) ->
      w' `suffix_of` word_of s -> (length w' <= length w)%nat.
Proof.
  intros Hinit Hs. split; [intros; by eapply scan_symbol_state|].
  destruct (initialize_built _ _ _ Hinit) as (Hb & Hps & _ & _).
  pose proof (lk_wf _ (bt_links _ Hb)) as Hwf. rewrite <- Hps.
  destruct (run_states_longest m Hb s [] root Hs (proj1 (wf_root _ Hwf))
              (at_suffix_root _ _) (at_longest_root _))
    as (cur & Hrun & Hcur & (w & Hw & Hsw) & Hal).
  simpl in Hsw, Hal. exists cur, w. split; [done|]. split; [done|]. split; [done|].
  split.
  - destruct (decide (cur = root)) as [->|Hcr].
    + left. by apply (spells_inj _ Hwf _ _ _ Hw).
    + right. destruct (bt_junk _ Hb cur w Hw Hcr) as (i & raw & _ & ? & ?). eauto.
  - intros i raw w' Hraw Hpre Hsuf.
    destruct (prefix_spelled m i raw w' Hb Hraw Hpre) as [u Hu].
    destruct (Hal u w' Hu Hsuf w Hw) as (wu & Hwu & Hsu).
    rewrite (spells_inj _ Hwf _ _ _ Hu Hwu). by apply suffix_length.
Qed.

Lemma scan_stands_on_longest_suffix_witness :
  (forall ctx line_num lt col c cur acc cur' out,
     scan_symbol shers_matcher ctx line_num lt col c cur acc = inr (cur', out) ->
     next_state shers_matcher cur c = inr cur') /\
  exists cur w, run_states shers_matcher (str "she") root = inr cur /\
    spells (cells shers_matcher) w cur /\ w `suffix_of` word_of (str "she") /\
    (w = [] \/
     exists i raw, map str ["he"; "shers"]%string !! i = Some raw /\
       w `prefix_of` word_of (clean_text (case_sensitive_ shers_matcher) raw)) /\
    forall i raw w', map str ["he"; "shers"]%string !! i = Some raw ->
      w' `prefix_of` word_of (clean_text (case_sensitive_ shers_matcher) raw) ->
      w' `suffix_of` word_of (str "she") -> (length w' <= length w)%nat.
Proof.
  refine (scan_stands_on_longest_suffix (new_PatternMatcher false false)
            (map str ["he"; "shers"]%string) shers_matcher (str "she") _ _).
  - vm_compute. reflexivity.
  - repeat constructor; by vm_compute.
Defined.

(** X11 (search, collect_matches): every record that search returns on an
    initialized matcher stands for an occurrence of its pattern: the codes
    of the normalized pattern are the codes of the symbols of the line that
    end at the position of the scan; without case sensitivity the normalized
    pattern itself stands there, and when normalization has not shortened
    the pattern the reported column is the column of its first symbol. *)
Theorem match_sound m0 ps m text ctx out r :
  initialize m0 ps = (inr tt, m) ->
  Z.of_nat (length text) < SIZE_MOD ->
  search m text ctx = inr out -> r ∈ out ->
  exists k ln pos raw,
    lines_of m text !! k = Some ln /\ (pos < length ln)%nat /\
    line r = Z.of_nat k + 1 /\
    patterns_ m !! pattern_id r = Some raw /\ pattern r = raw /\
    column r = (Z.of_nat pos + 1 - Z.of_nat (length raw) + 1) mod SIZE_MOD /\
    clean_text (case_sensitive_ m) raw <> [] /\
    word_of (clean_text (case_sensitive_ m) raw) `suffix_of` word_of (take (S pos) ln) /\
    (case_sensitive_ m = false ->
       clean_text false raw `suffix_of` take (S pos) ln) /\
    (case_sensitive_ m = false -> length (clean_text false raw) = length raw ->
       1 <= column r /\
       column r + Z.of_nat (length raw) - 1 = Z.of_nat pos + 1 /\
       take (length raw) (drop (Z.to_nat (column r - 1)) ln) = clean_text false raw).
Proof.
  intros Hinit Hlen Hs Hr.
  destruct (initialize_inv _ _ _ Hinit) as [Hne Hcl].
  destruct (initialize_ok m0 ps Hne Hcl) as (m' & Hinit' & Hok & _ & Hps & _ & Hcs).
  assert (m' = m) by congruence. subst m'.
  pose proof (initialize_pats _ _ _ Hinit) as HI.
  apply (search_elem _ _ _ _ Hs) in Hr as (k & ln & new & Hk & Hsl & Hr).
  destruct (lines_of_bounds _ _ _ _ Hk) as [Hkb Hlb].
  pose proof (lines_of_class _ _ _ _ Hk) as Hclass.
  destruct (scan_line_sound m ctx k ln Hok HI ln [] root [] new) with (r := r)
    as [Hin|(pos & raw & Hpos & Hrec & Hraw & Hnn & Hsfx)];
    [done | | apply (wf_root _ (lk_wf _ Hok)) | apply at_suffix_root | done | done
    | by apply elem_of_nil in Hin |].
  { eapply Forall_impl; [exact Hclass|]. by intros c [? _]. }
  destruct Hrec as (pat & c & Hpat & Hc & Er).
  assert (pat = raw) by congruence. subst pat.
  exists k, ln, pos, raw. rewrite Er. simpl.
  split; [done|]. split; [done|]. split; [apply size_add_small; lia|].
  split; [done|]. split; [done|]. split; [apply column_mod|].
  split; [done|]. split; [done|].
  assert (Hstr : case_sensitive_ m = false ->
                 clean_text false raw `suffix_of` take (S pos) ln).
  { intros Hf. rewrite Hf in Hsfx. apply word_suffix; [| |done].
    - apply clean_text_lowerish. rewrite Hcs in Hf. rewrite Hf in Hcl.
      apply (proj1 (Forall_forall _ _) Hcl raw).
      rewrite <- Hps. apply list_elem_of_lookup. eauto.
    - apply Forall_take. eapply Forall_impl; [exact Hclass|].
      intros x [_ Hx]. by apply Hx. }
  split; [done|].
  intros Hf Hsame. destruct (Hstr Hf) as (pre & Epre).
  assert (Hl : (length pre + length raw = S pos)%nat).
  { apply (f_equal length) in Epre.
    rewrite length_take_le, length_app, Hsame in Epre by lia. lia. }
  assert (Hpos1 : (1 <= length raw)%nat).
  { rewrite <- Hsame. rewrite Hf in Hnn.
    destruct (clean_text false raw); [done | simpl; lia]. }
  rewrite column_mod.
  replace (Z.of_nat pos + 1 - Z.of_nat (length raw) + 1)
    with (Z.of_nat (length pre) + 1) by lia.
  rewrite Z.mod_small by lia.
  split; [lia|]. split; [lia|].
  replace (Z.to_nat (Z.of_nat (length pre) + 1 - 1)) with (length pre) by lia.
  rewrite <- (take_drop (S pos) ln), Epre, <- app_assoc, drop_app_length.
  rewrite <- Hsame. by rewrite take_app_length.
Qed.

Lemma match_sound_witness :
  exists k ln pos raw,
    lines_of ushers_matcher (str "ushers") !! k = Some ln /\ (pos < length ln)%nat /\
    line (rec 1 3 "he" "shers" 0) = Z.of_nat k + 1 /\
    patterns_ ushers_matcher !! pattern_id (rec 1 3 "he" "shers" 0) = Some raw /\
    pattern (rec 1 3 "he" "shers" 0) = raw /\
    column (rec 1 3 "he" "shers" 0)
    = (Z.of_nat pos + 1 - Z.of_nat (length raw) + 1) mod SIZE_MOD /\
    clean_text (case_sensitive_ ushers_matcher) raw <> [] /\
    word_of (clean_text (case_sensitive_ ushers_matcher) raw)
      `suffix_of` word_of (take (S pos) ln) /\
    (case_sensitive_ ushers_matcher = false ->
       clean_text false raw `suffix_of` take (S pos) ln) /\
    (case_sensitive_ ushers_matcher = false ->
     length (clean_text false raw) = length raw ->
       1 <= column (rec 1 3 "he" "shers" 0) /\
       column (rec 1 3 "he" "shers" 0) + Z.of_nat (length raw) - 1 = Z.of_nat pos + 1 /\
       take (length raw) (drop (Z.to_nat (column (rec 1 3 "he" "shers" 0) - 1)) ln)
       = clean_text false raw).
Proof.
  refine (match_sound (new_PatternMatcher false false)
            (map str ["he"; "she"; "hers"]%string) ushers_matcher (str "ushers") 20
            ushers_matches (rec 1 3 "he" "shers" 0) _ _ _ _).
  - vm_compute. reflexivity.
  - vm_compute. reflexivity.
  - vm_compute. reflexivity.
  - apply elem_of_cons. right. apply elem_of_cons. by left.
Defined.

(** X12 (search, collect_matches): on an initialized matcher, wherever in a
    normalized line the longest prefix of a routed pattern that ends there
    is a whole pattern, search reports every pattern whose routed form ends
    there: for each of them the result holds the record that
    collect_matches builds at that place, with the line number, the id and
    the pattern as it was supplied. *)
Theorem search_reports_at_pattern_ends m0 ps m text ctx out k ln pos i raw :
  initialize m0 ps = (inr tt, m) -> search m text ctx = inr out ->
  lines_of m text !! k = Some ln -> (pos < length ln)%nat ->
  ps !! i = Some raw -> clean_text (case_sensitive_ m) raw <> [] ->
  word_of (clean_text (case_sensitive_ m) raw) `suffix_of` word_of (take (S pos) ln) ->
  ends_pattern (case_sensitive_ m) ps (word_of (take (S pos) ln)) ->
  exists r, r ∈ out /\ record_at m ctx k ln pos i r /\
    line r = size_add (Z.of_nat k) 1 /\ pattern_id r = i /\ pattern r = raw /\
    column r = size_add (size_sub (size_add (Z.of_nat pos) 1)
                                  (Z.of_nat (length raw))) 1.
Proof. apply search_complete. Qed.

Lemma search_reports_at_pattern_ends_witness :
  exists r, r ∈ ushers_matches /\
    record_at ushers_matcher 20 0 (str "ushers") 5 2 r /\
    line r = size_add (Z.of_nat 0) 1 /\ pattern_id r = 2%nat /\
    pattern r = str "hers" /\
    column r = size_add (size_sub (size_add (Z.of_nat 5) 1)
                                  (Z.of_nat (length (str "hers")))) 1.
Proof.
  refine (search_reports_at_pattern_ends (new_PatternMatcher false false)
            (map str ["he"; "she"; "hers"]%string) ushers_matcher (str "ushers") 20
            ushers_matches 0 (str "ushers") 5 2 (str "hers") _ _ _ _ _ _ _ _).
  - vm_compute. reflexivity.
  - vm_compute. reflexivity.
  - vm_compute. reflexivity.
  - simpl. lia.
  - reflexivity.
  - discriminate.
  - exists [20; 18]%nat. vm_compute. reflexivity.
  - exists 2%nat, (str "hers"). split; [reflexivity|]. split; [discriminate|].
    split; [exists [20; 18]%nat; vm_compute; reflexivity|].
    intros q rawq w Hq Hpre _. apply prefix_length in Hpre.
    destruct q as [|[|[|q]]]; simpl in Hq; try discriminate;
      injection Hq as <-; vm_compute in Hpre; vm_compute; lia.
Defined.

(** X13 (initialize, search): every pattern of an initialized matcher whose
    normalized form is not empty is found in its own text: the search of the
    pattern as it was supplied returns a record with its id on line 1, at
    the column that collect_matches computes for the end of the line. *)
Theorem pattern_found_in_its_own_text m0 ps m i raw ctx :
  initialize m0 ps = (inr tt, m) -> ps !! i = Some raw ->
  clean_text (case_sensitive_ m) raw <> [] ->
  exists out r, search m raw ctx = inr out /\ r ∈ out /\
    pattern_id r = i /\ pattern r = raw /\ line r = 1 /\
    column r = (Z.of_nat (length (clean_text (case_sensitive_ m) raw))
                - Z.of_nat (length raw) + 1) mod SIZE_MOD.
Proof.
  intros Hinit Hraw Hne.
  destruct (initialize_built _ _ _ Hinit) as (Hb & Hps & _ & Hcs).
  destruct (initialize_inv _ _ _ Hinit) as [_ Hcl].
  destruct (search_ok m raw ctx (bt_links _ Hb) (bt_ids _ Hb)) as [out Hout].
  set (ln := clean_text (case_sensitive_ m) raw) in *.
  assert (Hidx : Forall idx_ok ln).
  { subst ln. rewrite Hcs. apply (proj1 (Forall_forall _ _) Hcl raw).
    apply list_elem_of_lookup. eauto. }
  assert (Hlines : lines_of m raw = [ln]).
  { unfold lines_of. fold ln. apply split_lines_single; [done|].
    eapply Forall_impl; [exact Hidx|]. intros c Hc Hn. by apply (newline_not_idx_ok c). }
  assert (Hpos : (0 < length ln)%nat) by (destruct ln; [done | simpl; lia]).
  assert (Htake : take (S (length ln - 1)) ln = ln).
  { apply take_ge. lia. }
  destruct (search_complete m0 ps m raw ctx out 0%nat ln (length ln - 1)%nat i raw)
    as (r & Hr & _ & Hl & Hi & Hp & Hc); try done.
  - by rewrite Hlines.
  - lia.
  - by rewrite Htake.
  - rewrite Htake. exists i, raw. split; [done|]. split; [done|]. split; [done|].
    intros q rawq w _ _ Hsuf. apply suffix_length in Hsuf.
    by rewrite word_of_length in Hsuf.
  - exists out, r. split; [done|]. split; [done|]. split; [done|]. split; [done|].
    split; [by rewrite Hl|]. rewrite Hc, column_mod. f_equal. lia.
Qed.

Lemma pattern_found_in_its_own_text_witness :
  exists out r, search h33e_matcher (str "h33e") 20 = inr out /\ r ∈ out /\
    pattern_id r = 0%nat /\ pattern r = str "h33e" /\ line r = 1 /\
    column r = (Z.of_nat (length (clean_text (case_sensitive_ h33e_matcher)
                                             (str "h33e")))
                - Z.of_nat (length (str "h33e")) + 1) mod SIZE_MOD.
Proof.
  refine (pattern_found_in_its_own_text (new_PatternMatcher false false)
            [str "h33e"] h33e_matcher 0 (str "h33e") 20 _ _ _).
  - vm_compute. reflexivity.
  - reflexivity.
  - vm_compute. discriminate.
Defined.

(** X14 (search, collect_matches): on an initialized matcher search reports
    every match once: no record stands twice in the result, for a text of
    less than 2^64 symbols, and two records of the result with the same
    line, column and pattern id are one record. *)
Theorem search_reports_once m0 ps m text ctx out :
  initialize m0 ps = (inr tt, m) -> Z.of_nat (length text) < SIZE_MOD ->
  search m text ctx = inr out ->
  NoDup out /\
  forall i j a b, out !! i = Some a -> out !! j = Some b -> same_key a b -> i = j.
Proof.
  intros Hinit Hlen Hs.
  destruct (initialize_built _ _ _ Hinit) as (Hb & _).
  pose proof (initialize_once _ _ _ Hinit) as Hon.
  unfold search in Hs. apply rbind_inr in Hs as (collected & Hs & [= <-]).
  assert (Hnd : NoDup (sort_matches collected)).
  { rewrite <- (sort_matches_perm collected). unfold scan in Hs.
    apply (scan_lines_once m ctx Hb Hon
             (split_lines (clean_text (case_sensitive_ m) text)) 0%nat collected);
      [| |done].
    - destruct (split_lines_from_bounds (clean_text (case_sensitive_ m) text) [])
        as [Hn _].
      pose proof (clean_text_length (case_sensitive_ m) text). simpl in *.
      unfold split_lines. lia.
    - apply Forall_forall. intros ln Hln. apply list_elem_of_lookup in Hln as [k Hk].
      destruct (lines_of_bounds m text k ln Hk). lia. }
  split; [done|]. intros i j a b Ha Hb' Hk.
  assert (a = b).
  { apply (scan_key_inj m text ctx collected Hlen Hs); [| |done];
      rewrite (sort_matches_perm collected); by eapply list_elem_of_lookup_2. }
  subst b. by apply (NoDup_lookup _ i j a Hnd).
Qed.

Lemma search_reports_once_witness : NoDup ushers_matches.
Proof.
  refine (proj1 (search_reports_once (new_PatternMatcher false false)
                   (map str ["he"; "she"; "hers"]%string) ushers_matcher
                   (str "ushers") 20 ushers_matches _ _ _)); vm_compute; reflexivity.
Defined.

(** ** The context of a match *)

(** X15 (collect_matches): the context of every record that search returns
    is made of symbols of the line of the match, in their order, and no two
    spaces stand side by side in it; so it is no longer than that line, and
    removing the doubled spaces again changes nothing. *)
Theorem context_is_squeezed m text ctx out r :
  search m text ctx = inr out -> r ∈ out ->
  exists k ln, lines_of m text !! k = Some ln /\
    line r = size_add (Z.of_nat k) 1 /\
    context r `sublist_of` ln /\ (length (context r) <= length ln)%nat /\
    squeezed (context r) /\ unique_spaces (context r) = context r.
Proof.
  intros Hs Hr. unfold search in Hs.
  apply rbind_inr in Hs as (collected & Hs & [= <-]).
  rewrite <- (sort_matches_perm collected) in Hr.
  destruct (scan_records _ _ _ _ Hs r Hr) as (k & ln & pos & Hk & Hpos & Hrec).
  exists k, ln. split; [done|].
  destruct Hrec as (pat & c & Hpat & Hc & ->). simpl.
  assert (Hsub : unique_spaces c `sublist_of` ln).
  { etrans; [apply unique_spaces_sublist | by eapply substr_sublist]. }
  split; [done|]. split; [done|]. split; [by apply sublist_length|].
  split; [apply unique_spaces_squeezed|].
  pose proof (unique_spaces_squeezed c) as Hq.
  destruct (unique_spaces c) as [|a s] eqn:E; [done|]. simpl. f_equal.
  by apply unique_from_fixed.
Qed.

Lemma context_is_squeezed_witness :
  exists k ln, lines_of ushers_matcher (str "ushers") !! k = Some ln /\
    1 = size_add (Z.of_nat k) 1 /\
    str "shers" `sublist_of` ln /\ (length (str "shers") <= length ln)%nat /\
    squeezed (str "shers") /\ unique_spaces (str "shers") = str "shers".
Proof.
  refine (context_is_squeezed ushers_matcher (str "ushers") 20 ushers_matches
            (rec 1 3 "he" "shers" 0) _ _).
  - vm_compute. reflexivity.
  - apply elem_of_cons. right. apply elem_of_cons. by left.
Defined.

(** X16 (search, collect_matches): the context size has a say in the
    context of the records only.  Two searches of the same text that differ
    in the context size fail alike or return as many records, and the
    records at the same place of the two results have the same line, column,
    pattern and pattern id. *)
Theorem context_size_changes_contexts_only m text ctx1 ctx2 :
  rrel (Forall2 same_place) (search m text ctx1) (search m text ctx2).
Proof.
  unfold search, scan.
  eapply rrel_bind; [apply scan_lines_ctx; constructor|].
  intros a b Hab. simpl. by apply sort_matches_same_place.
Qed.

(** ** The console interface *)

(** X17 (load_patterns_from_file): the patterns that are loaded are the
    lines of the file that are not empty, all of them, as often as they
    stand in the file and in their order; so none of them is empty or holds
    a line break, and there is at least one; the load fails when the file
    does not open or holds nothing but line breaks, and then only. *)
Theorem load_patterns_from_file_lines fs path :
  (forall ps, load_patterns_from_file fs path = inr ps ->
     ps <> [] /\ Forall (fun p => p <> [] /\ no_newline p) ps /\
     exists content, fs path = Some content /\
       ps = filter (fun p => p <> []) (split_lines content) /\
       ps `sublist_of` split_lines content /\
       forall p, p ∈ ps <-> p <> [] /\ p ∈ split_lines content) /\
  ((exists e, load_patterns_from_file fs path = inl e) <->
   fs path = None \/
   exists content, fs path = Some content /\
     Forall (fun c => code_of c = NEWLINE) content).
Proof.
  unfold load_patterns_from_file. destruct (fs path) as [content|] eqn:Hfs.
  - split.
    + intros ps Hps.
      assert (Hok : load_patterns_from_file fs path = inr ps).
      { unfold load_patterns_from_file. by rewrite Hfs. }
      destruct (load_patterns_from_file_ok _ _ _ Hok) as [Hne Hall].
      destruct (keep_patterns (split_lines content)) as [|p0 rest] eqn:Hk; [done|].
      injection Hps as <-. split; [done|]. split; [done|]. rewrite <- Hk.
      exists content. split; [done|]. split; [apply keep_patterns_filter|].
      split; [apply keep_patterns_order|].
      intros p. apply keep_patterns_elem.
    + destruct (keep_patterns (split_lines content)) as [|p0 rest] eqn:Hk.
      * split; [intros _ | by eauto]. right. exists content. split; [done|].
        apply keep_patterns_nil in Hk. unfold split_lines in Hk.
        by apply split_lines_from_empty in Hk as [_ ?].
      * split; [by intros [e ?]|]. intros [?|(c' & [= <-] & Hall)]; [done|].
        assert (Hnil : keep_patterns (split_lines content) = []).
        { apply keep_patterns_nil. unfold split_lines.
          by apply split_lines_from_empty. }
        congruence.
  - split; [done|]. split; [by left | by eauto].
Qed.

(** X18 (load_patterns_from_file, initialize, search): the patterns loaded
    from a file are always accepted: initialize returns on them, whatever
    the matcher was before, and search returns on the matcher it leaves, for
    every text and context size. *)
Theorem loaded_patterns_are_accepted fs path ps m :
  load_patterns_from_file fs path = inr ps ->
  exists m', initialize m ps = (inr tt, m') /\ patterns_ m' = ps /\
    forall text ctx, exists out, search m' text ctx = inr out.
Proof.
  intros Hload. destruct (load_patterns_from_file_ok _ _ _ Hload) as [Hne Hall].
  destruct (initialize_ok m ps Hne) as (m' & Hi & Hok & Hids & Hps & _).
  { apply well_formed_cleanable. eapply Forall_impl; [exact Hall|]. by intros p [_ ?]. }
  exists m'. split; [done|]. split; [done|]. intros text ctx.
  apply search_ok; [done|]. by rewrite Hps.
Qed.

Lemma loaded_patterns_are_accepted_witness :
  exists m', initialize (new_PatternMatcher true false) [str "alpha"; str "beta"]
             = (inr tt, m') /\
    patterns_ m' = [str "alpha"; str "beta"] /\
    forall text ctx, exists out, search m' text ctx = inr out.
Proof.
  refine (loaded_patterns_are_accepted
            (fun _ => Some (str "alpha" ++ newline :: str "beta" ++ [newline]))
            (str "tmp_patterns.txt") [str "alpha"; str "beta"]
            (new_PatternMatcher true false) _).
  vm_compute. reflexivity.
Defined.

(** X19 (generate_summary): whatever the order in which the map of the
    counts hands out its entries, generate_summary reads patterns[id]
    within the vector exactly when the pattern id of every record is below
    the number of patterns, and outside it, which is undefined, otherwise;
    so it is safe on the records of a search together with the patterns of
    the matcher that searched. *)
Theorem generate_summary_reads_in_bounds iteration :
  enumerates iteration ->
  (forall results patterns,
     (exists out, generate_summary iteration results patterns = inr out) <->
     forall r, r ∈ results -> (pattern_id r < length patterns)%nat) /\
  (forall results patterns e,
     generate_summary iteration results patterns = inl e -> e = Undefined) /\
  (forall m text ctx results, search m text ctx = inr results ->
     exists out, generate_summary iteration results (patterns_ m) = inr out).
Proof.
  intros Hit. split; [|split].
  - intros results patterns. by apply generate_summary_ok.
  - intros results patterns e. unfold generate_summary.
    destruct results as [|front rest]; [done|].
    destruct (summary_rows _ _) as [e'|rows] eqn:Hr; simpl; [|done].
    intros [= <-]. by eapply summary_rows_undefined.
  - intros m text ctx results Hs. apply generate_summary_ok; [done|].
    intros r Hr. by eapply search_ids_in_range.
Qed.

Lemma generate_summary_reads_in_bounds_witness :
  exists out, generate_summary map_to_list ushers_matches
                (patterns_ ushers_matcher) = inr out.
Proof.
  refine (proj2 (proj2 (generate_summary_reads_in_bounds map_to_list _))
            ushers_matcher (str "ushers") 20 ushers_matches _).
  - intros counts. reflexivity.
  - vm_compute. reflexivity.
Defined.

(** X20 (generate_summary, search): the count that the summary keeps for a
    pattern id is the number of the records with that id, counted in
    size_t, and an id has an entry exactly when some record carries it; and
    on the records of a search the two lines of the range, which are those
    of the first and of the last record, are the smallest and the largest
    line of all records. *)
Theorem summary_counts_and_range :
  (forall results id,
     default 0 (count_patterns results !! id)
     = Z.of_nat (length (filter (fun r => pattern_id r = id) results)) mod SIZE_MOD) /\
  (forall results id,
     is_Some (count_patterns results !! id) <-> exists r, r ∈ results /\ pattern_id r = id) /\
  (forall m text ctx results front r,
     search m text ctx = inr results -> head results = Some front -> r ∈ results ->
     line front <= line r <= line (default front (last results))).
Proof.
  split; [|split].
  - intros results id. apply count_patterns_lookup.
  - intros results id. rewrite <- not_eq_None_Some.
    rewrite (proj2 (count_patterns_lookup results id)). split.
    + intros H. destruct (decide (Exists (fun r => pattern_id r = id) results)) as [He|Hn].
      * apply Exists_exists in He. done.
      * destruct H. intros r Hr E. apply Hn, Exists_exists. eauto.
    + intros (r & Hr & E) H. by apply (H r).
  - intros m text ctx results front r Hs Hf Hr. unfold search in Hs.
    apply rbind_inr in Hs as (collected & _ & [= <-]).
    by apply (sorted_line_range _ (sort_matches_sorted collected)).
Qed.
